(** * SongMatch backend: scoring engine and its two caches

    A shallow embedding of [MatchingService] (matching.service.ts),
    [MatchCacheService] and [SongCacheService] (songCache.service.ts),
    with the properties of the specification stated over it.

    Conventions of the embedding.
    - A JavaScript [number] that carries a measurement (valence, tempo,
      loudness, a similarity, a score) is an exact rational [Q]; the
      rounding of IEEE doubles is not modelled there.  It matters at the
      thresholds of [tempoSimilarity], which [Double] therefore embeds a
      second time on binary64 floats.  Numbers that the code uses as
      integers (key, mode, time signature, milliseconds, years,
      timestamps, TTLs) are [Z].
    - An optional field [x?: T] is [option T]; JavaScript truthiness of
      such a field is written out ([truthy_string], [truthy_number]).
    - A computation that has no numeric result (a [TypeError], or a result
      poisoned by [NaN]) is [None]; [keySimilarity_outcome] and
      [calculateMatch_outcome] tell the two apart.
    - Stateful code runs in the monad [M] over an explicit [World] holding
      the Redis keyspace, the [songCache] table, the clock, the log and
      the Spotify collaborator; store failures are injected through fault
      schedules carried by the world. *)

From Stdlib Require Import ZArith QArith Qround Qabs Qminmax Lqa String Ascii.
From Stdlib Require Floats Uint63.
From stdpp Require Import base option list gmap strings pretty.

Local Open Scope Q_scope.

(** ** JavaScript primitives used by the services *)

Module Js.

(** [Math.round]: the nearest integer, halves rounded towards +infinity. *)
Definition Math_round (x : Q) : Z := Qfloor (x + (1 # 2)).

(** [x < y] on numbers, as a boolean. *)
Definition ltb (x y : Q) : bool := if Qlt_le_dec x y then true else false.

(** [!!s] for an optional string: defined and not empty. *)
Definition truthy_string (s : option string) : bool :=
  match s with
  | Some s => negb (String.eqb s "")
  | None => false
  end.

(** [!!n] for an optional integer: defined and not zero. *)
Definition truthy_number (n : option Z) : bool :=
  match n with
  | Some n => negb (n =? 0)%Z
  | None => false
  end.

(** [xs && xs.length > 0] *)
Definition nonempty {A} (xs : option (list A)) : bool :=
  match xs with
  | Some xs => (0 <? length xs)%nat
  | None => false
  end.

(** [xs || []] *)
Definition or_empty {A} (xs : option (list A)) : list A := default [] xs.

(** [n || 0] *)
Definition or_zero (n : option Z) : Z := default 0%Z n.

(** [a === b] on optional strings ([undefined === undefined] holds). *)
Definition strict_eq (a b : option string) : bool := bool_decide (a = b).

Definition lower_ascii (c : ascii) : ascii :=
  let n := nat_of_ascii c in
  if ((65 <=? n) && (n <=? 90))%nat then ascii_of_nat (n + 32) else c.

(** [String.prototype.toLowerCase] on the ASCII letters; other bytes are
    kept.  The proofs below use it only as a function on strings. *)
Fixpoint toLowerCase (s : string) : string :=
  match s with
  | EmptyString => EmptyString
  | String c s' => String (lower_ascii c) (toLowerCase s')
  end.

(** [xs.indexOf(x)]: the first position of [x], or -1. *)
Fixpoint indexOf_from (i : Z) (x : Z) (xs : list Z) : Z :=
  match xs with
  | [] => (-1)%Z
  | y :: ys => if (x =? y)%Z then i else indexOf_from (i + 1)%Z x ys
  end.

Definition indexOf (xs : list Z) (x : Z) : Z := indexOf_from 0%Z x xs.

(** [xs[i]] for an integer [i]: [undefined] (here [None]) out of range. *)
Definition index {A} (xs : list A) (i : Z) : option A :=
  if (i <? 0)%Z then None else xs !! Z.to_nat i.

(** [0, 1, ..., n-1], the values taken by a counting [for] loop. *)
Definition range (n : nat) : list Z := Z.of_nat <$> seq 0 n.

(** [xs.join(sep)] *)
Definition join (sep : string) (xs : list string) : string :=
  String.concat sep xs.

End Js.

(** ** music.types.ts *)

Record AudioFeatures := {
  valence : Q;
  energy : Q;
  danceability : Q;
  tempo : Q;
  acousticness : Q;
  key : Z;
  mode : Z;
  timeSignature : Z;
  loudness : Q;
  durationMs : Z;
  genres : option (list string);
  artist : option string;
  releaseYear : option Z
}.

Record ScoreComponent := {
  similarity : Q;
  weight : Q;
  values : list Q;
  label : string
}.

(** The [components] object of each layer has a fixed set of property
    names; each layer gets a record with those names as fields. *)
Record Layer1Components := {
  l1_valence : ScoreComponent;
  l1_energy : ScoreComponent;
  l1_danceability : ScoreComponent;
  l1_tempo : ScoreComponent;
  l1_acousticness : ScoreComponent
}.

Record Layer2Components := {
  l2_keyMode : ScoreComponent;
  l2_timeSignature : ScoreComponent;
  l2_loudness : ScoreComponent;
  l2_duration : ScoreComponent
}.

Record Layer3Components := {
  l3_genre : ScoreComponent;
  l3_artist : ScoreComponent;
  l3_era : ScoreComponent
}.

Record LayerResult (C : Type) := {
  score : Q;
  components : C
}.
Arguments score {C} _.
Arguments components {C} _.

Record Breakdown := {
  layer1 : LayerResult Layer1Components;
  layer2 : LayerResult Layer2Components;
  layer3 : LayerResult Layer3Components
}.

Record ExplanationDetails := {
  mood : string;
  rhythm : string;
  harmony : string;
  style : string
}.

Record MatchExplanation := {
  summary : string;
  strengths : list string;
  weaknesses : list string;
  details : ExplanationDetails
}.

Record MatchResult := {
  overallScore : Z;
  confidence : Q;
  breakdown : Breakdown;
  explanation : MatchExplanation;
  processingTime : Q;
  algorithmVersion : string
}.

(** ** matching.service.ts *)

Module MatchingService.
Import Js.

Definition ALGORITHM_VERSION : string := "1.0".

(** Circle of Fifths: C, G, D, A, E, B, F#, C#, G#, D#, A#, F *)
Definition CIRCLE_OF_FIFTHS : list Z :=
  [0; 7; 2; 9; 4; 11; 6; 1; 8; 3; 10; 5]%Z.

Definition buildCircleDistanceMatrix : list (list Z) :=
  (fun i =>
     (fun j =>
        let pos1 := indexOf CIRCLE_OF_FIFTHS i in
        let pos2 := indexOf CIRCLE_OF_FIFTHS j in
        let clockwise := Z.abs (pos1 - pos2) in
        let counterclockwise := (12 - clockwise)%Z in
        Z.min clockwise counterclockwise) <$> range 12) <$> range 12.

(** Filled once by the constructor. *)
Definition CIRCLE_DISTANCE_MATRIX : list (list Z) := buildCircleDistanceMatrix.

Definition continuousSimilarity (v1 v2 : Q) : Q := 1 - Qabs (v1 - v2).

(** When the smaller tempo is 0 the ratio is [Infinity], [-Infinity] or
    [NaN], and both octave comparisons are false.  The ratio and the two
    comparisons are exact here; the code's doubles decide differently
    within rounding of the two thresholds, see [Double.tempoSimilarity]. *)
Definition tempoSimilarity (bpm1 bpm2 : Q) : Q :=
  let octave :=
    if Qeq_dec (Qmin bpm1 bpm2) 0 then false
    else
      let ratio := Qmax bpm1 bpm2 / Qmin bpm1 bpm2 in
      ltb (Qabs (ratio - 2.0)) 0.1 || ltb (Qabs (ratio - 0.5)) 0.1 in
  if octave then 0.7
  else
    let diff := Qabs (bpm1 - bpm2) in
    Qmax 0 (1 - diff / 50).

(** [None]: [CIRCLE_DISTANCE_MATRIX[key1]] is [undefined] and indexing it
    throws, or the entry is [undefined] and the similarity is [NaN]. *)
Definition keySimilarity (key1 mode1 key2 mode2 : Z) : option Q :=
  if ((key1 =? key2) && (mode1 =? mode2))%Z then Some 1.0
  else if (key1 =? key2)%Z then Some 0.7
  else
    row ← index CIRCLE_DISTANCE_MATRIX key1;
    distance ← index row key2;
    let similarity := 1 - inject_Z distance / 6 in
    Some (if (mode1 =? mode2)%Z then similarity else similarity * 0.8).

(** [keySimilarity] with its two failures told apart.  When [key1] is no
    row of the matrix, [CIRCLE_DISTANCE_MATRIX[key1]] is [undefined] and
    indexing it throws a [TypeError].  When the row exists and [key2] is
    no column of it, [distance] is [undefined], [1 - distance / 6] is
    [NaN], and [NaN] is returned. *)
Inductive KeyOutcome :=
| KeyValue (similarity : Q)
| KeyNaN
| KeyTypeError.

Definition keySimilarity_outcome (key1 mode1 key2 mode2 : Z) : KeyOutcome :=
  if ((key1 =? key2) && (mode1 =? mode2))%Z then KeyValue 1.0
  else if (key1 =? key2)%Z then KeyValue 0.7
  else
    match index CIRCLE_DISTANCE_MATRIX key1 with
    | None => KeyTypeError
    | Some row =>
        match index row key2 with
        | None => KeyNaN
        | Some distance =>
            let similarity := 1 - inject_Z distance / 6 in
            KeyValue (if (mode1 =? mode2)%Z then similarity else similarity * 0.8)
        end
    end.

Definition timeSignatureSimilarity (ts1 ts2 : Z) : Q :=
  if (ts1 =? ts2)%Z then 1.0
  else if (((ts1 =? 6) && (ts2 =? 3)) || ((ts1 =? 3) && (ts2 =? 6)))%Z
       then 0.7
       else 0.3.

Definition loudnessSimilarity (db1 db2 : Q) : Q :=
  let norm1 := (db1 + 60) / 60 in
  let norm2 := (db2 + 60) / 60 in
  1 - Qabs (norm1 - norm2).

Definition durationSimilarity (ms1 ms2 : Z) : Q :=
  let diff := inject_Z (Z.abs (ms1 - ms2)) / 1000 in
  if ltb diff 10 then 1.0
  else if ltb diff 30 then 0.8
  else if ltb diff 60 then 0.6
  else Qmax 0 (1 - diff / 300).

Definition genreSimilarity (genres1 genres2 : list string) : Q :=
  if ((length genres1 =? 0) || (length genres2 =? 0))%nat then 0.5
  else
    let set1 : gset string := list_to_set (toLowerCase <$> genres1) in
    let set2 : gset string := list_to_set (toLowerCase <$> genres2) in
    let intersection := filter (fun x => x ∈ set2) set1 in
    let union := set1 ∪ set2 in
    inject_Z (Z.of_nat (size intersection)) / inject_Z (Z.of_nat (size union)).

Definition artistSimilarity (artist1 artist2 : option string) : Q :=
  if negb (truthy_string artist1) || negb (truthy_string artist2) then 0.5
  else if strict_eq artist1 artist2 then 1.0 else 0.0.

Definition eraSimilarity (year1 year2 : option Z) : Q :=
  if negb (truthy_number year1) || negb (truthy_number year2) then 0.5
  else
    let decade1 := (or_zero year1 / 10 * 10)%Z in
    let decade2 := (or_zero year2 / 10 * 10)%Z in
    if (decade1 =? decade2)%Z then 1.0
    else
      let diff := inject_Z (Z.abs (decade1 - decade2)) / 10 in
      Qmax 0 (1 - diff / 5).

(** [Object.values(components).reduce((sum, comp) => sum + comp.similarity * comp.weight, 0)] *)
Definition weightedSum (comps : list ScoreComponent) : Q :=
  fold_left (fun sum comp => sum + similarity comp * weight comp) comps 0.

Definition values1 (c : Layer1Components) : list ScoreComponent :=
  [l1_valence c; l1_energy c; l1_danceability c; l1_tempo c; l1_acousticness c].

Definition values2 (c : Layer2Components) : list ScoreComponent :=
  [l2_keyMode c; l2_timeSignature c; l2_loudness c; l2_duration c].

Definition values3 (c : Layer3Components) : list ScoreComponent :=
  [l3_genre c; l3_artist c; l3_era c].

Definition calculateLayer1 (f1 f2 : AudioFeatures) : LayerResult Layer1Components :=
  let components := {|
    l1_valence := {|
      similarity := continuousSimilarity (valence f1) (valence f2);
      weight := 0.15;
      values := [valence f1; valence f2];
      label := "Mood/Positivity" |};
    l1_energy := {|
      similarity := continuousSimilarity (energy f1) (energy f2);
      weight := 0.15;
      values := [energy f1; energy f2];
      label := "Energy Level" |};
    l1_danceability := {|
      similarity := continuousSimilarity (danceability f1) (danceability f2);
      weight := 0.12;
      values := [danceability f1; danceability f2];
      label := "Danceability" |};
    l1_tempo := {|
      similarity := tempoSimilarity (tempo f1) (tempo f2);
      weight := 0.1;
      values := [tempo f1; tempo f2];
      label := "Tempo (BPM)" |};
    l1_acousticness := {|
      similarity := continuousSimilarity (acousticness f1) (acousticness f2);
      weight := 0.08;
      values := [acousticness f1; acousticness f2];
      label := "Acousticness" |} |} in
  let score := weightedSum (values1 components) / 0.6 in
  {| score := score; components := components |}.

Definition calculateLayer2 (f1 f2 : AudioFeatures)
  : option (LayerResult Layer2Components) :=
  keySim ← keySimilarity (key f1) (mode f1) (key f2) (mode f2);
  let components := {|
    l2_keyMode := {|
      similarity := keySim;
      weight := 0.1;
      values := [inject_Z (key f1) + inject_Z (mode f1) / 10;
                 inject_Z (key f2) + inject_Z (mode f2) / 10];
      label := "Key & Mode" |};
    l2_timeSignature := {|
      similarity := timeSignatureSimilarity (timeSignature f1) (timeSignature f2);
      weight := 0.05;
      values := [inject_Z (timeSignature f1); inject_Z (timeSignature f2)];
      label := "Time Signature" |};
    l2_loudness := {|
      similarity := loudnessSimilarity (loudness f1) (loudness f2);
      weight := 0.05;
      values := [loudness f1; loudness f2];
      label := "Loudness" |};
    l2_duration := {|
      similarity := durationSimilarity (durationMs f1) (durationMs f2);
      weight := 0.05;
      values := [inject_Z (durationMs f1); inject_Z (durationMs f2)];
      label := "Duration" |} |} in
  let score := weightedSum (values2 components) / 0.25 in
  Some {| score := score; components := components |}.

Definition calculateLayer3 (f1 f2 : AudioFeatures) : LayerResult Layer3Components :=
  let components := {|
    l3_genre := {|
      similarity := genreSimilarity (or_empty (genres f1)) (or_empty (genres f2));
      weight := 0.08;
      values := [inject_Z (Z.of_nat (length (or_empty (genres f1))));
                 inject_Z (Z.of_nat (length (or_empty (genres f2))))];
      label := "Genre Overlap" |};
    l3_artist := {|
      similarity := artistSimilarity (artist f1) (artist f2);
      weight := 0.04;
      values := [if strict_eq (artist f1) (artist f2) then 1 else 0; 0];
      label := "Artist Match" |};
    l3_era := {|
      similarity := eraSimilarity (releaseYear f1) (releaseYear f2);
      weight := 0.03;
      values := [inject_Z (or_zero (releaseYear f1));
                 inject_Z (or_zero (releaseYear f2))];
      label := "Era/Decade" |} |} in
  let score := weightedSum (values3 components) / 0.15 in
  {| score := score; components := components |}.

Definition calculateConfidence (f1 f2 : AudioFeatures) : Q :=
  let totalFeatures := (0 + 5 + 4 + 3)%Z in
  let availableFeatures := (0 + 5 + 4)%Z in
  let availableFeatures :=
    if nonempty (genres f1) && nonempty (genres f2)
    then (availableFeatures + 1)%Z else availableFeatures in
  let availableFeatures :=
    if truthy_string (artist f1) && truthy_string (artist f2)
    then (availableFeatures + 1)%Z else availableFeatures in
  let availableFeatures :=
    if truthy_number (releaseYear f1) && truthy_number (releaseYear f2)
    then (availableFeatures + 1)%Z else availableFeatures in
  inject_Z availableFeatures / inject_Z totalFeatures.

Definition getMoodDescription (valence energy : Q) : string :=
  if ltb 0.7 valence && ltb 0.7 energy then "Upbeat and energetic"
  else if ltb 0.7 valence && ltb energy 0.4 then "Happy but calm"
  else if ltb valence 0.4 && ltb 0.7 energy then "Intense and dark"
  else if ltb valence 0.4 && ltb energy 0.4 then "Melancholic and subdued"
  else "Moderate mood and energy".

Definition getRhythmDescription (tempo danceability : Q) : string :=
  let speed :=
    if ltb tempo 90 then "slow" else if ltb tempo 120 then "moderate" else "fast" in
  let dance :=
    if ltb 0.7 danceability then "very danceable"
    else if ltb 0.4 danceability then "somewhat danceable"
    else "not very danceable" in
  speed +:+ " tempo (" +:+ pretty (Math_round tempo) +:+ " BPM), " +:+ dance.

(** [keys[key]] is [undefined] out of range and prints as such. *)
Definition getHarmonyDescription (key mode : Z) : string :=
  let keys := ["C"; "C#"; "D"; "D#"; "E"; "F"; "F#"; "G"; "G#"; "A"; "A#"; "B"] in
  let keyName := default "undefined" (index keys key) in
  let modeName := if (mode =? 1)%Z then "Major" else "Minor" in
  keyName +:+ " " +:+ modeName.

Definition getStyleDescription (genres : option (list string))
    (artist : option string) : string :=
  if negb (nonempty genres)
  then (if truthy_string artist then default "" artist else "Unknown style")
  else
    join ", " (take 2 (or_empty genres))
    +:+ (if truthy_string artist then " by " +:+ default "" artist else "").

Definition generateExplanation (f1 f2 : AudioFeatures) (layers : Breakdown)
    (overallScore : Z) : MatchExplanation :=
  let c1 := components (layer1 layers) in
  let c2 := components (layer2 layers) in
  let c3 := components (layer3 layers) in
  (* each rule pushes at most one sentence on one of the two lists *)
  let rule (sim : Q) (hi lo : Q) (guard : bool) (good bad : string)
      (acc : list string * list string) : list string * list string :=
    if guard && ltb hi sim then (acc.1 ++ [good], acc.2)
    else if guard && ltb sim lo then (acc.1, acc.2 ++ [bad])
    else acc in
  let acc := ([], []) in
  let acc := rule (similarity (l1_valence c1)) 0.8 0.5 true
    "Very similar mood and emotional tone"
    "Different emotional vibes (one more positive/upbeat)" acc in
  let acc := rule (similarity (l1_energy c1)) 0.8 0.5 true
    "Matching energy levels"
    "Contrasting energy (one more intense than the other)" acc in
  let acc := rule (similarity (l1_tempo c1)) 0.7 0.5 true
    "Similar tempo and rhythm"
    "Different tempo/speed" acc in
  let acc := rule (similarity (l2_keyMode c2)) 0.8 0.5 true
    "Harmonically compatible (similar key/mode)"
    "Different harmonic structure (key/mode mismatch)" acc in
  let acc := rule (similarity (l3_genre c3)) 0.5 0.2
    (bool_decide (is_Some (genres f1)) && bool_decide (is_Some (genres f2)))
    "Shared musical genres"
    "Different genres" acc in
  let summary :=
    if (80 <=? overallScore)%Z
    then "These songs are very similar and would pair well together!"
    else if (60 <=? overallScore)%Z
    then "These songs share some similarities but have notable differences."
    else if (40 <=? overallScore)%Z
    then "These songs have some common elements but differ in key aspects."
    else "These songs don't match well - they're quite different." in
  let moodDesc := getMoodDescription (valence f1) (energy f1) in
  let rhythmDesc := getRhythmDescription (tempo f1) (danceability f1) in
  let harmonyDesc := getHarmonyDescription (key f1) (mode f1) in
  let styleDesc := getStyleDescription (genres f1) (artist f1) in
  {| summary := summary;
     strengths := acc.1;
     weaknesses := acc.2;
     details := {| mood := moodDesc; rhythm := rhythmDesc;
                   harmony := harmonyDesc; style := styleDesc |} |}.

(** [startTime] and [endTime] are the two readings of [performance.now()]. *)
Definition calculateMatch (startTime endTime : Q) (features1 features2 : AudioFeatures)
  : option MatchResult :=
  let layer1 := calculateLayer1 features1 features2 in
  layer2 ← calculateLayer2 features1 features2;
  let layer3 := calculateLayer3 features1 features2 in
  let overallScore :=
    Math_round ((score layer1 * 0.6 + score layer2 * 0.25 + score layer3 * 0.15) * 100) in
  let confidence := calculateConfidence features1 features2 in
  let layers := {| layer1 := layer1; layer2 := layer2; layer3 := layer3 |} in
  let explanation := generateExplanation features1 features2 layers overallScore in
  let processingTime := inject_Z (Math_round ((endTime - startTime) * 100)) / 100 in
  Some {| overallScore := overallScore;
          confidence := confidence;
          breakdown := layers;
          explanation := explanation;
          processingTime := processingTime;
          algorithmVersion := ALGORITHM_VERSION |}.

(** What a call of [calculateMatch] comes to.  [calculateLayer2] calls
    [keySimilarity] first: its [TypeError] leaves [calculateMatch]
    unfinished; its [NaN] makes the score of layer 2 and then
    [Math.round(... * 100)] [NaN], and [calculateMatch] returns a result
    with these [NaN] scores, which [MatchResult] cannot hold and
    [ReturnsNaN] stands for. *)
Inductive MatchOutcome :=
| Returns (result : MatchResult)
| ReturnsNaN
| ThrowsTypeError.

Definition calculateMatch_outcome (startTime endTime : Q)
    (features1 features2 : AudioFeatures) : MatchOutcome :=
  match keySimilarity_outcome (key features1) (mode features1)
          (key features2) (mode features2) with
  | KeyTypeError => ThrowsTypeError
  | KeyNaN => ReturnsNaN
  | KeyValue _ =>
      match calculateMatch startTime endTime features1 features2 with
      | Some result => Returns result
      | None => ThrowsTypeError
      end
  end.

End MatchingService.

(** ** tempoSimilarity on IEEE doubles

    The same function on binary64 floats, with the operations the code
    performs in the order it performs them. *)

Module Double.
Import PrimFloat SpecFloat FloatOps.
#[local] Set Warnings "-inexact-float".
Local Open Scope float_scope.

(** [Math.max]: [NaN] as soon as one argument is, and +0 above -0. *)
Definition Math_max (x y : float) : float :=
  if is_nan x || is_nan y then nan
  else if x <? y then y
  else if y <? x then x
  else if get_sign x then y else x.

(** [Math.min]: [NaN] as soon as one argument is, and -0 below +0. *)
Definition Math_min (x y : float) : float :=
  if is_nan x || is_nan y then nan
  else if x <? y then x
  else if y <? x then y
  else if get_sign x then x else y.

Definition Math_abs (x : float) : float := abs x.

Definition tempoSimilarity (bpm1 bpm2 : float) : float :=
  let ratio := Math_max bpm1 bpm2 / Math_min bpm1 bpm2 in
  if (Math_abs (ratio - 2.0) <? 0.1) || (Math_abs (ratio - 0.5) <? 0.1) then 0.7
  else
    let diff := Math_abs (bpm1 - bpm2) in
    Math_max 0 (1 - diff / 50).

(** The rational number a finite double stands for. *)
Definition value (x : float) : option Q :=
  match Prim2SF x with
  | S754_zero _ => Some 0%Q
  | S754_finite sign m e =>
      let magnitude :=
        match e with
        | Zneg p => (Zpos m # Pos.shiftl 1 (Npos p))%Q
        | _ => inject_Z (Zpos m * 2 ^ e)
        end in
      Some (if sign then Qopp magnitude else magnitude)
  | _ => None
  end.

End Double.

(** ** spotify.types.ts *)

Record SpotifyAudioFeatures := {
  sp_id : string;
  sp_valence : Q;
  sp_energy : Q;
  sp_danceability : Q;
  sp_tempo : Q;
  sp_acousticness : Q;
  sp_key : Z;
  sp_mode : Z;
  sp_time_signature : Z;
  sp_loudness : Q;
  sp_duration_ms : Z;
  sp_instrumentalness : Q;
  sp_liveness : Q;
  sp_speechiness : Q
}.

Record CachedSong := {
  song_id : string;
  song_name : string;
  song_artist : string;
  song_artistId : string;
  song_album : string;
  song_albumId : string;
  song_releaseYear : Z;
  song_durationMs : Z;
  song_previewUrl : option string;
  song_spotifyUrl : string;
  song_imageUrl : option string;
  song_popularity : Z;
  song_explicit : bool;
  song_audioFeatures : SpotifyAudioFeatures;
  song_genres : list string;
  song_cachedAt : Z;
  song_expiresAt : Z;
  song_platform : string
}.

(** The cache services only hand a track on to [convertToCachedSong]. *)
Record SpotifyTrack := {
  track_id : string;
  track_name : string
}.

Record SongSearchFilters := {
  filter_query : string;
  filter_limit : option Z;
  filter_offset : option Z;
  filter_market : option string
}.

(** The [tracks] object of a search response. *)
Record SpotifySearchResponse := {
  tracks_items : list SpotifyTrack;
  tracks_total : Z;
  tracks_limit : Z;
  tracks_offset : Z;
  tracks_next : option string;
  tracks_previous : option string
}.

Record SongSearchResult := {
  result_songs : list CachedSong;
  result_total : Z;
  result_limit : Z;
  result_offset : Z;
  result_hasMore : bool
}.

(** ** The world the services run in *)

Inductive Error :=
| RedisError                                  (* a Redis command rejected *)
| PrismaError                                 (* a Prisma query rejected *)
| SyntaxError                                 (* JSON.parse on malformed text *)
| MatchingError                               (* calculateMatch has no numeric result *)
| AppError (statusCode : Z) (code : string).  (* thrown by SpotifyService *)

Inductive Res (A : Type) :=
| Ok (a : A)
| Throw (e : Error).
Arguments Ok {A} a.
Arguments Throw {A} e.

Inductive Level := LDebug | LInfo | LWarn | LError.

Record LogEntry := {
  level : Level;
  message : string;
  cause : option Error
}.

(** One Redis key: its string value and its remaining time to live in
    seconds, as the [TTL] command reports it. *)
Record RedisEntry := {
  value : string;
  ttl : Z
}.

(** One row of the [songCache] table; (platform, songId) is its key. *)
Record SongCacheRow := {
  row_title : string;
  row_artist : string;
  row_data : string;
  row_cachedAt : Z;
  row_expiresAt : Z
}.

(** [redis] lists the keyspace in the order in which [KEYS] enumerates it.
    A fault schedule says, command by command, whether the store rejects
    the next command; an exhausted schedule means no further fault. *)
Record World := {
  now : Z;
  perf : Q * Q;
  redis : list (string * RedisEntry);
  redis_faults : list bool;
  songCache : gmap (string * string) SongCacheRow;
  prisma_faults : list bool;
  spotify_getTrack : string -> Res SpotifyTrack;
  spotify_convertToCachedSong : SpotifyTrack -> Z -> Res CachedSong;
  spotify_calls : list string;
  log : list LogEntry
}.

(** [JSON.stringify] and [JSON.parse] at one type; [None] is a thrown
    [SyntaxError]. *)
Class JSON (A : Type) := {
  JSON_stringify : A -> string;
  JSON_parse : string -> option A
}.

Module Effects.

Definition M (A : Type) : Type := World -> Res A * World.

Definition ret {A} (a : A) : M A := fun w => (Ok a, w).

Definition bind {A B} (m : M A) (k : A -> M B) : M B := fun w =>
  match m w with
  | (Ok a, w') => k a w'
  | (Throw e, w') => (Throw e, w')
  end.

Definition throw {A} (e : Error) : M A := fun w => (Throw e, w).

(** [try { body } catch (error) { handler }] *)
Definition try_catch {A} (body : M A) (handler : Error -> M A) : M A := fun w =>
  match body w with
  | (Ok a, w') => (Ok a, w')
  | (Throw e, w') => handler e w'
  end.

(** [promise.catch(handler)] on a promise nobody awaits: the caller goes
    on whatever the outcome. *)
Definition fire_and_forget (task : M unit) (handler : Error -> M unit) : M unit :=
  try_catch task handler.

Declare Scope js_scope.
Delimit Scope js_scope with js.
Notation "x <- m ;; k" := (bind m (fun x => k))
  (at level 100, m at next level, right associativity) : js_scope.
Notation "m ;;; k" := (bind m (fun _ => k))
  (at level 100, right associativity) : js_scope.

Fixpoint foldM {A S} (f : S -> A -> M S) (xs : list A) (s : S) : M S :=
  match xs with
  | [] => ret s
  | x :: xs' => bind (f s x) (foldM f xs')
  end.

Definition with_redis (r : list (string * RedisEntry)) (w : World) : World :=
  {| now := now w; perf := perf w; redis := r; redis_faults := redis_faults w;
     songCache := songCache w; prisma_faults := prisma_faults w;
     spotify_getTrack := spotify_getTrack w;
     spotify_convertToCachedSong := spotify_convertToCachedSong w;
     spotify_calls := spotify_calls w; log := log w |}.

Definition with_redis_faults (fs : list bool) (w : World) : World :=
  {| now := now w; perf := perf w; redis := redis w; redis_faults := fs;
     songCache := songCache w; prisma_faults := prisma_faults w;
     spotify_getTrack := spotify_getTrack w;
     spotify_convertToCachedSong := spotify_convertToCachedSong w;
     spotify_calls := spotify_calls w; log := log w |}.

Definition with_songCache (t : gmap (string * string) SongCacheRow) (w : World) : World :=
  {| now := now w; perf := perf w; redis := redis w; redis_faults := redis_faults w;
     songCache := t; prisma_faults := prisma_faults w;
     spotify_getTrack := spotify_getTrack w;
     spotify_convertToCachedSong := spotify_convertToCachedSong w;
     spotify_calls := spotify_calls w; log := log w |}.

Definition with_prisma_faults (fs : list bool) (w : World) : World :=
  {| now := now w; perf := perf w; redis := redis w; redis_faults := redis_faults w;
     songCache := songCache w; prisma_faults := fs;
     spotify_getTrack := spotify_getTrack w;
     spotify_convertToCachedSong := spotify_convertToCachedSong w;
     spotify_calls := spotify_calls w; log := log w |}.

Definition with_spotify_calls (cs : list string) (w : World) : World :=
  {| now := now w; perf := perf w; redis := redis w; redis_faults := redis_faults w;
     songCache := songCache w; prisma_faults := prisma_faults w;
     spotify_getTrack := spotify_getTrack w;
     spotify_convertToCachedSong := spotify_convertToCachedSong w;
     spotify_calls := cs; log := log w |}.

Definition with_log (l : list LogEntry) (w : World) : World :=
  {| now := now w; perf := perf w; redis := redis w; redis_faults := redis_faults w;
     songCache := songCache w; prisma_faults := prisma_faults w;
     spotify_getTrack := spotify_getTrack w;
     spotify_convertToCachedSong := spotify_convertToCachedSong w;
     spotify_calls := spotify_calls w; log := l |}.

(** *** logger *)

Definition logger (lvl : Level) (msg : string) (err : option Error) : M unit := fun w =>
  (Ok tt, with_log (log w ++ [{| level := lvl; message := msg; cause := err |}]) w).

(** *** Date.now() *)

Definition Date_now : M Z := fun w => (Ok (now w), w).

(** *** ioredis *)

(** One Redis command: rejected when the schedule says so, run on the
    keyspace otherwise. *)
Definition redis_command {A}
    (run : list (string * RedisEntry) -> A * list (string * RedisEntry)) : M A := fun w =>
  match redis_faults w with
  | true :: fs => (Throw RedisError, with_redis_faults fs w)
  | false :: fs =>
      let '(a, r) := run (redis w) in (Ok a, with_redis r (with_redis_faults fs w))
  | [] =>
      let '(a, r) := run (redis w) in (Ok a, with_redis r w)
  end.

Fixpoint assoc_get (k : string) (r : list (string * RedisEntry)) : option RedisEntry :=
  match r with
  | [] => None
  | (k', e) :: r' => if String.eqb k k' then Some e else assoc_get k r'
  end.

Fixpoint assoc_set (k : string) (e : RedisEntry) (r : list (string * RedisEntry))
  : list (string * RedisEntry) :=
  match r with
  | [] => [(k, e)]
  | (k', e') :: r' =>
      if String.eqb k k' then (k, e) :: r' else (k', e') :: assoc_set k e r'
  end.

Definition is_member (k : string) (ks : list string) : bool :=
  existsb (String.eqb k) ks.

Definition redis_get (k : string) : M (option string) :=
  redis_command (fun r => (value <$> assoc_get k r, r)).

Definition redis_setex (k : string) (seconds : Z) (v : string) : M unit :=
  redis_command (fun r => (tt, assoc_set k {| value := v; ttl := seconds |} r)).

Definition redis_del (ks : list string) : M Z :=
  redis_command (fun r =>
    (Z.of_nat (length (filter (fun kv => is_member kv.1 ks = true) r)),
     filter (fun kv => is_member kv.1 ks = false) r)).

(** [redis.keys(prefix + '*')] *)
Definition redis_keys (pfx : string) : M (list string) :=
  redis_command (fun r => (filter (fun k => String.prefix pfx k = true) (r.*1), r)).

(** [TTL] answers -2 for a key that does not exist. *)
Definition redis_ttl (k : string) : M Z :=
  redis_command (fun r => (default (-2)%Z (ttl <$> assoc_get k r), r)).

(** *** Prisma, table songCache *)

Definition prisma_query {A}
    (run : gmap (string * string) SongCacheRow
           -> Res A * gmap (string * string) SongCacheRow) : M A := fun w =>
  match prisma_faults w with
  | true :: fs => (Throw PrismaError, with_prisma_faults fs w)
  | false :: fs =>
      let '(a, t) := run (songCache w) in (a, with_songCache t (with_prisma_faults fs w))
  | [] =>
      let '(a, t) := run (songCache w) in (a, with_songCache t w)
  end.

Definition songCache_findUnique (platform songId : string) : M (option SongCacheRow) :=
  prisma_query (fun t => (Ok (t !! (platform, songId)), t)).

Definition songCache_upsert (platform songId : string) (row : SongCacheRow) : M unit :=
  prisma_query (fun t => (Ok tt, <[(platform, songId) := row]> t)).

(** [delete] rejects when no row matches. *)
Definition songCache_delete (platform songId : string) : M unit :=
  prisma_query (fun t =>
    match t !! (platform, songId) with
    | Some _ => (Ok tt, delete (platform, songId) t)
    | None => (Throw PrismaError, t)
    end).

(** [deleteMany({ where: { expiresAt: { lt: bound } } })] *)
Definition songCache_deleteMany_expiresAt_lt (bound : Z) : M Z :=
  prisma_query (fun t =>
    (Ok (Z.of_nat (size (filter (fun kv => (row_expiresAt kv.2 < bound)%Z) t))),
     filter (fun kv => ¬ (row_expiresAt kv.2 < bound)%Z) t)).

(** *** SpotifyService *)

Definition spotifyService_getTrack (trackId : string) : M SpotifyTrack := fun w =>
  (spotify_getTrack w trackId,
   with_spotify_calls (spotify_calls w ++ ["getTrack " +:+ trackId]) w).

Definition spotifyService_convertToCachedSong (track : SpotifyTrack) : M CachedSong := fun w =>
  (spotify_convertToCachedSong w track (now w),
   with_spotify_calls (spotify_calls w ++ ["convertToCachedSong " +:+ track_id track]) w).

(** [count()] *)
Definition songCache_count : M Z :=
  prisma_query (fun t => (Ok (Z.of_nat (size t)), t)).

(** [count({ where: { expiresAt: { lt: bound } } })] *)
Definition songCache_count_expiresAt_lt (bound : Z) : M Z :=
  prisma_query (fun t =>
    (Ok (Z.of_nat (size (filter (fun kv => (row_expiresAt kv.2 < bound)%Z) t))), t)).

(** [count({ where: { platform } })] *)
Definition songCache_count_platform (platform : string) : M Z :=
  prisma_query (fun t =>
    (Ok (Z.of_nat (size (filter (fun kv => kv.1.1 = platform) t))), t)).

(** [deleteMany({})] *)
Definition songCache_deleteMany_all : M Z :=
  prisma_query (fun t => (Ok (Z.of_nat (size t)), ∅)).

(** A promise run to its end, its outcome kept as a value. *)
Definition settle {A} (m : M A) : M (Res A) := fun w =>
  let '(r, w') := m w in (Ok r, w').

(** [Promise.all([p1, p2, p3])]: the three are started whatever becomes of
    the others, and the first rejection is the rejection of the whole. *)
Definition Promise_all3 {A B C} (p1 : M A) (p2 : M B) (p3 : M C) : M (A * B * C) :=
  (r1 <- settle p1 ;;
   r2 <- settle p2 ;;
   r3 <- settle p3 ;;
   match r1, r2, r3 with
   | Ok a, Ok b, Ok c => ret (a, b, c)
   | Throw e, _, _ => throw e
   | _, Throw e, _ => throw e
   | _, _, Throw e => throw e
   end)%js.

End Effects.

(** ** MatchCacheService *)

Record MatchCacheStats := {
  totalKeys : Z;
  estimatedSize : Z;
  oldestKey : option string
}.

Module MatchCacheService.
Import Js Effects.
Local Open Scope js_scope.

Definition CACHE_PREFIX : string := "match:".
Definition CACHE_TTL : Z := (7 * 24 * 60 * 60)%Z.

(** [[a, b].sort()] with the default comparator: the two strings in
    ascending code-unit order, left as they are when equal. *)
Definition sort2 (a b : string) : string * string :=
  if String.ltb b a then (b, a) else (a, b).

Definition getCacheKey (song1Id song2Id : string) : string :=
  let '(id1, id2) := sort2 song1Id song2Id in
  CACHE_PREFIX +:+ id1 +:+ ":" +:+ id2.

(** [this.matchingService.calculateMatch], reading the performance clock.
    A result poisoned by [NaN], which the code returns and caches like any
    other, cannot be held by [MatchResult]: the call is an error here, and
    the properties of [getMatch] are stated for numeric results. *)
Definition matchingService_calculateMatch (features1 features2 : AudioFeatures)
  : M MatchResult := fun w =>
  match MatchingService.calculateMatch (perf w).1 (perf w).2 features1 features2 with
  | Some result => (Ok result, w)
  | None => (Throw MatchingError, w)
  end.

Section WithJSON.
Context `{JSON MatchResult}.

Definition getCachedMatch (song1Id song2Id : string) : M (option MatchResult) :=
  try_catch
    (let cacheKey := getCacheKey song1Id song2Id in
     cached <- redis_get cacheKey ;;
     match cached with
     | None => ret None
     | Some text =>
         if String.eqb text "" then ret None
         else match JSON_parse text with
              | Some result => ret (Some result)
              | None => throw SyntaxError
              end
     end)
    (fun error =>
       logger LWarn "Error retrieving cached match:" (Some error) ;;;
       ret None).

Definition cacheMatch (song1Id song2Id : string) (result : MatchResult) : M unit :=
  try_catch
    (let cacheKey := getCacheKey song1Id song2Id in
     let serialized := JSON_stringify result in
     redis_setex cacheKey CACHE_TTL serialized ;;;
     logger LDebug
       ("Cached match result: " +:+ cacheKey +:+ " (TTL: " +:+ pretty CACHE_TTL +:+ "s)")
       None)
    (fun error =>
       logger LError "Error caching match result:" (Some error) ;;;
       throw error).

Definition getMatch (features1 features2 : AudioFeatures)
    (song1Id song2Id : string) (bypassCache : bool) : M MatchResult :=
  cached <- (if negb bypassCache then getCachedMatch song1Id song2Id else ret None) ;;
  match cached with
  | Some cached =>
      logger LDebug ("Cache hit for match: " +:+ song1Id +:+ " <-> " +:+ song2Id) None ;;;
      ret cached
  | None =>
      logger LDebug ("Cache miss for match: " +:+ song1Id +:+ " <-> " +:+ song2Id) None ;;;
      result <- matchingService_calculateMatch features1 features2 ;;
      fire_and_forget (cacheMatch song1Id song2Id result)
        (fun error => logger LError "Failed to cache match result:" (Some error)) ;;;
      ret result
  end.

Definition invalidateMatch (song1Id song2Id : string) : M unit :=
  try_catch
    (let cacheKey := getCacheKey song1Id song2Id in
     redis_del [cacheKey] ;;;
     logger LDebug ("Invalidated cache for: " +:+ cacheKey) None)
    (fun error =>
       logger LError "Error invalidating cache:" (Some error) ;;;
       throw error).

Definition clearAllMatches : M Z :=
  try_catch
    (keys <- redis_keys CACHE_PREFIX ;;
     if (length keys =? 0)%nat then ret 0%Z
     else
       deleted <- redis_del keys ;;
       logger LInfo ("Cleared " +:+ pretty deleted +:+ " cached matches") None ;;;
       ret deleted)
    (fun error =>
       logger LError "Error clearing match cache:" (Some error) ;;;
       throw error).

(** The body of the loop that looks for the oldest key. *)
Definition oldest_step (acc : option string * Z) (key : string)
  : M (option string * Z) :=
  let '(oldestKey, maxTtl) := acc in
  ttl <- redis_ttl key ;;
  if (maxTtl <? ttl)%Z then ret (Some key, ttl) else ret (oldestKey, maxTtl).

(** The body of the loop that sums the sampled value lengths. *)
Definition size_step (estimatedSize : Z) (key : string) : M Z :=
  value <- redis_get key ;;
  match value with
  | Some v =>
      if String.eqb v "" then ret estimatedSize
      else ret (estimatedSize + Z.of_nat (String.length v))%Z
  | None => ret estimatedSize
  end.

Definition getCacheStats : M MatchCacheStats :=
  try_catch
    (keys <- redis_keys CACHE_PREFIX ;;
     let totalKeys := Z.of_nat (length keys) in
     estimatedSize <-
       (if (0 <? length keys)%nat then
          let sampleKeys := take (Nat.min 10 (length keys)) keys in
          estimatedSize <- foldM size_step sampleKeys 0%Z ;;
          ret (Math_round
                 (inject_Z estimatedSize / inject_Z (Z.of_nat (length sampleKeys))
                  * inject_Z totalKeys))
        else ret 0%Z) ;;
     oldest <- foldM oldest_step (take 100 keys) (None, 0%Z) ;;
     ret {| totalKeys := totalKeys;
            estimatedSize := estimatedSize;
            oldestKey := oldest.1 |})
    (fun error =>
       logger LError "Error getting cache stats:" (Some error) ;;;
       throw error).

End WithJSON.
End MatchCacheService.

Record SongCacheStats := {
  totalCached : Z;
  expired : Z;
  byPlatform : list (string * Z)
}.

(** ** songCache.service.ts

    The lookup, the write, the delete and the sweep of the song cache, with
    [getSongById], [getAudioFeatures] and [searchSongs] on top of them, and
    the statistics.  [SpotifyService] is a collaborator: its methods called
    here are answered from outside. *)

Module SongCacheService.
Import Js Effects.
Local Open Scope js_scope.

Definition CACHE_TTL_DAYS : Z := 30%Z.
Definition CACHE_TTL_MS : Z := (CACHE_TTL_DAYS * 24 * 60 * 60 * 1000)%Z.

Definition deleteCachedSong (songId platform : string) : M unit :=
  try_catch
    (songCache_delete platform songId ;;;
     logger LDebug ("Deleted cached song: " +:+ songId) None)
    (fun error => logger LError "Error deleting cached song:" (Some error)).

Definition cleanExpiredCache : M Z :=
  try_catch
    (bound <- Date_now ;;
     count <- songCache_deleteMany_expiresAt_lt bound ;;
     logger LInfo ("Cleaned up " +:+ pretty count +:+ " expired song cache entries") None ;;;
     ret count)
    (fun error =>
       logger LError "Error cleaning expired cache:" (Some error) ;;;
       ret 0%Z).

Definition invalidateSong (songId platform : string) : M unit :=
  deleteCachedSong songId platform ;;;
  logger LInfo ("Invalidated cache for song: " +:+ songId) None.

Definition getCacheStats : M SongCacheStats :=
  try_catch
    (bound <- Date_now ;;
     counts <- Promise_all3 songCache_count
                 (songCache_count_expiresAt_lt bound)
                 (songCache_count_platform "spotify") ;;
     let '(total, expired, spotify) := counts in
     ret {| totalCached := total;
            expired := expired;
            byPlatform := [("spotify", spotify)] |})
    (fun error =>
       logger LError "Error getting cache stats:" (Some error) ;;;
       ret {| totalCached := 0; expired := 0; byPlatform := [] |}).

Definition clearAllCache : M Z :=
  try_catch
    (count <- songCache_deleteMany_all ;;
     logger LWarn
       ("Cleared all song cache: " +:+ pretty count +:+ " entries deleted") None ;;;
     ret count)
    (fun error =>
       logger LError "Error clearing cache:" (Some error) ;;;
       ret 0%Z).

Section WithJSON.
Context `{JSON CachedSong}.

Definition getCachedSong (songId platform : string) : M (option CachedSong) :=
  try_catch
    (cached <- songCache_findUnique platform songId ;;
     match cached with
     | None => ret None
     | Some cached =>
         current <- Date_now ;;
         if (row_expiresAt cached <? current)%Z then
           logger LDebug ("Cache expired for song: " +:+ songId) None ;;;
           deleteCachedSong songId platform ;;;
           ret None
         else
           match JSON_parse (row_data cached) with
           | Some song => ret (Some song)
           | None => throw SyntaxError
           end
     end)
    (fun error =>
       logger LError "Error retrieving cached song:" (Some error) ;;;
       ret None).

Definition cacheSong (song : CachedSong) : M unit :=
  try_catch
    (let data := JSON_stringify song in
     songCache_upsert (song_platform song) (song_id song)
       {| row_title := song_name song;
          row_artist := song_artist song;
          row_data := data;
          row_cachedAt := song_cachedAt song;
          row_expiresAt := song_expiresAt song |} ;;;
     logger LDebug
       ("Cached song: " +:+ song_id song +:+ " (" +:+ song_name song +:+ ")") None)
    (fun error => logger LError "Error caching song:" (Some error)).

Definition getSongById (songId platform : string) : M CachedSong :=
  cached <- getCachedSong songId platform ;;
  match cached with
  | Some cached =>
      logger LDebug ("Cache hit for song: " +:+ songId) None ;;;
      ret cached
  | None =>
      logger LDebug
        ("Cache miss for song: " +:+ songId +:+ ", fetching from Spotify") None ;;;
      track <- spotifyService_getTrack songId ;;
      song <- spotifyService_convertToCachedSong track ;;
      cacheSong song ;;;
      ret song
  end.

Definition getAudioFeatures (songId platform : string) : M AudioFeatures :=
  song <- getSongById songId platform ;;
  let af := song_audioFeatures song in
  ret {| valence := sp_valence af;
         energy := sp_energy af;
         danceability := sp_danceability af;
         tempo := sp_tempo af;
         acousticness := sp_acousticness af;
         key := sp_key af;
         mode := sp_mode af;
         timeSignature := sp_time_signature af;
         loudness := sp_loudness af;
         durationMs := sp_duration_ms af;
         genres := Some (song_genres song);
         artist := Some (song_artist song);
         releaseYear := Some (song_releaseYear song) |}.

Section WithSearch.
(** [SpotifyService.searchTracks], answered from outside. *)
Variable searchTracks : SongSearchFilters -> Res SpotifySearchResponse.

Definition spotifyService_searchTracks (filters : SongSearchFilters)
  : M SpotifySearchResponse := fun w =>
  (searchTracks filters,
   with_spotify_calls (spotify_calls w ++ ["searchTracks " +:+ filter_query filters]) w).

(** The body of the loop over the tracks found. *)
Definition search_step (songs : list CachedSong) (track : SpotifyTrack)
  : M (list CachedSong) :=
  try_catch
    (cachedSong <- getCachedSong (track_id track) "spotify" ;;
     cachedSong <-
       match cachedSong with
       | Some cachedSong => ret cachedSong
       | None =>
           cachedSong <- spotifyService_convertToCachedSong track ;;
           cacheSong cachedSong ;;;
           ret cachedSong
       end ;;
     ret (songs ++ [cachedSong]))
    (fun error =>
       logger LError ("Error processing track " +:+ track_id track +:+ ":") (Some error) ;;;
       ret songs).

Definition searchSongs (filters : SongSearchFilters) : M SongSearchResult :=
  searchResponse <- spotifyService_searchTracks filters ;;
  songs <- foldM search_step (tracks_items searchResponse) [] ;;
  ret {| result_songs := songs;
         result_total := tracks_total searchResponse;
         result_limit := tracks_limit searchResponse;
         result_offset := tracks_offset searchResponse;
         result_hasMore := bool_decide (tracks_next searchResponse <> None) |}.

End WithSearch.

End WithJSON.
End SongCacheService.

(** ** errorHandler.ts *)

Inductive NodeEnv := Development | Production | Test.

(** What a route handler can throw: an [AppError] (whose [name] stays
    "Error"), or any other [Error] with its [name]. *)
Inductive ThrownError :=
| AppErr (statusCode : Z) (code message : string) (isOperational : bool)
    (stack : option string)
| OtherErr (name message : string) (stack : option string).

(** The JSON body of an error response; a field that the branch does not
    write, or writes as [undefined], is [None]. *)
Record ErrorBody := {
  body_success : bool;
  body_code : string;
  body_message : string;
  body_details : option string;
  body_stack : option string
}.

Record ErrorResponse := {
  response_status : Z;
  response_body : ErrorBody
}.

Module ErrorHandler.
Import Effects.
Local Open Scope js_scope.

Definition err_name (err : ThrownError) : string :=
  match err with
  | AppErr _ _ _ _ _ => "Error"
  | OtherErr name _ _ => name
  end.

Definition err_message (err : ThrownError) : string :=
  match err with
  | AppErr _ _ message _ _ => message
  | OtherErr _ message _ => message
  end.

Definition err_stack (err : ThrownError) : option string :=
  match err with
  | AppErr _ _ _ _ stack => stack
  | OtherErr _ _ stack => stack
  end.

(** The status and the body that [res.status(...).json(...)] sends.  The
    error object handed to the logger is not kept in the log entry. *)
Definition errorHandler (NODE_ENV : NodeEnv) (method path : string)
    (err : ThrownError) : M ErrorResponse :=
  logger LError ("Error in " +:+ method +:+ " " +:+ path +:+ ":") None ;;;
  match err with
  | AppErr statusCode code message true _ =>
      ret {| response_status := statusCode;
             response_body := {| body_success := false;
                                 body_code := code;
                                 body_message := message;
                                 body_details := None;
                                 body_stack := None |} |}
  | _ =>
      if String.eqb (err_name err) "PrismaClientKnownRequestError" then
        ret {| response_status := 400;
               response_body := {|
                 body_success := false;
                 body_code := "DATABASE_ERROR";
                 body_message := "Database operation failed";
                 body_details :=
                   match NODE_ENV with
                   | Development => Some (err_message err)
                   | _ => None
                   end;
                 body_stack := None |} |}
      else
        ret {| response_status := 500;
               response_body := {|
                 body_success := false;
                 body_code := "INTERNAL_ERROR";
                 body_message :=
                   match NODE_ENV with
                   | Production => "Internal server error"
                   | _ => err_message err
                   end;
                 body_details := None;
                 body_stack :=
                   match NODE_ENV with
                   | Development => err_stack err
                   | _ => None
                   end |} |}
  end.

End ErrorHandler.

(** ** SpotifyService: token and error handling *)

(** The two private fields that hold the client-credentials token. *)
Record SpotifyAuth := {
  accessToken : option string;
  tokenExpiresAt : Z
}.

Record SpotifyTokenResponse := {
  access_token : string;
  expires_in : Z
}.

(** What the response interceptor reads of an [AxiosError]:
    [error.response] with its status, [data?.error?.message] and the
    [retry-after] header, then [error.code] and [error.message]. *)
Record AxiosResponse := {
  resp_status : Z;
  resp_error_message : option string;
  resp_retry_after : option string
}.

Record AxiosError := {
  axios_response : option AxiosResponse;
  axios_code : option string;
  axios_message : string
}.

(** The arguments of [new AppError(statusCode, code, message)]. *)
Record AppErrorData := {
  app_statusCode : Z;
  app_code : string;
  app_message : string
}.

Module SpotifyService.
Import Js Effects.
Local Open Scope js_scope.

(** [a || b] on strings that may be missing. *)
Definition or_string (a : option string) (b : string) : string :=
  if truthy_string a then default "" a else b.

(** A template string prints a missing value as "undefined". *)
Definition show (a : option string) : string := default "undefined" a.

(** [handleApiError] always throws; the result is what it throws, with the
    token fields as it leaves them.  The error object handed to the logger
    is not kept in the log entry. *)
Definition handleApiError (error : AxiosError) (auth : SpotifyAuth)
  : M (AppErrorData * SpotifyAuth) :=
  match axios_response error with
  | Some response =>
      let status := resp_status response in
      let message := or_string (resp_error_message response) (axios_message error) in
      if (status =? 429)%Z then
        logger LWarn
          ("Spotify rate limit hit. Retry after: " +:+ show (resp_retry_after response)
           +:+ " seconds") None ;;;
        ret ({| app_statusCode := 429;
                app_code := "RATE_LIMIT_EXCEEDED";
                app_message := "Rate limit exceeded. Retry after "
                               +:+ show (resp_retry_after response) +:+ " seconds" |},
             auth)
      else if (status =? 404)%Z then
        ret ({| app_statusCode := 404;
                app_code := "NOT_FOUND";
                app_message := "Track not found on Spotify" |}, auth)
      else if (status =? 401)%Z then
        logger LError "Spotify authentication failed" None ;;;
        ret ({| app_statusCode := 401;
                app_code := "SPOTIFY_AUTH_ERROR";
                app_message := "Spotify authentication failed" |},
             {| accessToken := None; tokenExpiresAt := 0 |})
      else
        ret ({| app_statusCode := status;
                app_code := "SPOTIFY_API_ERROR";
                app_message := or_string (Some message) "Spotify API error" |}, auth)
  | None =>
      if bool_decide (axios_code error = Some "ECONNABORTED")
         || bool_decide (axios_code error = Some "ETIMEDOUT")
      then
        ret ({| app_statusCode := 504;
                app_code := "SPOTIFY_TIMEOUT";
                app_message := "Spotify API request timed out" |}, auth)
      else
        logger LError "Unknown Spotify API error:" None ;;;
        ret ({| app_statusCode := 500;
                app_code := "SPOTIFY_ERROR";
                app_message := "An error occurred with Spotify API" |}, auth)
  end.

Section WithTokenEndpoint.
(** The answer of the token endpoint to the client-credentials request. *)
Variable post_token : Res SpotifyTokenResponse.

Definition getClientCredentialsToken : M SpotifyAuth :=
  try_catch
    (response <- (fun w => (post_token, w)) ;;
     current <- Date_now ;;
     logger LInfo "Successfully obtained Spotify access token" None ;;;
     ret {| accessToken := Some (access_token response);
            tokenExpiresAt := (current + expires_in response * 1000)%Z |})
    (fun error =>
       logger LError "Failed to get Spotify access token:" (Some error) ;;;
       throw (AppError 500 "SPOTIFY_AUTH_ERROR")).

Definition ensureValidToken (auth : SpotifyAuth) : M SpotifyAuth :=
  current <- Date_now ;;
  if truthy_string (accessToken auth)
     && (current + 5 * 60 * 1000 <? tokenExpiresAt auth)%Z
  then ret auth
  else
    logger LDebug "Refreshing Spotify access token" None ;;;
    getClientCredentialsToken.

End WithTokenEndpoint.
End SpotifyService.

(** * Vocabulary of the specification

    The predicates, reference definitions and concrete inputs that the
    statements below are written with. *)

Import Js MatchingService Effects.

(** ** Tempo, key and mode *)

(** The octave test of the specification, on the ratio of the larger to
    the smaller tempo. *)
Definition octave_related (a b : Q) : Prop :=
  let r := Qmax a b / Qmin a b in
  Qabs (r - 2) < 0.1 \/ Qabs (r - 0.5) < 0.1.

(** The same test as the code evaluates it: the quotient, the two
    differences and the comparisons in double precision. *)
Module DoubleSpec.
Import PrimFloat.
#[local] Set Warnings "-inexact-float".
Local Open Scope float_scope.

Definition octave_related (a b : float) : bool :=
  let r := Double.Math_max a b / Double.Math_min a b in
  (abs (r - 2) <? 0.1) || (abs (r - 0.5) <? 0.1).



End DoubleSpec.



(** The circle of the specification, by key name. *)
Definition circle_sequence : list string :=
  ["C"; "G"; "D"; "A"; "E"; "B"; "F#"; "C#"; "G#"; "D#"; "A#"; "F"].

(** Key numbers name the keys chromatically, as in [AudioFeatures]:
    0-11 (C, C#, D, ..., B). *)
Definition key_names : list string :=
  ["C"; "C#"; "D"; "D#"; "E"; "F"; "F#"; "G"; "G#"; "A"; "A#"; "B"].

Fixpoint position_from (i : Z) (name : string) (names : list string) : option Z :=
  match names with
  | [] => None
  | n :: ns => if String.eqb name n then Some i else position_from (i + 1)%Z name ns
  end.

(** Where a key sits on the circle. *)
Definition circle_position (key : Z) : option Z :=
  name ← index key_names key;
  position_from 0%Z name circle_sequence.

(** Steps between two keys: the shorter way round the circle. *)
Definition circle_steps (key1 key2 : Z) : option Z :=
  p1 ← circle_position key1;
  p2 ← circle_position key2;
  Some (Z.min ((p2 - p1) `mod` 12) ((p1 - p2) `mod` 12))%Z.

(** The rule of the specification. *)
Definition key_rule (key1 mode1 key2 mode2 : Z) (d : Z) : Q :=
  if decide (key1 = key2) then
    (if decide (mode1 = mode2) then 1.0 else 0.7)
  else
    let s := 1 - inject_Z d / 6 in
    if decide (mode1 = mode2) then s else s * 0.8.

(** Keys are 0..11, modes 0 (minor) or 1 (major). *)
Definition valid_key (k : Z) : Prop := (0 <= k <= 11)%Z.

Definition valid_mode (m : Z) : Prop := m = 0%Z \/ m = 1%Z.

(** ** Metadata and valid vectors *)

(** A song has a piece of optional metadata when the field is defined and
    truthy: a genre list with an entry, a name that is not empty, a year
    that is not 0 (the value [convertToCachedSong] writes for a track
    without release date). *)
Definition has_genres (f : AudioFeatures) : Prop :=
  exists g, genres f = Some g /\ g <> [].

Definition has_artist (f : AudioFeatures) : Prop :=
  exists a, artist f = Some a /\ a <> "".

Definition has_releaseYear (f : AudioFeatures) : Prop :=
  exists y, releaseYear f = Some y /\ y <> 0%Z.

(** 1 when the signal is available on both sides, 0 otherwise. *)
Inductive signal (P : Prop) : Q -> Prop :=
| signal_present : P -> signal P 1
| signal_missing : ~ P -> signal P 0.

(** [n / m] for two set sizes. *)
Definition ratio (n m : nat) : Q := inject_Z (Z.of_nat n) / inject_Z (Z.of_nat m).

(** The ranges that the data model gives the mandatory fields. *)
Record valid_features (f : AudioFeatures) : Prop := {
  valid_valence : 0 <= valence f <= 1;
  valid_energy : 0 <= energy f <= 1;
  valid_danceability : 0 <= danceability f <= 1;
  valid_acousticness : 0 <= acousticness f <= 1;
  valid_tempo : 0 < tempo f;
  valid_key_range : valid_key (key f);
  valid_mode_range : valid_mode (mode f);
  valid_loudness : -60 <= loudness f <= 0;
  valid_durationMs : (0 < durationMs f)%Z
}.

(** The three optional fields are present. *)
Definition all_optional_present (f : AudioFeatures) : Prop :=
  has_genres f /\ has_artist f /\ has_releaseYear f.

(** ** Vectors of the test suite *)

(** The test suite's fully described song. *)
Definition identicalSong : AudioFeatures := {|
  valence := 0.8; energy := 0.7; danceability := 0.75; tempo := 120;
  acousticness := 0.3; key := 0; mode := 1; timeSignature := 4;
  loudness := -5; durationMs := 200000;
  genres := Some ["pop"; "dance-pop"]; artist := Some "Test Artist";
  releaseYear := Some 2020%Z |}.


(** The test suite's opposite song. *)
Definition oppositeSong : AudioFeatures := {|
  valence := 0.2; energy := 0.3; danceability := 0.25; tempo := 60;
  acousticness := 0.9; key := 6; mode := 0; timeSignature := 3;
  loudness := -15; durationMs := 400000;
  genres := Some ["classical"; "piano"]; artist := Some "Different Artist";
  releaseYear := Some 1980%Z |}.

(** The same song as [identicalSong], its genre list unknown. *)
Definition songWithoutGenres : AudioFeatures := {|
  valence := 0.8; energy := 0.7; danceability := 0.75; tempo := 120;
  acousticness := 0.3; key := 0; mode := 1; timeSignature := 4;
  loudness := -5; durationMs := 200000;
  genres := None; artist := Some "Test Artist";
  releaseYear := Some 2020%Z |}.

(** ** Comparing results *)



(** ** Concrete worlds *)

(** A stand-in for the JSON text of a match result: the text names the
    overall score, and only the text of [reference] reads back. *)
Definition demo_match_json (reference : MatchResult) : JSON MatchResult := {|
  JSON_stringify := fun r => "match-result-" +:+ pretty (overallScore r);
  JSON_parse := fun text =>
    if String.eqb text ("match-result-" +:+ pretty (overallScore reference))
    then Some reference else None
|}.

(** A stand-in for the JSON text of a cached song, in the same way. *)
Definition demo_song_json (reference : CachedSong) : JSON CachedSong := {|
  JSON_stringify := fun s => "cached-song-" +:+ song_id s;
  JSON_parse := fun text =>
    if String.eqb text ("cached-song-" +:+ song_id reference)
    then Some reference else None
|}.

Definition demoAudioFeatures : SpotifyAudioFeatures := {|
  sp_id := "s1"; sp_valence := 0.8; sp_energy := 0.7; sp_danceability := 0.75;
  sp_tempo := 120; sp_acousticness := 0.3; sp_key := 0; sp_mode := 1;
  sp_time_signature := 4; sp_loudness := -5; sp_duration_ms := 200000;
  sp_instrumentalness := 0; sp_liveness := 0.1; sp_speechiness := 0.05 |}.

Definition demoSong (cachedAt : Z) : CachedSong := {|
  song_id := "s1"; song_name := "Test Song"; song_artist := "Test Artist";
  song_artistId := "a1"; song_album := "Test Album"; song_albumId := "al1";
  song_releaseYear := 2020; song_durationMs := 200000;
  song_previewUrl := None; song_spotifyUrl := "https://open.spotify.com/track/s1";
  song_imageUrl := None; song_popularity := 50; song_explicit := false;
  song_audioFeatures := demoAudioFeatures; song_genres := ["pop"; "dance-pop"];
  song_cachedAt := cachedAt;
  song_expiresAt := (cachedAt + SongCacheService.CACHE_TTL_MS)%Z;
  song_platform := "spotify" |}.

Definition demoRow (song : CachedSong) : SongCacheRow := {|
  row_title := song_name song;
  row_artist := song_artist song;
  row_data := "cached-song-" +:+ song_id song;
  row_cachedAt := song_cachedAt song;
  row_expiresAt := song_expiresAt song |}.

(** A Spotify that knows the track s1 only. *)
Definition demoSpotify_getTrack (trackId : string) : Res SpotifyTrack :=
  if String.eqb trackId "s1"
  then Ok {| track_id := "s1"; track_name := "Test Song" |}
  else Throw (AppError 404 "NOT_FOUND").

Definition demoSpotify_convertToCachedSong (track : SpotifyTrack) (current : Z)
  : Res CachedSong :=
  if String.eqb (track_id track) "s1" then Ok (demoSong current)
  else Throw (AppError 404 "NOT_FOUND").

Definition demoWorld (current : Z) (keyspace : list (string * RedisEntry))
    (redisFaults : list bool) (table : gmap (string * string) SongCacheRow)
    (prismaFaults : list bool) : World := {|
  now := current;
  perf := (0, 1);
  redis := keyspace;
  redis_faults := redisFaults;
  songCache := table;
  prisma_faults := prismaFaults;
  spotify_getTrack := demoSpotify_getTrack;
  spotify_convertToCachedSong := demoSpotify_convertToCachedSong;
  spotify_calls := [];
  log := [] |}.

(** What [TTL] answers for a key. *)
Definition ttl_of (keyspace : list (string * RedisEntry)) (k : string) : Z :=
  default (-2)%Z (ttl <$> assoc_get k keyspace).

(** The loop over the sampled keys, on a keyspace that answers. *)
Definition scan_oldest (keyspace : list (string * RedisEntry)) (keys : list string)
    (acc : option string * Z) : option string * Z :=
  fold_left
    (fun acc k =>
       if (acc.2 <? ttl_of keyspace k)%Z then (Some k, ttl_of keyspace k) else acc)
    keys acc.

(** Two cached pairs: a:b was written long ago and has 100 seconds left,
    c:d has just been written with the full seven days. *)
Definition statsWorld : World :=
  demoWorld 0
    [("match:a:b", {| value := "match-result-50"; ttl := 100 |});
     ("match:c:d", {| value := "match-result-70"; ttl := MatchCacheService.CACHE_TTL |})]
    [] ∅ [].

(** ** Behaviour of effectful code *)

(** What no operation of the two caches changes: the clocks and the
    Spotify collaborator. *)
Definition same_env (w w' : World) : Prop :=
  now w' = now w
  /\ perf w' = perf w
  /\ spotify_getTrack w' = spotify_getTrack w
  /\ spotify_convertToCachedSong w' = spotify_convertToCachedSong w.

Definition env_stable {A} (m : M A) : Prop := forall w, same_env w (m w).2.

(** The computation ends normally in every world. *)
Definition never_throws {A} (m : M A) : Prop :=
  forall w, exists a w', m w = (Ok a, w').

(** The write that [getMatch] leaves behind. *)
Definition background_write `{JSON MatchResult} (a b : string) (r : MatchResult)
  : M unit :=
  fire_and_forget (MatchCacheService.cacheMatch a b r)
    (fun error => logger LError "Failed to cache match result:" (Some error)).

(** The store rejects the next command. *)
Definition next_fails (faults : list bool) : Prop := head faults = Some true.

(** A world in which Redis and the database reject every command. *)
Definition outageWorld : World :=
  demoWorld 1000 [] [true; true; true] ∅ [true; true; true].

(** The row [cacheSong] writes for a song. *)
Definition row_of `{JSON CachedSong} (song : CachedSong) : SongCacheRow :=
  {| row_title := song_name song;
     row_artist := song_artist song;
     row_data := JSON_stringify song;
     row_cachedAt := song_cachedAt song;
     row_expiresAt := song_expiresAt song |}.

(** What the lookup finds when the database answers: nothing, an expired
    row, or a row that is still good together with what its text reads as. *)
Definition lookup_outcome `{JSON CachedSong} (w : World) (songId platform : string)
  : option CachedSong * gmap (string * string) SongCacheRow :=
  match songCache w !! (platform, songId) with
  | None => (None, songCache w)
  | Some row =>
      if (row_expiresAt row <? now w)%Z
      then (None, delete (platform, songId) (songCache w))
      else (JSON_parse (row_data row), songCache w)
  end.

(** A row written at time 0 with a life of 1000 ms, read at time 1000. *)
Definition boundarySong : CachedSong := {|
  song_id := "s1"; song_name := "Test Song"; song_artist := "Test Artist";
  song_artistId := "a1"; song_album := "Test Album"; song_albumId := "al1";
  song_releaseYear := 2020; song_durationMs := 200000;
  song_previewUrl := None; song_spotifyUrl := "https://open.spotify.com/track/s1";
  song_imageUrl := None; song_popularity := 50; song_explicit := false;
  song_audioFeatures := demoAudioFeatures; song_genres := ["pop"; "dance-pop"];
  song_cachedAt := 0; song_expiresAt := 1000; song_platform := "spotify" |}.

Definition boundaryWorld : World :=
  demoWorld 1000 [] [] {[ ("spotify", "s1") := demoRow boundarySong ]} [].

(** A row written at time 0 and read one millisecond after its end. *)
Definition expiredWorld : World :=
  demoWorld 1001 [] [] {[ ("spotify", "s1") := demoRow boundarySong ]} [].

(** ** Further vocabulary *)

(** The set that [genreSimilarity] makes of a genre list. *)
Definition genre_set (gs : list string) : gset string :=
  list_to_set (toLowerCase <$> gs).

(** Neither song has usable metadata of this kind on both sides. *)
Definition no_shared_metadata (f1 f2 : AudioFeatures) : Prop :=
  ~ (has_genres f1 /\ has_genres f2)
  /\ ~ (has_artist f1 /\ has_artist f2)
  /\ ~ (has_releaseYear f1 /\ has_releaseYear f2).

(** The test suite's vector without optional fields. *)
Definition minimalSong : AudioFeatures := {|
  valence := 0.5; energy := 0.5; danceability := 0.5; tempo := 100;
  acousticness := 0.5; key := 0; mode := 1; timeSignature := 4;
  loudness := -10; durationMs := 200000;
  genres := None; artist := None; releaseYear := None |}.

(** A vector far outside the ranges: a valence of 5 and a loudness of
    +40 dB, with the key -1 on both sides. *)
Definition wildSong : AudioFeatures := {|
  valence := 5; energy := 0.7; danceability := 0.75; tempo := 120;
  acousticness := 0.3; key := -1; mode := 1; timeSignature := 4;
  loudness := 40; durationMs := 200000;
  genres := None; artist := None; releaseYear := None |}.

(** The four sentences that a perfect agreement of mood, energy, tempo and
    harmony adds to the strengths. *)
Definition core_strengths : list string :=
  ["Very similar mood and emotional tone";
   "Matching energy levels";
   "Similar tempo and rhythm";
   "Harmonically compatible (similar key/mode)"].

(** The text of a result reads back as that result, and is not empty. *)
Definition json_roundtrip {A} `{JSON A} (a : A) : Prop :=
  JSON_parse (JSON_stringify a) = Some a /\ JSON_stringify a <> "".

(** What [getCachedMatch] makes of the keyspace when Redis answers. *)
Definition stored_match `{JSON MatchResult} (keyspace : list (string * RedisEntry))
    (song1Id song2Id : string) : option MatchResult :=
  match assoc_get (MatchCacheService.getCacheKey song1Id song2Id) keyspace with
  | Some entry => if String.eqb (value entry) "" then None else JSON_parse (value entry)
  | None => None
  end.

(** The entry [cacheMatch] writes. *)
Definition match_entry `{JSON MatchResult} (result : MatchResult) : RedisEntry :=
  {| value := JSON_stringify result; ttl := MatchCacheService.CACHE_TTL |}.

(** The keys of the result cache, as [KEYS match:*] lists them. *)
Definition match_keys (keyspace : list (string * RedisEntry)) : list string :=
  filter (fun k => String.prefix MatchCacheService.CACHE_PREFIX k = true) (keyspace.*1).

(** The id holds no colon. *)
Fixpoint colon_free (s : string) : Prop :=
  match s with
  | EmptyString => True
  | String c s' => c <> ":"%char /\ colon_free s'
  end.

(** The length of the value stored under a key, 0 when there is none. *)
Definition value_length (keyspace : list (string * RedisEntry)) (k : string) : Z :=
  default 0%Z ((fun e => Z.of_nat (String.length (value e))) <$> assoc_get k keyspace).

(** A keyspace with one result and one key of another kind. *)
Definition mixedKeyspace : list (string * RedisEntry) :=
  [("session:42", {| value := "token"; ttl := 3600 |});
   ("match:s1:s2", {| value := "match-result-39"; ttl := 100 |})].

(** The total length of the values stored under some keys. *)
Definition total_value_length (keyspace : list (string * RedisEntry))
    (keys : list string) : Z :=
  foldr Z.add 0%Z (value_length keyspace <$> keys).

(** What the loop over the sampled keys holds after the keys [seen]: the
    greatest remaining TTL so far if it is positive, with a key that has
    it, and otherwise no key and 0. *)
Definition oldest_so_far (keyspace : list (string * RedisEntry)) (seen : list string)
    (acc : option string * Z) : Prop :=
  (forall k, k ∈ seen -> (ttl_of keyspace k <= acc.2)%Z)
  /\ match acc.1 with
     | Some k => k ∈ seen /\ ttl_of keyspace k = acc.2 /\ (0 < acc.2)%Z
     | None => acc.2 = 0%Z
     end.

(** The world after [cacheSong] when the database answers. *)
Definition after_cacheSong `{JSON CachedSong} (song : CachedSong) (w : World) : World :=
  with_log
    (log w ++ [{| level := LDebug;
                  message := "Cached song: " +:+ song_id song
                             +:+ " (" +:+ song_name song +:+ ")";
                  cause := None |}])
    (with_songCache (<[(song_platform song, song_id song) := row_of song]> (songCache w)) w).

(** The song Spotify makes of a track at the time of the world, if it
    makes one. *)
Definition converted_song (w : World) (track : SpotifyTrack) : option CachedSong :=
  match spotify_convertToCachedSong w track (now w) with
  | Ok song => Some song
  | Throw _ => None
  end.

(** The songs Spotify makes of the tracks it can convert, in order. *)
Definition converted (w : World) (items : list SpotifyTrack) : list CachedSong :=
  omap (converted_song w) items.

(** No track found has a row in the song cache, no two tracks found have
    the same id, and a converted song carries the id of its track and the
    platform "spotify", as [convertToCachedSong] writes them. *)
Definition cold_search (w : World) (items : list SpotifyTrack) : Prop :=
  (forall track, track ∈ items ->
     songCache w !! ("spotify", track_id track) = None)
  /\ NoDup (track_id <$> items)
  /\ (forall track song, track ∈ items -> converted_song w track = Some song ->
        song_id song = track_id track /\ song_platform song = "spotify").

(** A search that finds the track s1 and a track that Spotify cannot
    convert, and fails for any query but "test". *)
Definition demoSearchResponse : SpotifySearchResponse := {|
  tracks_items := [{| track_id := "s1"; track_name := "Test Song" |};
                   {| track_id := "s2"; track_name := "Other Song" |}];
  tracks_total := 2; tracks_limit := 20; tracks_offset := 0;
  tracks_next := None; tracks_previous := None |}.

Definition demoSearchTracks (filters : SongSearchFilters) : Res SpotifySearchResponse :=
  if String.eqb (filter_query filters) "test" then Ok demoSearchResponse
  else Throw (AppError 400 "BAD_REQUEST").

Definition demoFilters (query : string) : SongSearchFilters :=
  {| filter_query := query; filter_limit := None; filter_offset := None;
     filter_market := None |}.

(** The error is an [AppError] raised on purpose. *)
Definition operational (err : ThrownError) : bool :=
  match err with
  | AppErr _ _ _ isOperational _ => isOperational
  | OtherErr _ _ _ => false
  end.

(** The token fields after a 401. *)
Definition no_token : SpotifyAuth := {| accessToken := None; tokenExpiresAt := 0 |}.

(** * Properties *)

Section NumericHelpers.
Import Js.

Lemma ltb_true x y : ltb x y = true <-> x < y.
Proof. unfold ltb. destruct (Qlt_le_dec x y); split; intros; try easy. lra. Qed.

Lemma ltb_false x y : ltb x y = false <-> y <= x.
Proof. unfold ltb. destruct (Qlt_le_dec x y); split; intros; try easy. lra. Qed.

Lemma Math_round_comp x y : x == y -> Math_round x = Math_round y.
Proof. intros E. unfold Math_round. apply Qfloor_comp. now rewrite E. Qed.

Lemma Math_round_bounds (lo hi : Z) x :
  inject_Z lo <= x -> x <= inject_Z hi -> (lo <= Math_round x <= hi)%Z.
Proof.
  intros Hlo Hhi. unfold Math_round. split.
  - rewrite <- (Qfloor_Z lo). apply Qfloor_resp_le. lra.
  - assert (Qfloor (x + (1 # 2)) < hi + 1)%Z; [|lia].
    rewrite Zlt_Qlt. eapply Qle_lt_trans; [apply Qfloor_le|].
    rewrite inject_Z_plus. change (inject_Z 1) with 1. lra.
Qed.

Lemma Qabs_diag x : Qabs (x - x) == 0.
Proof. assert (x - x == 0) as -> by lra. reflexivity. Qed.


Lemma Qabs_bounds x lo hi : lo <= x <= hi -> forall y, lo <= y <= hi ->
  0 <= Qabs (x - y) <= hi - lo.
Proof.
  intros Hx y Hy. split; [apply Qabs_nonneg|].
  apply Qabs_Qle_condition. lra.
Qed.

Lemma Qmax0_bounds x : x <= 1 -> 0 <= Qmax 0 x <= 1.
Proof.
  intros Hx. split; [apply Q.le_max_l|]. apply Q.max_lub; lra.
Qed.

End NumericHelpers.

(** Division by a literal becomes multiplication by its inverse, so that
    [lra] sees a linear goal. *)
Ltac qconst :=
  unfold Qdiv in *;
  repeat match goal with
         | |- context [Qinv (Qmake ?n ?d)] =>
             let v := eval cbv in (Qinv (Qmake n d)) in
             change (Qinv (Qmake n d)) with v
         | H : context [Qinv (Qmake ?n ?d)] |- _ =>
             let v := eval cbv in (Qinv (Qmake n d)) in
             change (Qinv (Qmake n d)) with v in H
         end.

(** Enumerate an integer known to lie in 0..11. *)
Ltac each_key k :=
  let H := fresh in
  assert (H : (k = 0 \/ k = 1 \/ k = 2 \/ k = 3 \/ k = 4 \/ k = 5 \/ k = 6
              \/ k = 7 \/ k = 8 \/ k = 9 \/ k = 10 \/ k = 11)%Z) by lia;
  repeat (destruct H as [H | H]); subst k.

(** ** Tempo *)

Section Tempo.
Import Js MatchingService.

Lemma Qmin_pos a b : 0 < a -> 0 < b -> 0 < Qmin a b.
Proof.
  intros Ha Hb. destruct (Q.min_spec a b) as [[_ H] | [_ H]]; rewrite H; assumption.
Qed.

Lemma tempo_octave a b : 0 < a -> 0 < b -> octave_related a b ->
  tempoSimilarity a b = 0.7.
Proof.
  intros Ha Hb Hr. unfold tempoSimilarity.
  destruct (Qeq_dec (Qmin a b) 0) as [E | _].
  - pose proof (Qmin_pos a b Ha Hb). lra.
  - unfold octave_related in Hr. cbv zeta in Hr.
    set (r := Qmax a b / Qmin a b) in *.
    assert (ltb (Qabs (r - 2.0)) 0.1 || ltb (Qabs (r - 0.5)) 0.1 = true) as ->;
      [| reflexivity].
    apply orb_true_iff.
    destruct Hr as [Hr | Hr]; [left | right]; apply ltb_true; [| exact Hr].
    apply Qabs_Qlt_condition. apply Qabs_Qlt_condition in Hr. lra.
Qed.

Lemma tempo_linear a b : ~ octave_related a b ->
  tempoSimilarity a b = Qmax 0 (1 - Qabs (a - b) / 50).
Proof.
  intros Hr. unfold tempoSimilarity.
  destruct (Qeq_dec (Qmin a b) 0) as [_ | _]; [reflexivity |].
  unfold octave_related in Hr. cbv zeta in Hr.
  set (r := Qmax a b / Qmin a b) in *.
  assert (ltb (Qabs (r - 2.0)) 0.1 || ltb (Qabs (r - 0.5)) 0.1 = false) as ->;
    [| reflexivity].
  apply orb_false_iff. split; apply ltb_false.
  - destruct (Qlt_le_dec (Qabs (r - 2.0)) 0.1) as [L | L]; [| exact L].
    exfalso. apply Hr. left.
    apply Qabs_Qlt_condition. apply Qabs_Qlt_condition in L. lra.
  - destruct (Qlt_le_dec (Qabs (r - 0.5)) 0.1) as [L | L]; [| exact L].
    exfalso. apply Hr. now right.
Qed.

(** In exact arithmetic, for positive tempos, the similarity is exactly
    0.7 on an octave relationship and max(0, 1 - |a-b|/50) otherwise. *)
Lemma tempoSimilarity_policy_exact (a b : Q) (Ha : 0 < a) (Hb : 0 < b) :
  (octave_related a b -> tempoSimilarity a b = 0.7)
  /\ (~ octave_related a b ->
      tempoSimilarity a b = Qmax 0 (1 - Qabs (a - b) / 50)).
Proof.
  split; [now apply tempo_octave | apply tempo_linear].
Qed.



End Tempo.

(** ** Tempo in double precision *)

Section TempoDoubles.
Import Js PrimFloat.
#[local] Set Warnings "-inexact-float".
Local Open Scope float_scope.




End TempoDoubles.

(** ** Key and mode *)

Section KeyMode.
Import Js MatchingService.

Lemma matrix_entry key1 key2 : valid_key key1 -> valid_key key2 ->
  exists row d,
    index CIRCLE_DISTANCE_MATRIX key1 = Some row
    /\ index row key2 = Some d
    /\ circle_steps key1 key2 = Some d
    /\ (0 <= d <= 6)%Z.
Proof.
  unfold valid_key. intros H1 H2.
  each_key key1; each_key key2;
    (eexists; eexists; split; [vm_compute; reflexivity |];
     split; [vm_compute; reflexivity |];
     split; [vm_compute; reflexivity | lia]).
Qed.

Lemma keySimilarity_rule key1 mode1 key2 mode2 :
  valid_key key1 -> valid_key key2 ->
  exists d, circle_steps key1 key2 = Some d /\ (0 <= d <= 6)%Z
    /\ keySimilarity key1 mode1 key2 mode2 = Some (key_rule key1 mode1 key2 mode2 d).
Proof.
  intros H1 H2.
  destruct (matrix_entry key1 key2 H1 H2) as (row & d & Hrow & Hd & Hsteps & Hrange).
  exists d. split; [exact Hsteps | split; [exact Hrange |]].
  unfold keySimilarity, key_rule.
  destruct (Z.eqb_spec key1 key2) as [Ek | Ek];
    destruct (Z.eqb_spec mode1 mode2) as [Em | Em]; cbn [andb];
    repeat case_decide; try contradiction; try reflexivity.
  - rewrite Hrow. cbn. rewrite Hd. reflexivity.
  - rewrite Hrow. cbn. rewrite Hd. reflexivity.
Qed.

(** C5: for keys in 0..11 and modes in {0,1}, keySimilarity is 1.0 on
    equal key and mode, exactly 0.7 on equal key and different mode, and
    otherwise 1 - d/6 (times 0.8 when the modes differ) with d the
    shorter number of steps between the keys on the circle
    C,G,D,A,E,B,F#,C#,G#,D#,A#,F; and C major is closer to G major than to
    F# major. *)
Theorem C5_keySimilarity_circle_of_fifths (key1 mode1 key2 mode2 : Z)
    (Hk1 : valid_key key1) (Hk2 : valid_key key2)
    (Hm1 : valid_mode mode1) (Hm2 : valid_mode mode2) :
  (key1 = key2 -> mode1 = mode2 ->
     keySimilarity key1 mode1 key2 mode2 = Some 1.0)
  /\ (key1 = key2 -> mode1 <> mode2 ->
     keySimilarity key1 mode1 key2 mode2 = Some 0.7)
  /\ (key1 <> key2 ->
      exists d, circle_steps key1 key2 = Some d
        /\ keySimilarity key1 mode1 key2 mode2
           = Some (if decide (mode1 = mode2)
                   then 1 - inject_Z d / 6
                   else (1 - inject_Z d / 6) * 0.8))
  /\ (exists sG sFs,
        keySimilarity 0 1 7 1 = Some sG
        /\ keySimilarity 0 1 6 1 = Some sFs
        /\ sFs < sG).
Proof.
  destruct (keySimilarity_rule key1 mode1 key2 mode2 Hk1 Hk2)
    as (d & Hsteps & _ & Hsim).
  unfold key_rule in Hsim.
  split; [| split; [| split]].
  - intros Ek Em. rewrite Hsim. now rewrite !decide_True.
  - intros Ek Em. rewrite Hsim. now rewrite decide_True, decide_False.
  - intros Ek. exists d. split; [exact Hsteps |].
    rewrite Hsim. now rewrite decide_False.
  - eexists. eexists. split; [vm_compute; reflexivity |].
    split; [vm_compute; reflexivity |]. reflexivity.
Qed.

Lemma C5_keySimilarity_circle_of_fifths_witness :
  valid_key 0 /\ valid_key 7 /\ valid_mode 1
  /\ (exists d, circle_steps 0 7 = Some d
        /\ keySimilarity 0 1 7 1
           = Some (if decide (1%Z = 1%Z)
                   then 1 - inject_Z d / 6
                   else (1 - inject_Z d / 6) * 0.8)).
Proof.
  assert (K0 : valid_key 0) by (unfold valid_key; lia).
  assert (K7 : valid_key 7) by (unfold valid_key; lia).
  assert (M1 : valid_mode 1) by (right; reflexivity).
  split; [exact K0 | split; [exact K7 | split; [exact M1 |]]].
  apply (C5_keySimilarity_circle_of_fifths 0 1 7 1 K0 K7 M1 M1). lia.
Defined.

End KeyMode.

(** ** Confidence *)

Section Confidence.
Import Js MatchingService.

Lemma nonempty_true f : nonempty (genres f) = true <-> has_genres f.
Proof.
  unfold nonempty, has_genres. destruct (genres f) as [[| x g] |]; cbn.
  - split; [discriminate | intros (g & [= <-] & Hg); contradiction].
  - split; [intros _; eexists; split; [reflexivity | discriminate] | reflexivity].
  - split; [discriminate | intros (g & [=] & _)].
Qed.

Lemma truthy_string_true f : truthy_string (artist f) = true <-> has_artist f.
Proof.
  unfold truthy_string, has_artist. destruct (artist f) as [a |].
  - destruct (String.eqb_spec a "") as [-> | Ha]; cbn.
    + split; [discriminate | intros (a & [= <-] & Ha); contradiction].
    + split; [intros _; exists a; split; [reflexivity | exact Ha] | reflexivity].
  - split; [discriminate | intros (a & [=] & _)].
Qed.

Lemma truthy_number_true f : truthy_number (releaseYear f) = true <-> has_releaseYear f.
Proof.
  unfold truthy_number, has_releaseYear. destruct (releaseYear f) as [y |].
  - destruct (Z.eqb_spec y 0) as [-> | Hy]; cbn.
    + split; [discriminate | intros (y & [= <-] & Hy); contradiction].
    + split; [intros _; exists y; split; [reflexivity | exact Hy] | reflexivity].
  - split; [discriminate | intros (y & [=] & _)].
Qed.

Lemma signal_of_bool (b : bool) (P : Prop) :
  (b = true <-> P) -> signal P (if b then 1 else 0).
Proof.
  intros HP. destruct b; constructor.
  - now apply HP.
  - intros p. apply HP in p. discriminate.
Qed.

Lemma both_true (b1 b2 : bool) (P1 P2 : Prop) :
  (b1 = true <-> P1) -> (b2 = true <-> P2) -> (b1 && b2 = true <-> P1 /\ P2).
Proof. intros H1 H2. rewrite andb_true_iff. now rewrite H1, H2. Qed.

(** C7: the confidence is (9 + g + a + y) / 12, g, a and y being 1 exactly
    when both songs have a non-empty genre list, an artist, a release
    year; it lies in [9/12, 1] and falls below 1 only when optional
    metadata is missing. *)
Theorem C7_calculateConfidence_formula (f1 f2 : AudioFeatures) :
  exists g a y : Q,
    signal (has_genres f1 /\ has_genres f2) g
    /\ signal (has_artist f1 /\ has_artist f2) a
    /\ signal (has_releaseYear f1 /\ has_releaseYear f2) y
    /\ calculateConfidence f1 f2 == (9 + g + a + y) / 12
    /\ 9 / 12 <= calculateConfidence f1 f2 <= 1
    /\ (calculateConfidence f1 f2 < 1 ->
        ~ (has_genres f1 /\ has_genres f2
           /\ has_artist f1 /\ has_artist f2
           /\ has_releaseYear f1 /\ has_releaseYear f2)).
Proof.
  pose proof (both_true _ _ _ _ (nonempty_true f1) (nonempty_true f2)) as Hg.
  pose proof (both_true _ _ _ _ (truthy_string_true f1) (truthy_string_true f2)) as Ha.
  pose proof (both_true _ _ _ _ (truthy_number_true f1) (truthy_number_true f2)) as Hy.
  exists (if nonempty (genres f1) && nonempty (genres f2) then 1 else 0),
         (if truthy_string (artist f1) && truthy_string (artist f2) then 1 else 0),
         (if truthy_number (releaseYear f1) && truthy_number (releaseYear f2) then 1 else 0).
  split; [now apply signal_of_bool |].
  split; [now apply signal_of_bool |].
  split; [now apply signal_of_bool |].
  unfold calculateConfidence.
  destruct (nonempty (genres f1) && nonempty (genres f2));
    destruct (truthy_string (artist f1) && truthy_string (artist f2));
    destruct (truthy_number (releaseYear f1) && truthy_number (releaseYear f2));
    (split; [reflexivity |]); (split; [split; vm_compute; discriminate |]);
    intros Hlt; try (exfalso; revert Hlt; vm_compute; discriminate);
    intros (G1 & G2 & A1 & A2 & Y1 & Y2);
    try (assert (false = true) by (apply Hg; tauto); discriminate);
    try (assert (false = true) by (apply Ha; tauto); discriminate);
    try (assert (false = true) by (apply Hy; tauto); discriminate).
Qed.

End Confidence.

(** ** Result-cache key *)

Section CacheKey.
Import Effects MatchCacheService.

Lemma sort2_sym a b : sort2 a b = sort2 b a.
Proof.
  unfold sort2, String.ltb.
  rewrite (String.compare_antisym a b).
  destruct (String.compare b a) eqn:E; cbn; try reflexivity.
  apply String.compare_eq_iff in E. now subst.
Qed.

Lemma getCacheKey_sym a b : getCacheKey a b = getCacheKey b a.
Proof. unfold getCacheKey. now rewrite sort2_sym. Qed.

(** C3: the result-cache key does not depend on the order of the two ids,
    so the lookup and the write of [getMatch] address the same entry
    whichever way round the ids are given. *)
Theorem C3_getCacheKey_order_independent `{JSON MatchResult} (A B : string) :
  getCacheKey A B = getCacheKey B A
  /\ (forall w, getCachedMatch A B w = getCachedMatch B A w)
  /\ (forall result w, cacheMatch A B result w = cacheMatch B A result w).
Proof.
  split; [apply getCacheKey_sym |]. split.
  - intros w. unfold getCachedMatch. now rewrite (getCacheKey_sym A B).
  - intros result w. unfold cacheMatch. now rewrite (getCacheKey_sym A B).
Qed.

End CacheKey.

(** ** The similarity primitives: self-similarity, range, symmetry *)

Section Primitives.
Import Js MatchingService.

Lemma ltb_comp x x' y y' : x == x' -> y == y' -> ltb x y = ltb x' y'.
Proof.
  intros Ex Ey. destruct (ltb x' y') eqn:E.
  - apply ltb_true. apply ltb_true in E. lra.
  - apply ltb_false. apply ltb_false in E. lra.
Qed.

(** *** Continuous features *)

Lemma continuousSimilarity_refl v : continuousSimilarity v v == 1.
Proof. unfold continuousSimilarity. rewrite Qabs_diag. lra. Qed.


Lemma continuousSimilarity_bounds v1 v2 :
  0 <= v1 <= 1 -> 0 <= v2 <= 1 -> 0 <= continuousSimilarity v1 v2 <= 1.
Proof.
  intros H1 H2. unfold continuousSimilarity.
  pose proof (Qabs_bounds v1 0 1 H1 v2 H2). lra.
Qed.

(** *** Tempo *)

Lemma tempo_linear_bounds a b : 0 <= Qmax 0 (1 - Qabs (a - b) / 50) <= 1.
Proof.
  apply Qmax0_bounds. pose proof (Qabs_nonneg (a - b)). qconst. lra.
Qed.

Lemma tempoSimilarity_bounds a b : 0 <= tempoSimilarity a b <= 1.
Proof.
  unfold tempoSimilarity.
  destruct (Qeq_dec (Qmin a b) 0); [apply tempo_linear_bounds |].
  destruct (_ || _); [split; discriminate | apply tempo_linear_bounds].
Qed.

Lemma tempoSimilarity_refl a : tempoSimilarity a a == 1.
Proof.
  assert (L : Qmax 0 (1 - Qabs (a - a) / 50) == 1).
  { rewrite Qabs_diag. reflexivity. }
  unfold tempoSimilarity.
  destruct (Qeq_dec (Qmin a a) 0) as [E | E]; [exact L |].
  assert (R : Qmax a a / Qmin a a == 1).
  { rewrite Q.max_id, Q.min_id. rewrite Q.min_id in E. now field. }
  rewrite (ltb_comp (Qabs (Qmax a a / Qmin a a - 2.0)) (Qabs (1 - 2.0)) 0.1 0.1),
          (ltb_comp (Qabs (Qmax a a / Qmin a a - 0.5)) (Qabs (1 - 0.5)) 0.1 0.1);
    try reflexivity; try (now rewrite R).
  exact L.
Qed.


(** *** Key and mode *)

Lemma index_None {A} (xs : list A) (i : Z) :
  ~ (0 <= i < Z.of_nat (length xs))%Z -> index xs i = None.
Proof.
  intros Hi. unfold index. destruct (Z.ltb_spec i 0); [reflexivity |].
  apply lookup_ge_None. lia.
Qed.

Lemma matrix_rows key row :
  index CIRCLE_DISTANCE_MATRIX key = Some row -> length row = 12%nat.
Proof.
  unfold index. destruct (Z.ltb_spec key 0); [discriminate |].
  intros Hrow. apply list_elem_of_lookup_2 in Hrow.
  revert row Hrow. apply Forall_forall. vm_compute.
  repeat constructor.
Qed.

Lemma matrix_lookup_invalid key1 key2 :
  ~ (valid_key key1 /\ valid_key key2) ->
  (row ← index CIRCLE_DISTANCE_MATRIX key1; index row key2) = None.
Proof.
  intros Hk. destruct (index CIRCLE_DISTANCE_MATRIX key1) as [row |] eqn:Hrow;
    [| reflexivity].
  cbn. apply index_None. rewrite (matrix_rows _ _ Hrow).
  intros H2. apply Hk. split; [| unfold valid_key; lia].
  unfold valid_key.
  destruct (Z_lt_le_dec key1 12) as [L | L];
    [destruct (Z_lt_le_dec key1 0) as [L0 | L0]; [| lia] |].
  - unfold index in Hrow. apply Z.ltb_lt in L0. now rewrite L0 in Hrow.
  - rewrite index_None in Hrow; [discriminate |].
    change (length CIRCLE_DISTANCE_MATRIX) with 12%nat. lia.
Qed.


Lemma keySimilarity_unfold key1 mode1 key2 mode2 :
  keySimilarity key1 mode1 key2 mode2
  = if ((key1 =? key2) && (mode1 =? mode2))%Z then Some 1.0
    else if (key1 =? key2)%Z then Some 0.7
    else
      (fun distance =>
         if (mode1 =? mode2)%Z then 1 - inject_Z distance / 6
         else (1 - inject_Z distance / 6) * 0.8)
      <$> (row ← index CIRCLE_DISTANCE_MATRIX key1; index row key2).
Proof.
  unfold keySimilarity.
  destruct (_ && _); [reflexivity |]. destruct (key1 =? key2)%Z; [reflexivity |].
  destruct (index CIRCLE_DISTANCE_MATRIX key1) as [row |]; [| reflexivity].
  cbn. destruct (index row key2); reflexivity.
Qed.


Lemma keySimilarity_refl k m : keySimilarity k m k m = Some 1.0.
Proof. unfold keySimilarity. now rewrite !Z.eqb_refl. Qed.

Lemma keySimilarity_bounds key1 mode1 key2 mode2 :
  valid_key key1 -> valid_key key2 ->
  exists s, keySimilarity key1 mode1 key2 mode2 = Some s /\ 0 <= s <= 1.
Proof.
  intros H1 H2.
  destruct (keySimilarity_rule key1 mode1 key2 mode2 H1 H2) as (d & _ & Hd & ->).
  eexists. split; [reflexivity |].
  assert (0 <= inject_Z d <= 6) as Hq.
  { split; [change 0 with (inject_Z 0) | change 6 with (inject_Z 6)];
      rewrite <- Zle_Qle; lia. }
  unfold key_rule. repeat case_decide; try (split; discriminate); qconst; lra.
Qed.

(** *** Time signature, loudness, duration *)

Lemma timeSignatureSimilarity_refl ts : timeSignatureSimilarity ts ts = 1.0.
Proof. unfold timeSignatureSimilarity. now rewrite Z.eqb_refl. Qed.


Lemma timeSignatureSimilarity_bounds ts1 ts2 :
  0 <= timeSignatureSimilarity ts1 ts2 <= 1.
Proof.
  unfold timeSignatureSimilarity.
  destruct (ts1 =? ts2)%Z; [split; discriminate |].
  destruct (_ || _); split; discriminate.
Qed.

Lemma loudnessSimilarity_refl db : loudnessSimilarity db db == 1.
Proof. unfold loudnessSimilarity. rewrite Qabs_diag. lra. Qed.


Lemma loudnessSimilarity_bounds db1 db2 :
  -60 <= db1 <= 0 -> -60 <= db2 <= 0 -> 0 <= loudnessSimilarity db1 db2 <= 1.
Proof.
  intros H1 H2. unfold loudnessSimilarity.
  assert (B1 : 0 <= (db1 + 60) / 60 <= 1) by (qconst; lra).
  assert (B2 : 0 <= (db2 + 60) / 60 <= 1) by (qconst; lra).
  pose proof (Qabs_bounds _ 0 1 B1 _ B2). lra.
Qed.

Lemma durationSimilarity_refl ms : durationSimilarity ms ms = 1.0.
Proof. unfold durationSimilarity. now rewrite Z.sub_diag. Qed.


Lemma durationSimilarity_bounds ms1 ms2 : 0 <= durationSimilarity ms1 ms2 <= 1.
Proof.
  unfold durationSimilarity.
  repeat (destruct (ltb _ _); [split; discriminate |]).
  apply Qmax0_bounds.
  assert (0 <= inject_Z (Z.abs (ms1 - ms2))).
  { change 0 with (inject_Z 0). rewrite <- Zle_Qle. lia. }
  qconst. lra.
Qed.

End Primitives.

Section Metadata.
Import Js MatchingService.

(** *** Genre (Jaccard) *)

Lemma ratio_diag n : n <> 0%nat -> ratio n n == 1.
Proof.
  intros Hn. unfold ratio. field.
  change 0 with (inject_Z 0). rewrite inject_Z_injective. lia.
Qed.

Lemma ratio_bounds n m : (n <= m)%nat -> (0 < m)%nat -> 0 <= ratio n m <= 1.
Proof.
  intros Hnm Hm. unfold ratio.
  assert (0 < inject_Z (Z.of_nat m)).
  { change 0 with (inject_Z 0). rewrite <- Zlt_Qlt. lia. }
  split.
  - apply Qle_shift_div_l; [assumption |].
    rewrite Qmult_0_l. change 0 with (inject_Z 0). rewrite <- Zle_Qle. lia.
  - apply Qle_shift_div_r; [assumption |].
    rewrite Qmult_1_l. rewrite <- Zle_Qle. lia.
Qed.

Lemma filter_intersection (set1 set2 : gset string) :
  filter (fun x => x ∈ set2) set1 = set1 ∩ set2.
Proof. apply set_eq. intros x. rewrite elem_of_filter, elem_of_intersection. tauto. Qed.

Lemma genreSimilarity_unfold genres1 genres2 :
  genreSimilarity genres1 genres2
  = if ((length genres1 =? 0) || (length genres2 =? 0))%nat then 0.5
    else
      let set1 : gset string := list_to_set (toLowerCase <$> genres1) in
      let set2 : gset string := list_to_set (toLowerCase <$> genres2) in
      ratio (size (set1 ∩ set2)) (size (set1 ∪ set2)).
Proof.
  unfold genreSimilarity. cbv zeta. now rewrite filter_intersection.
Qed.

Lemma genre_set_size (gs : list string) :
  (length gs =? 0)%nat = false ->
  (0 < size (list_to_set (toLowerCase <$> gs) : gset string))%nat.
Proof.
  destruct gs as [| g gs]; [discriminate |]. intros _.
  assert (size (list_to_set (toLowerCase <$> g :: gs) : gset string) <> 0%nat); [| lia].
  apply size_non_empty_iff. cbn.
  intros E. apply (not_elem_of_empty (C := gset string) (toLowerCase g)).
  rewrite <- E. apply elem_of_union_l, elem_of_singleton. reflexivity.
Qed.

Lemma genreSimilarity_refl gs : gs <> [] -> genreSimilarity gs gs == 1.
Proof.
  intros Hgs. rewrite genreSimilarity_unfold.
  assert (E : (length gs =? 0)%nat = false) by (destruct gs; [contradiction | reflexivity]).
  rewrite E. cbn [orb]. cbv zeta.
  rewrite (idemp_L (∩)), (idemp_L (∪)).
  apply ratio_diag. pose proof (genre_set_size gs E). lia.
Qed.


Lemma genreSimilarity_bounds genres1 genres2 :
  0 <= genreSimilarity genres1 genres2 <= 1.
Proof.
  rewrite genreSimilarity_unfold.
  destruct (length genres1 =? 0)%nat eqn:E1; [split; discriminate |].
  destruct (length genres2 =? 0)%nat eqn:E2; [split; discriminate |].
  cbn [orb]. cbv zeta. apply ratio_bounds.
  - apply subseteq_size.
    etrans; [apply intersection_subseteq_l | apply union_subseteq_l].
  - pose proof (genre_set_size genres1 E1).
    assert (size (list_to_set (toLowerCase <$> genres1) : gset string)
            <= size (list_to_set (toLowerCase <$> genres1)
                     ∪ (list_to_set (toLowerCase <$> genres2) : gset string)))%nat
      by (apply subseteq_size, union_subseteq_l).
    lia.
Qed.

(** *** Artist *)

Lemma artistSimilarity_refl a : truthy_string a = true -> artistSimilarity a a = 1.0.
Proof.
  intros Ha. unfold artistSimilarity, strict_eq. rewrite Ha. cbn.
  now rewrite bool_decide_eq_true_2.
Qed.


Lemma artistSimilarity_bounds a1 a2 : 0 <= artistSimilarity a1 a2 <= 1.
Proof.
  unfold artistSimilarity. destruct (_ || _); [split; discriminate |].
  destruct (strict_eq a1 a2); split; discriminate.
Qed.

(** *** Era *)

Lemma eraSimilarity_refl y : truthy_number y = true -> eraSimilarity y y = 1.0.
Proof.
  intros Hy. unfold eraSimilarity. rewrite Hy. cbn. now rewrite Z.eqb_refl.
Qed.


Lemma eraSimilarity_bounds y1 y2 : 0 <= eraSimilarity y1 y2 <= 1.
Proof.
  unfold eraSimilarity. destruct (_ || _); [split; discriminate |].
  destruct (_ =? _)%Z; [split; discriminate |].
  apply Qmax0_bounds.
  assert (0 <= inject_Z (Z.abs (or_zero y1 / 10 * 10 - or_zero y2 / 10 * 10))).
  { change 0 with (inject_Z 0). rewrite <- Zle_Qle. lia. }
  qconst. lra.
Qed.

End Metadata.

(** ** Layers and overall score *)

Section Scoring.
Import Js MatchingService.

Lemma layer1_score f1 f2 :
  score (calculateLayer1 f1 f2)
  == (continuousSimilarity (valence f1) (valence f2) * 0.15
      + continuousSimilarity (energy f1) (energy f2) * 0.15
      + continuousSimilarity (danceability f1) (danceability f2) * 0.12
      + tempoSimilarity (tempo f1) (tempo f2) * 0.1
      + continuousSimilarity (acousticness f1) (acousticness f2) * 0.08) / 0.6.
Proof.
  unfold calculateLayer1, weightedSum, values1. cbn -[Qplus Qmult Qdiv].
  qconst. lra.
Qed.

Lemma layer2_score f1 f2 keySim :
  keySimilarity (key f1) (mode f1) (key f2) (mode f2) = Some keySim ->
  exists l2, calculateLayer2 f1 f2 = Some l2
    /\ similarity (l2_keyMode (components l2)) = keySim
    /\ score l2
       == (keySim * 0.1
           + timeSignatureSimilarity (timeSignature f1) (timeSignature f2) * 0.05
           + loudnessSimilarity (loudness f1) (loudness f2) * 0.05
           + durationSimilarity (durationMs f1) (durationMs f2) * 0.05) / 0.25.
Proof.
  intros Hk. unfold calculateLayer2. rewrite Hk. cbn -[Qplus Qmult Qdiv].
  eexists. split; [reflexivity |]. split; [reflexivity |].
  unfold weightedSum, values2. cbn -[Qplus Qmult Qdiv]. qconst. lra.
Qed.

Lemma layer2_None f1 f2 :
  keySimilarity (key f1) (mode f1) (key f2) (mode f2) = None ->
  calculateLayer2 f1 f2 = None.
Proof. intros Hk. unfold calculateLayer2. now rewrite Hk. Qed.

Lemma layer3_score f1 f2 :
  score (calculateLayer3 f1 f2)
  == (genreSimilarity (or_empty (genres f1)) (or_empty (genres f2)) * 0.08
      + artistSimilarity (artist f1) (artist f2) * 0.04
      + eraSimilarity (releaseYear f1) (releaseYear f2) * 0.03) / 0.15.
Proof.
  unfold calculateLayer3, weightedSum, values3. cbn -[Qplus Qmult Qdiv].
  qconst. lra.
Qed.

(** What [calculateMatch] returns once layer 2 has a value. *)
Lemma calculateMatch_Some startTime endTime f1 f2 l2 :
  calculateLayer2 f1 f2 = Some l2 ->
  exists r, calculateMatch startTime endTime f1 f2 = Some r
    /\ overallScore r
       = Math_round ((score (calculateLayer1 f1 f2) * 0.6 + score l2 * 0.25
                      + score (calculateLayer3 f1 f2) * 0.15) * 100)
    /\ confidence r = calculateConfidence f1 f2
    /\ breakdown r = {| layer1 := calculateLayer1 f1 f2; layer2 := l2;
                        layer3 := calculateLayer3 f1 f2 |}
    /\ details (explanation r)
       = {| mood := getMoodDescription (valence f1) (energy f1);
            rhythm := getRhythmDescription (tempo f1) (danceability f1);
            harmony := getHarmonyDescription (key f1) (mode f1);
            style := getStyleDescription (genres f1) (artist f1) |}.
Proof.
  intros Hl2. unfold calculateMatch. rewrite Hl2.
  eexists. split; [reflexivity |]. repeat split.
Qed.

Lemma calculateMatch_None startTime endTime f1 f2 :
  calculateLayer2 f1 f2 = None -> calculateMatch startTime endTime f1 f2 = None.
Proof. intros Hl2. unfold calculateMatch. now rewrite Hl2. Qed.

Lemma confidence_bounds f1 f2 : 9 / 12 <= calculateConfidence f1 f2 <= 1.
Proof.
  unfold calculateConfidence.
  destruct (_ && _); destruct (_ && _); destruct (_ && _);
    split; vm_compute; discriminate.
Qed.

Lemma confidence_complete f1 f2 :
  all_optional_present f1 -> all_optional_present f2 ->
  calculateConfidence f1 f2 == 1.
Proof.
  intros (G1 & A1 & Y1) (G2 & A2 & Y2). unfold calculateConfidence.
  apply nonempty_true in G1, G2. apply truthy_string_true in A1, A2.
  apply truthy_number_true in Y1, Y2.
  rewrite G1, G2, A1, A2, Y1, Y2. reflexivity.
Qed.

End Scoring.

Section ScoreTheorems.
Import Js MatchingService.

Lemma identicalSong_valid : valid_features identicalSong.
Proof.
  constructor; cbn; try (split; discriminate); try reflexivity.
  now right.
Qed.

Lemma oppositeSong_valid : valid_features oppositeSong.
Proof.
  constructor; cbn; try (split; discriminate); try reflexivity.
  now left.
Qed.

Lemma songWithoutGenres_valid : valid_features songWithoutGenres.
Proof.
  constructor; cbn; try (split; discriminate); try reflexivity.
  now right.
Qed.

Lemma identicalSong_complete : all_optional_present identicalSong.
Proof.
  split; [| split]; eexists; (split; [reflexivity | discriminate]).
Qed.

(** *** Identity *)

(** C1 as stated fails: a valid vector whose genre list is unknown scores
    96 against itself, the genre component taking the neutral 0.5. *)
Lemma C1_identity_counterexample :
  valid_features songWithoutGenres
  /\ overallScore <$> calculateMatch 0 0 songWithoutGenres songWithoutGenres
     = Some 96%Z.
Proof. split; [apply songWithoutGenres_valid | vm_compute; reflexivity]. Qed.

(** C1, amended: a valid vector whose three optional fields are present
    scores 100 against itself, with confidence exactly 1, which exceeds
    0.9. *)
Theorem C1_identity_with_metadata (startTime endTime : Q) (v : AudioFeatures)
    (Hvalid : valid_features v)
    (Hopt : all_optional_present v) :
  exists r, calculateMatch startTime endTime v v = Some r
    /\ overallScore r = 100%Z
    /\ confidence r == 1
    /\ 0.9 < confidence r.
Proof.
  destruct (layer2_score v v _ (keySimilarity_refl (key v) (mode v)))
    as (l2 & Hl2 & _ & Hs2).
  destruct (calculateMatch_Some startTime endTime v v l2 Hl2)
    as (r & Hr & Hscore & Hconf & _).
  assert (Hone : confidence r == 1)
    by (rewrite Hconf; apply (confidence_complete v v Hopt Hopt)).
  exists r. split; [exact Hr |]. split; [| split; [exact Hone |]].
  - rewrite Hscore.
    change 100%Z with (Math_round (inject_Z 100)). apply Math_round_comp.
    rewrite layer1_score, layer3_score, Hs2.
    rewrite !continuousSimilarity_refl, tempoSimilarity_refl.
    rewrite timeSignatureSimilarity_refl, loudnessSimilarity_refl,
      durationSimilarity_refl.
    destruct Hopt as ((g & Hg & Hne) & Ha & Hy).
    apply truthy_string_true in Ha. apply truthy_number_true in Hy.
    rewrite (artistSimilarity_refl _ Ha), (eraSimilarity_refl _ Hy).
    rewrite Hg. cbn [or_empty default]. rewrite (genreSimilarity_refl g Hne).
    reflexivity.
  - rewrite Hone. reflexivity.
Qed.

Lemma C1_identity_with_metadata_witness :
  valid_features identicalSong
  /\ all_optional_present identicalSong
  /\ exists r, calculateMatch 0 1 identicalSong identicalSong = Some r
       /\ overallScore r = 100%Z
       /\ confidence r == 1
       /\ 0.9 < confidence r.
Proof.
  split; [apply identicalSong_valid |].
  split; [apply identicalSong_complete |].
  apply (C1_identity_with_metadata 0 1 identicalSong
           identicalSong_valid identicalSong_complete).
Defined.

(** *** Boundedness *)

(** C4: on vectors whose mandatory fields are in range, calculateMatch
    returns an integer overall score in [0, 100] and a confidence in
    [0, 1]. *)
Theorem C4_calculateMatch_bounded (startTime endTime : Q) (f1 f2 : AudioFeatures)
    (H1 : valid_features f1) (H2 : valid_features f2) :
  exists r, calculateMatch startTime endTime f1 f2 = Some r
    /\ (0 <= overallScore r <= 100)%Z
    /\ 0 <= confidence r <= 1.
Proof.
  destruct H1 as [V1 E1 D1 A1 T1 K1 M1 L1 U1], H2 as [V2 E2 D2 A2 T2 K2 M2 L2 U2].
  destruct (keySimilarity_bounds (key f1) (mode f1) (key f2) (mode f2) K1 K2)
    as (s & Hs & Bs).
  destruct (layer2_score f1 f2 s Hs) as (l2 & Hl2 & _ & Hs2).
  destruct (calculateMatch_Some startTime endTime f1 f2 l2 Hl2)
    as (r & Hr & Hscore & Hconf & _).
  exists r. split; [exact Hr |]. split.
  - rewrite Hscore. apply Math_round_bounds.
    all: rewrite layer1_score, layer3_score, Hs2.
    all: pose proof (continuousSimilarity_bounds _ _ V1 V2).
    all: pose proof (continuousSimilarity_bounds _ _ E1 E2).
    all: pose proof (continuousSimilarity_bounds _ _ D1 D2).
    all: pose proof (continuousSimilarity_bounds _ _ A1 A2).
    all: pose proof (tempoSimilarity_bounds (tempo f1) (tempo f2)).
    all: pose proof (timeSignatureSimilarity_bounds (timeSignature f1) (timeSignature f2)).
    all: pose proof (loudnessSimilarity_bounds _ _ L1 L2).
    all: pose proof (durationSimilarity_bounds (durationMs f1) (durationMs f2)).
    all: pose proof (genreSimilarity_bounds (or_empty (genres f1)) (or_empty (genres f2))).
    all: pose proof (artistSimilarity_bounds (artist f1) (artist f2)).
    all: pose proof (eraSimilarity_bounds (releaseYear f1) (releaseYear f2)).
    all: change (inject_Z 0) with 0; change (inject_Z 100) with 100.
    all: qconst; lra.
  - rewrite Hconf. pose proof (confidence_bounds f1 f2). qconst. lra.
Qed.

Lemma C4_calculateMatch_bounded_witness :
  valid_features identicalSong /\ valid_features oppositeSong
  /\ exists r, calculateMatch 0 1 identicalSong oppositeSong = Some r
       /\ (0 <= overallScore r <= 100)%Z
       /\ 0 <= confidence r <= 1.
Proof.
  split; [apply identicalSong_valid | split; [apply oppositeSong_valid |]].
  apply (C4_calculateMatch_bounded 0 1 identicalSong oppositeSong
           identicalSong_valid oppositeSong_valid).
Defined.

(** *** Symmetry *)





(** *** Keys outside 0..11 *)

(** The two embeddings of [keySimilarity] agree on numeric results. *)
Lemma keySimilarity_outcome_value key1 mode1 key2 mode2 s :
  keySimilarity key1 mode1 key2 mode2 = Some s
  <-> keySimilarity_outcome key1 mode1 key2 mode2 = KeyValue s.
Proof.
  unfold keySimilarity, keySimilarity_outcome.
  destruct ((key1 =? key2) && (mode1 =? mode2))%Z;
    [split; intros [= <-]; reflexivity |].
  destruct (key1 =? key2)%Z; [split; intros [= <-]; reflexivity |].
  destruct (index CIRCLE_DISTANCE_MATRIX key1) as [row |]; cbn;
    [| split; discriminate].
  destruct (index row key2) as [distance |]; cbn; [| split; discriminate].
  split; intros [= <-]; reflexivity.
Qed.

(** [calculateMatch] has the result [r] exactly when the call returns it. *)
Lemma calculateMatch_outcome_returns startTime endTime f1 f2 r :
  calculateMatch startTime endTime f1 f2 = Some r
  <-> calculateMatch_outcome startTime endTime f1 f2 = Returns r.
Proof.
  unfold calculateMatch_outcome.
  destruct (keySimilarity (key f1) (mode f1) (key f2) (mode f2)) as [s |] eqn:Hs.
  - apply keySimilarity_outcome_value in Hs. rewrite Hs.
    destruct (calculateMatch startTime endTime f1 f2) as [r' |].
    + split; intros [= <-]; reflexivity.
    + split; discriminate.
  - rewrite (calculateMatch_None startTime endTime f1 f2 (layer2_None _ _ Hs)).
    split; [discriminate |].
    destruct (keySimilarity_outcome (key f1) (mode f1) (key f2) (mode f2));
      discriminate.
Qed.

(** With one key in 0..11 and the other outside, the order decides: the
    call with the outside key first throws, the other returns [NaN]
    scores. *)
Lemma calculateMatch_outcome_one_key_outside startTime endTime f1 f2 :
  ~ valid_key (key f1) -> valid_key (key f2) ->
  calculateMatch_outcome startTime endTime f1 f2 = ThrowsTypeError
  /\ calculateMatch_outcome startTime endTime f2 f1 = ReturnsNaN.
Proof.
  intros H1 H2.
  assert (Hne : key f1 <> key f2) by (intros E; apply H1; now rewrite E).
  unfold calculateMatch_outcome, keySimilarity_outcome.
  assert ((key f1 =? key f2)%Z = false) as -> by now apply Z.eqb_neq.
  assert ((key f2 =? key f1)%Z = false) as -> by (apply Z.eqb_neq; congruence).
  cbn [andb].
  destruct (matrix_entry (key f2) (key f2) H2 H2) as (row & d & Hrow & _).
  rewrite Hrow.
  assert (index row (key f1) = None) as ->.
  { apply index_None. rewrite (matrix_rows _ _ Hrow). unfold valid_key in H1. lia. }
  split; [| reflexivity].
  destruct (index CIRCLE_DISTANCE_MATRIX (key f1)) as [row1 |] eqn:Hrow1; [| reflexivity].
  exfalso. apply H1. unfold index in Hrow1.
  destruct (Z.ltb_spec (key f1) 0) as [L | L]; [discriminate |].
  apply lookup_lt_Some in Hrow1. cbn in Hrow1. unfold valid_key. lia.
Qed.




End ScoreTheorems.

(** ** Reasoning about the effects *)

Section Frames.
Import Effects.

Lemma same_env_refl w : same_env w w.
Proof. repeat split. Qed.

Lemma same_env_trans w1 w2 w3 : same_env w1 w2 -> same_env w2 w3 -> same_env w1 w3.
Proof.
  intros (A1 & B1 & C1 & D1) (A2 & B2 & C2 & D2).
  repeat split; congruence.
Qed.

Lemma ret_stable {A} (a : A) : env_stable (ret a).
Proof. intros w. apply same_env_refl. Qed.

Lemma throw_stable {A} e : env_stable (@throw A e).
Proof. intros w. apply same_env_refl. Qed.

Lemma bind_stable {A B} (m : M A) (k : A -> M B) :
  env_stable m -> (forall a, env_stable (k a)) -> env_stable (bind m k).
Proof.
  intros Hm Hk w. unfold bind. specialize (Hm w).
  destruct (m w) as [[a | e] w1]; cbn in *; [| exact Hm].
  eapply same_env_trans; [exact Hm | apply Hk].
Qed.

Lemma try_catch_stable {A} (body : M A) handler :
  env_stable body -> (forall e, env_stable (handler e)) ->
  env_stable (try_catch body handler).
Proof.
  intros Hm Hk w. unfold try_catch. specialize (Hm w).
  destruct (body w) as [[a | e] w1]; cbn in *; [exact Hm |].
  eapply same_env_trans; [exact Hm | apply Hk].
Qed.

Lemma logger_stable lvl msg err : env_stable (logger lvl msg err).
Proof. intros w. repeat split. Qed.

Lemma Date_now_stable : env_stable Date_now.
Proof. intros w. apply same_env_refl. Qed.

Lemma redis_command_stable {A} (run : _ -> A * _) : env_stable (redis_command run).
Proof.
  intros w. unfold redis_command.
  destruct (redis_faults w) as [| [] fs]; try destruct (run (redis w)); repeat split.
Qed.

Lemma prisma_query_stable {A} (run : _ -> Res A * _) : env_stable (prisma_query run).
Proof.
  intros w. unfold prisma_query.
  destruct (prisma_faults w) as [| [] fs]; try destruct (run (songCache w)); repeat split.
Qed.

Lemma ret_safe {A} (a : A) : never_throws (ret a).
Proof. intros w. now exists a, w. Qed.

Lemma logger_safe lvl msg err : never_throws (logger lvl msg err).
Proof. intros w. eexists. eexists. reflexivity. Qed.

Lemma bind_safe {A B} (m : M A) (k : A -> M B) :
  never_throws m -> (forall a, never_throws (k a)) -> never_throws (bind m k).
Proof.
  intros Hm Hk w. unfold bind. destruct (Hm w) as (a & w1 & ->). apply Hk.
Qed.

Lemma try_catch_safe {A} (body : M A) handler :
  (forall e, never_throws (handler e)) -> never_throws (try_catch body handler).
Proof.
  intros Hk w. unfold try_catch.
  destruct (body w) as [[a | e] w1]; [now exists a, w1 | apply Hk].
Qed.

(** Running a bind whose first part is known. *)
Lemma bind_run {A B} (m : M A) (k : A -> M B) w a w1 :
  m w = (Ok a, w1) -> bind m k w = k a w1.
Proof. intros E. unfold bind. now rewrite E. Qed.

End Frames.

Create HintDb js_effects.
#[export] Hint Resolve ret_stable throw_stable logger_stable Date_now_stable
  redis_command_stable prisma_query_stable ret_safe logger_safe : js_effects.

Ltac stable :=
  repeat first
    [ solve [auto with js_effects]
    | apply bind_stable; [| intros ?]
    | apply try_catch_stable; [| intros ?]
    | match goal with
      | |- env_stable (match ?x with _ => _ end) => destruct x
      | |- env_stable (if ?b then _ else _) => destruct b
      end ].

Ltac safe :=
  repeat first
    [ solve [auto with js_effects]
    | apply try_catch_safe; intros ?
    | apply bind_safe; [| intros ?]
    | match goal with
      | |- never_throws (match ?x with _ => _ end) => destruct x
      | |- never_throws (if ?b then _ else _) => destruct b
      end ].

(** ** Store failures *)

Section CacheFailures.
Import Js Effects.

Lemma getCachedMatch_safe `{JSON MatchResult} a b :
  never_throws (MatchCacheService.getCachedMatch a b).
Proof. unfold MatchCacheService.getCachedMatch. safe. Qed.

Lemma getCachedMatch_stable `{JSON MatchResult} a b :
  env_stable (MatchCacheService.getCachedMatch a b).
Proof.
  unfold MatchCacheService.getCachedMatch, redis_get. cbv zeta. stable.
Qed.

Lemma cacheMatch_stable `{JSON MatchResult} a b r :
  env_stable (MatchCacheService.cacheMatch a b r).
Proof.
  unfold MatchCacheService.cacheMatch, redis_setex. cbv zeta. stable.
Qed.

(** A rejected [GET] is a miss. *)
Lemma getCachedMatch_read_failure `{JSON MatchResult} a b w fs :
  redis_faults w = true :: fs ->
  exists w', MatchCacheService.getCachedMatch a b w = (Ok None, w')
    /\ redis w' = redis w
    /\ log w' = log w ++ [{| level := LWarn;
                             message := "Error retrieving cached match:";
                             cause := Some RedisError |}].
Proof.
  intros Hf. unfold MatchCacheService.getCachedMatch, try_catch, bind,
    redis_get, redis_command.
  cbv zeta. rewrite Hf. eexists. split; [reflexivity |]. split; reflexivity.
Qed.

Lemma background_write_safe `{JSON MatchResult} a b r :
  never_throws (background_write a b r).
Proof. unfold background_write, fire_and_forget. safe. Qed.

Lemma background_write_failure `{JSON MatchResult} a b r w fs :
  redis_faults w = true :: fs ->
  exists w', background_write a b r w = (Ok tt, w')
    /\ redis w' = redis w
    /\ log w' = log w ++ [{| level := LError;
                             message := "Error caching match result:";
                             cause := Some RedisError |};
                          {| level := LError;
                             message := "Failed to cache match result:";
                             cause := Some RedisError |}].
Proof.
  intros Hf. unfold background_write, fire_and_forget,
    MatchCacheService.cacheMatch, try_catch, bind, redis_setex, redis_command.
  cbv zeta. rewrite Hf. eexists. split; [reflexivity |].
  split; [reflexivity |]. cbn. now rewrite <- app_assoc.
Qed.

Lemma getMatch_result `{JSON MatchResult} f1 f2 a b bypass w r :
  MatchingService.calculateMatch (perf w).1 (perf w).2 f1 f2 = Some r ->
  exists cached w1 w',
    (if negb bypass then MatchCacheService.getCachedMatch a b else ret None) w
      = (Ok cached, w1)
    /\ MatchCacheService.getMatch f1 f2 a b bypass w = (Ok (default r cached), w').
Proof.
  intros Hcalc.
  set (lookup := if negb bypass then MatchCacheService.getCachedMatch a b else ret None).
  assert (Hsafe : never_throws lookup).
  { unfold lookup. destruct bypass; cbn; [apply ret_safe | apply getCachedMatch_safe]. }
  assert (Hstable : env_stable lookup).
  { unfold lookup. destruct bypass; cbn; [apply ret_stable | apply getCachedMatch_stable]. }
  destruct (Hsafe w) as (cached & w1 & Hlookup).
  pose proof (Hstable w) as (_ & Hperf & _). rewrite Hlookup in Hperf. cbn in Hperf.
  exists cached, w1.
  unfold MatchCacheService.getMatch. fold lookup.
  rewrite (bind_run _ _ _ _ _ Hlookup).
  destruct cached as [c |]; cbn [default].
  - eexists. split; [exact Hlookup |]. reflexivity.
  - unfold bind at 1. cbn [logger].
    unfold bind at 1, MatchCacheService.matchingService_calculateMatch.
    cbn [perf with_log]. rewrite Hperf, Hcalc.
    fold (background_write a b r).
    match goal with
    | |- context [bind (background_write a b r) ?k ?w2] =>
        destruct (background_write_safe a b r w2) as ([] & w3 & Hw);
        rewrite (bind_run _ k w2 tt w3 Hw)
    end.
    eexists. split; [exact Hlookup |]. reflexivity.
Qed.

End CacheFailures.

(** ** Statistics of the result cache *)

Section Stats.
Import Js Effects MatchCacheService.

Lemma oldest_loop_run keys : forall acc w,
  redis_faults w = [] ->
  exists w', foldM oldest_step keys acc w = (Ok (scan_oldest (redis w) keys acc), w')
    /\ redis w' = redis w /\ redis_faults w' = [].
Proof.
  induction keys as [| k keys IH]; intros acc w Hf.
  - exists w. repeat split; assumption.
  - cbn [foldM scan_oldest fold_left].
    assert (Hstep : exists w1,
      oldest_step acc k w
      = (Ok (if (acc.2 <? ttl_of (redis w) k)%Z then (Some k, ttl_of (redis w) k) else acc),
         w1)
      /\ redis w1 = redis w /\ redis_faults w1 = []).
    { unfold oldest_step, bind, redis_ttl, redis_command. destruct acc as [k0 m].
      rewrite Hf. cbn. fold (ttl_of (redis w) k).
      destruct (m <? ttl_of (redis w) k)%Z; eexists; (split; [reflexivity |]);
        cbn; rewrite Hf; split; reflexivity. }
    destruct Hstep as (w1 & Hstep & Hr & Hf1).
    rewrite (bind_run _ _ _ _ _ Hstep).
    destruct (IH (if (acc.2 <? ttl_of (redis w) k)%Z
                  then (Some k, ttl_of (redis w) k) else acc) w1 Hf1)
      as (w' & Hrun & Hr' & Hf').
    exists w'. rewrite Hrun, Hr. repeat split; congruence.
Qed.

(** The loop ends on the greatest remaining TTL it has seen, never on a
    smaller one. *)
Lemma scan_oldest_greatest keyspace keys : forall acc,
  (acc.2 <= (scan_oldest keyspace keys acc).2)%Z
  /\ forall k, k ∈ keys -> (ttl_of keyspace k <= (scan_oldest keyspace keys acc).2)%Z.
Proof.
  induction keys as [| k keys IH]; intros acc; cbn [scan_oldest fold_left].
  - split; [lia | intros k Hk; inversion Hk].
  - fold (scan_oldest keyspace keys
            (if (acc.2 <? ttl_of keyspace k)%Z then (Some k, ttl_of keyspace k) else acc)).
    destruct (IH (if (acc.2 <? ttl_of keyspace k)%Z
                  then (Some k, ttl_of keyspace k) else acc)) as (Hacc & Hkeys).
    destruct (Z.ltb_spec acc.2 (ttl_of keyspace k)); cbn [snd] in Hacc.
    + split; [lia |]. intros k' Hk'. apply elem_of_cons in Hk' as [-> | Hk'];
        [exact Hacc | now apply Hkeys].
    + split; [exact Hacc |]. intros k' Hk'. apply elem_of_cons in Hk' as [-> | Hk'];
        [lia | now apply Hkeys].
Qed.

(** C9: on a keyspace of two entries the key reported as oldest is the
    one with the greatest remaining TTL, that is the entry written last;
    the entry cached longest, with the least remaining TTL, is a:b. *)
Theorem C9_getCacheStats_reports_largest_ttl :
  exists stats w',
    getCacheStats statsWorld = (Ok stats, w')
    /\ totalKeys stats = 2%Z
    /\ ttl_of (redis statsWorld) "match:a:b" = 100%Z
    /\ ttl_of (redis statsWorld) "match:c:d" = 604800%Z
    /\ oldestKey stats = Some "match:c:d".
Proof.
  eexists. eexists. split; [vm_compute; reflexivity |]. repeat split.
Qed.

End Stats.

Section SongCacheFailures.
Import Js Effects SongCacheService.

Lemma deleteCachedSong_safe songId platform :
  never_throws (deleteCachedSong songId platform).
Proof. unfold deleteCachedSong. safe. Qed.

Lemma deleteCachedSong_stable songId platform :
  env_stable (deleteCachedSong songId platform).
Proof. unfold deleteCachedSong, songCache_delete. stable. Qed.

#[local] Hint Resolve deleteCachedSong_safe deleteCachedSong_stable : js_effects.

Lemma getCachedSong_safe `{JSON CachedSong} songId platform :
  never_throws (getCachedSong songId platform).
Proof. unfold getCachedSong. safe. Qed.

Lemma getCachedSong_stable `{JSON CachedSong} songId platform :
  env_stable (getCachedSong songId platform).
Proof.
  unfold getCachedSong, songCache_findUnique. stable.
Qed.

Lemma cacheSong_safe `{JSON CachedSong} song : never_throws (cacheSong song).
Proof. unfold cacheSong. safe. Qed.

(** A rejected lookup is a miss. *)
Lemma getCachedSong_read_failure `{JSON CachedSong} songId platform w fs :
  prisma_faults w = true :: fs ->
  exists w', getCachedSong songId platform w = (Ok None, w')
    /\ songCache w' = songCache w
    /\ log w' = log w ++ [{| level := LError;
                             message := "Error retrieving cached song:";
                             cause := Some PrismaError |}].
Proof.
  intros Hf. unfold getCachedSong, try_catch, bind, songCache_findUnique, prisma_query.
  rewrite Hf. eexists. split; [reflexivity |]. split; reflexivity.
Qed.

(** A rejected upsert is logged and dropped. *)
Lemma cacheSong_write_failure `{JSON CachedSong} song w fs :
  prisma_faults w = true :: fs ->
  exists w', cacheSong song w = (Ok tt, w')
    /\ songCache w' = songCache w
    /\ log w' = log w ++ [{| level := LError;
                             message := "Error caching song:";
                             cause := Some PrismaError |}].
Proof.
  intros Hf. unfold cacheSong, try_catch, bind, songCache_upsert, prisma_query.
  cbv zeta. rewrite Hf. eexists. split; [reflexivity |]. split; reflexivity.
Qed.

Lemma getSongById_result `{JSON CachedSong} songId platform w track song :
  spotify_getTrack w songId = Ok track ->
  spotify_convertToCachedSong w track (now w) = Ok song ->
  exists cached w1 w',
    getCachedSong songId platform w = (Ok cached, w1)
    /\ getSongById songId platform w = (Ok (default song cached), w').
Proof.
  intros Htrack Hsong.
  destruct (getCachedSong_safe songId platform w) as (cached & w1 & Hlookup).
  pose proof (getCachedSong_stable songId platform w) as (Hnow & _ & Hget & Hconv).
  rewrite Hlookup in Hnow, Hget, Hconv. cbn in Hnow, Hget, Hconv.
  exists cached, w1. unfold getSongById.
  rewrite (bind_run _ _ _ _ _ Hlookup).
  destruct cached as [c |]; cbn [default].
  - eexists. split; [exact Hlookup |]. reflexivity.
  - unfold bind at 1. cbn [logger].
    unfold bind at 1, spotifyService_getTrack.
    cbn [spotify_getTrack with_log]. rewrite Hget, Htrack.
    unfold bind at 1, spotifyService_convertToCachedSong.
    cbn [spotify_convertToCachedSong now with_log with_spotify_calls].
    rewrite Hconv, Hnow, Hsong.
    match goal with
    | |- context [bind (cacheSong song) ?k ?w2] =>
        destruct (cacheSong_safe song w2) as ([] & w3 & Hw);
        rewrite (bind_run _ k w2 tt w3 Hw)
    end.
    eexists. split; [exact Hlookup |]. reflexivity.
Qed.

End SongCacheFailures.

Section CacheFailureTheorem.
Import Js Effects.

Lemma next_fails_inv faults : next_fails faults -> exists fs, faults = true :: fs.
Proof.
  unfold next_fails. destruct faults as [| [] fs]; cbn; try discriminate.
  intros _. now exists fs.
Qed.

(** C2: a failing key-value store never reaches the caller.  Whatever the
    fault schedules, [getMatch] ends with the computed result unless the
    lookup produced a stored one, and a rejected lookup produces none;
    the write left behind by [getMatch] and the write of [cacheSong] end
    normally, a rejected one leaving the store as it was and an error in
    the log; [getSongById] ends with the fetched song unless the lookup
    produced a stored one. *)
Theorem C2_cache_failures_not_propagated
    `{JSON MatchResult} `{JSON CachedSong}
    (features1 features2 : AudioFeatures) (song1Id song2Id : string)
    (bypassCache : bool) (songId platform : string) (w : World)
    (result : MatchResult) (track : SpotifyTrack) (song : CachedSong)
    (Hcalc : MatchingService.calculateMatch (perf w).1 (perf w).2 features1 features2
             = Some result)
    (Htrack : spotify_getTrack w songId = Ok track)
    (Hsong : spotify_convertToCachedSong w track (now w) = Ok song) :
  (exists cached w1 w',
      (if negb bypassCache then MatchCacheService.getCachedMatch song1Id song2Id
       else ret None) w = (Ok cached, w1)
      /\ MatchCacheService.getMatch features1 features2 song1Id song2Id bypassCache w
         = (Ok (default result cached), w')
      /\ (bypassCache = false -> next_fails (redis_faults w) -> cached = None))
  /\ (exists w',
        background_write song1Id song2Id result w = (Ok tt, w')
        /\ (next_fails (redis_faults w) ->
            redis w' = redis w
            /\ exists entry, entry ∈ log w' /\ level entry = LError))
  /\ (exists w',
        SongCacheService.cacheSong song w = (Ok tt, w')
        /\ (next_fails (prisma_faults w) ->
            songCache w' = songCache w
            /\ exists entry, entry ∈ log w' /\ level entry = LError))
  /\ (exists cached w1 w',
        SongCacheService.getCachedSong songId platform w = (Ok cached, w1)
        /\ SongCacheService.getSongById songId platform w
           = (Ok (default song cached), w')
        /\ (next_fails (prisma_faults w) -> cached = None)).
Proof.
  split; [| split; [| split]].
  - destruct (getMatch_result features1 features2 song1Id song2Id bypassCache w
                result Hcalc) as (cached & w1 & w' & Hlookup & Hget).
    exists cached, w1, w'. split; [exact Hlookup |]. split; [exact Hget |].
    intros -> Hf. apply next_fails_inv in Hf as (fs & Hf).
    destruct (getCachedMatch_read_failure song1Id song2Id w fs Hf) as (w2 & Hmiss & _).
    cbn in Hlookup. congruence.
  - destruct (background_write_safe song1Id song2Id result w) as ([] & w' & Hw).
    exists w'. split; [exact Hw |].
    intros Hf. apply next_fails_inv in Hf as (fs & Hf).
    destruct (background_write_failure song1Id song2Id result w fs Hf)
      as (w2 & Hw2 & Hredis & Hlog).
    assert (w2 = w') as -> by congruence.
    split; [exact Hredis |].
    eexists. split; [rewrite Hlog; apply elem_of_app; right; left |]. reflexivity.
  - destruct (cacheSong_safe song w) as ([] & w' & Hw).
    exists w'. split; [exact Hw |].
    intros Hf. apply next_fails_inv in Hf as (fs & Hf).
    destruct (cacheSong_write_failure song w fs Hf) as (w2 & Hw2 & Htable & Hlog).
    assert (w2 = w') as -> by congruence.
    split; [exact Htable |].
    eexists. split; [rewrite Hlog; apply elem_of_app; right; left |]. reflexivity.
  - destruct (getSongById_result songId platform w track song Htrack Hsong)
      as (cached & w1 & w' & Hlookup & Hget).
    exists cached, w1, w'. split; [exact Hlookup |]. split; [exact Hget |].
    intros Hf. apply next_fails_inv in Hf as (fs & Hf).
    destruct (getCachedSong_read_failure songId platform w fs Hf) as (w2 & Hmiss & _).
    congruence.
Qed.

Lemma C2_cache_failures_not_propagated_witness :
  exists result,
    MatchingService.calculateMatch 0 1 identicalSong oppositeSong = Some result
    /\ (exists w',
          @MatchCacheService.getMatch (demo_match_json result)
            identicalSong oppositeSong "s1" "s2" false outageWorld
          = (Ok result, w'))
    /\ (exists w',
          @SongCacheService.getSongById (demo_song_json (demoSong 0))
            "s1" "spotify" outageWorld
          = (Ok (demoSong 1000), w')).
Proof.
  destruct (MatchingService.calculateMatch 0 1 identicalSong oppositeSong)
    as [result |] eqn:Hcalc; [| vm_compute in Hcalc; discriminate].
  exists result. split; [reflexivity |].
  destruct (@C2_cache_failures_not_propagated
              (demo_match_json result) (demo_song_json (demoSong 0))
              identicalSong oppositeSong "s1" "s2" false "s1" "spotify" outageWorld
              result {| track_id := "s1"; track_name := "Test Song" |} (demoSong 1000)
              Hcalc eq_refl eq_refl)
    as ((cached & w1 & w' & _ & Hget & Hmiss) & _ & _
        & (cached' & w1' & w'' & _ & Hsong & Hmiss')).
  rewrite (Hmiss eq_refl eq_refl) in Hget.
  rewrite (Hmiss' eq_refl) in Hsong.
  split; [exists w'; exact Hget | exists w''; exact Hsong].
Defined.

End CacheFailureTheorem.

(** ** Expiry in the song cache *)

Section SongCacheExpiry.
Import Js Effects SongCacheService.

Lemma getCachedSong_run `{JSON CachedSong} songId platform w :
  prisma_faults w = [] ->
  exists w1,
    getCachedSong songId platform w = (Ok (lookup_outcome w songId platform).1, w1)
    /\ songCache w1 = (lookup_outcome w songId platform).2
    /\ prisma_faults w1 = []
    /\ spotify_calls w1 = spotify_calls w
    /\ same_env w w1.
Proof.
  intros Hstore.
  unfold getCachedSong, lookup_outcome, try_catch, bind, songCache_findUnique,
    prisma_query.
  rewrite Hstore. cbn [fst snd].
  destruct (songCache w !! (platform, songId)) as [row |] eqn:Hrow.
  - cbn [Date_now now with_songCache].
    destruct (row_expiresAt row <? now w)%Z.
    + unfold deleteCachedSong, try_catch, bind, songCache_delete, prisma_query.
      cbn. rewrite Hstore, Hrow. cbn.
      eexists. split; [reflexivity |]. cbn. rewrite Hstore. repeat split.
    + destruct (JSON_parse (row_data row)); cbn;
        (eexists; split; [reflexivity |]); cbn; rewrite Hstore; repeat split.
  - cbn. eexists. split; [reflexivity |]. cbn. rewrite Hstore. repeat split.
Qed.

Lemma cacheSong_run `{JSON CachedSong} song w :
  prisma_faults w = [] ->
  exists w', cacheSong song w = (Ok tt, w')
    /\ songCache w' = <[(song_platform song, song_id song) := row_of song]> (songCache w)
    /\ spotify_calls w' = spotify_calls w.
Proof.
  intros Hstore. unfold cacheSong, try_catch, bind, songCache_upsert, prisma_query.
  cbv zeta. rewrite Hstore. cbn. eexists. repeat split.
Qed.

(** A hit: the lookup produced a song. *)
Lemma getSongById_hit `{JSON CachedSong} songId platform w w1 song :
  getCachedSong songId platform w = (Ok (Some song), w1) ->
  exists w', getSongById songId platform w = (Ok song, w')
    /\ songCache w' = songCache w1
    /\ spotify_calls w' = spotify_calls w1.
Proof.
  intros Hlookup. unfold getSongById. rewrite (bind_run _ _ _ _ _ Hlookup).
  eexists. split; [reflexivity |]. split; reflexivity.
Qed.

(** A miss: Spotify is contacted, whatever comes of it. *)
Lemma getSongById_miss `{JSON CachedSong} songId platform w w1 :
  getCachedSong songId platform w = (Ok None, w1) ->
  prisma_faults w1 = [] ->
  same_env w w1 ->
  forall res w', getSongById songId platform w = (res, w') ->
    (exists calls, spotify_calls w' = spotify_calls w1 ++ ("getTrack " +:+ songId) :: calls)
    /\ forall track song,
         spotify_getTrack w songId = Ok track ->
         spotify_convertToCachedSong w track (now w) = Ok song ->
         res = Ok song
         /\ songCache w'
            = <[(song_platform song, song_id song) := row_of song]> (songCache w1).
Proof.
  intros Hlookup Hstore (Hnow & _ & Hget & Hconv) res w'.
  unfold getSongById. rewrite (bind_run _ _ _ _ _ Hlookup).
  unfold bind at 1. cbn [logger].
  unfold bind at 1, spotifyService_getTrack. cbn [spotify_getTrack spotify_calls with_log].
  rewrite Hget.
  destruct (spotify_getTrack w songId) as [track | e] eqn:Htrack.
  - unfold bind at 1, spotifyService_convertToCachedSong.
    cbn [spotify_convertToCachedSong now with_log with_spotify_calls spotify_calls].
    rewrite Hconv, Hnow.
    destruct (spotify_convertToCachedSong w track (now w)) as [song | e] eqn:Hsong.
    + match goal with
      | |- context [bind (cacheSong song) ?k ?w2] =>
          destruct (cacheSong_run song w2 Hstore) as (w3 & Hw & Htable & Hcalls);
          rewrite (bind_run _ k w2 tt w3 Hw)
      end.
      cbn [ret]. intros [= <- <-]. split.
      * eexists. rewrite Hcalls. cbn. rewrite <- app_assoc. reflexivity.
      * intros track' song' [= <-]. rewrite Hsong. intros [= <-].
        split; [reflexivity | exact Htable].
    + intros [= <- <-]. split.
      * eexists. cbn. rewrite <- app_assoc. reflexivity.
      * intros track' song' [= <-]. rewrite Hsong. discriminate.
  - intros [= <- <-]. split.
    + eexists. cbn. reflexivity.
    + intros track' song'. discriminate.
Qed.

Lemma app_cons_neq {A} (l l' : list A) (x : A) : l ++ x :: l' <> l.
Proof.
  intros E. apply (f_equal length) in E. rewrite length_app in E. cbn in E. lia.
Qed.

(** C8 as stated fails on the boundary: a stored entry with
    [expiresAt = now] is not strictly later than the current time, yet it
    is returned, Spotify is not contacted and the row stays. *)
Lemma C8_expiry_boundary_counterexample :
  let '(res, w') :=
    @getSongById (demo_song_json boundarySong) "s1" "spotify" boundaryWorld in
  songCache boundaryWorld !! ("spotify", "s1") = Some (demoRow boundarySong)
  /\ row_expiresAt (demoRow boundarySong) = now boundaryWorld
  /\ res = Ok boundarySong
  /\ spotify_calls w' = []
  /\ songCache w' !! ("spotify", "s1") = Some (demoRow boundarySong).
Proof. vm_compute. repeat split. Qed.

(** C8, amended: while the database answers, [getSongById] returns the
    stored entry without contacting Spotify if and only if a row is
    stored whose [expiresAt] is not earlier than the current time (and
    whose text reads back); a row with [expiresAt < now] is deleted and
    the song is fetched from Spotify, stored and returned. *)
Theorem C8_getSongById_hit_iff_not_expired `{JSON CachedSong}
    (songId platform : string) (w : World)
    (Hstore : prisma_faults w = []) :
  ((exists song w',
       getSongById songId platform w = (Ok song, w')
       /\ spotify_calls w' = spotify_calls w)
   <-> (exists row song,
          songCache w !! (platform, songId) = Some row
          /\ (now w <= row_expiresAt row)%Z
          /\ JSON_parse (row_data row) = Some song))
  /\ (forall row song,
        songCache w !! (platform, songId) = Some row ->
        (now w <= row_expiresAt row)%Z ->
        JSON_parse (row_data row) = Some song ->
        exists w',
          getSongById songId platform w = (Ok song, w')
          /\ spotify_calls w' = spotify_calls w
          /\ songCache w' = songCache w)
  /\ (forall row track song,
        songCache w !! (platform, songId) = Some row ->
        (row_expiresAt row < now w)%Z ->
        spotify_getTrack w songId = Ok track ->
        spotify_convertToCachedSong w track (now w) = Ok song ->
        exists w',
          getSongById songId platform w = (Ok song, w')
          /\ spotify_calls w' <> spotify_calls w
          /\ songCache w'
             = <[(song_platform song, song_id song) := row_of song]>
                 (delete (platform, songId) (songCache w))).
Proof.
  destruct (getCachedSong_run songId platform w Hstore)
    as (w1 & Hlookup & Htable & Hstore1 & Hcalls & Henv).
  assert (Hit : forall row song,
    songCache w !! (platform, songId) = Some row ->
    (now w <= row_expiresAt row)%Z ->
    JSON_parse (row_data row) = Some song ->
    exists w',
      getSongById songId platform w = (Ok song, w')
      /\ spotify_calls w' = spotify_calls w
      /\ songCache w' = songCache w).
  { intros row song Hrow Hfresh Hparse.
    unfold lookup_outcome in Hlookup, Htable. rewrite Hrow in Hlookup, Htable.
    assert ((row_expiresAt row <? now w)%Z = false) as E by (apply Z.ltb_ge; lia).
    rewrite E in Hlookup, Htable. cbn in Hlookup, Htable. rewrite Hparse in Hlookup.
    destruct (getSongById_hit songId platform w w1 song Hlookup) as (w' & Hw & Ht & Hc).
    exists w'. split; [exact Hw |]. split; congruence. }
  split; [| split].
  - split.
    + intros (song & w' & Hget & Hquiet).
      destruct (lookup_outcome w songId platform).1 as [cached |] eqn:Hout.
      * unfold lookup_outcome in Hout.
        destruct (songCache w !! (platform, songId)) as [row |]; [| discriminate].
        destruct (Z.ltb_spec (row_expiresAt row) (now w)); [discriminate |].
        cbn in Hout. exists row, cached. repeat split; assumption.
      * exfalso.
        destruct (getSongById_miss songId platform w w1 Hlookup Hstore1 Henv _ _ Hget)
          as ((calls & Hgrow) & _).
        rewrite Hquiet, Hcalls in Hgrow. symmetry in Hgrow.
        exact (app_cons_neq _ _ _ Hgrow).
    + intros (row & song & Hrow & Hfresh & Hparse).
      destruct (Hit row song Hrow Hfresh Hparse) as (w' & Hw & Hc & _).
      now exists song, w'.
  - exact Hit.
  - intros row track song Hrow Hexpired Htrack Hsong.
    unfold lookup_outcome in Hlookup, Htable. rewrite Hrow in Hlookup, Htable.
    assert ((row_expiresAt row <? now w)%Z = true) as E by (apply Z.ltb_lt; lia).
    rewrite E in Hlookup, Htable. cbn in Hlookup, Htable.
    destruct (getSongById songId platform w) as [res w'] eqn:Hget.
    destruct (getSongById_miss songId platform w w1 Hlookup Hstore1 Henv _ _ Hget)
      as ((calls & Hgrow) & Hfetch).
    destruct (Hfetch track song Htrack Hsong) as (-> & Hnew).
    exists w'. split; [reflexivity |]. split.
    + rewrite Hgrow, Hcalls. apply app_cons_neq.
    + now rewrite Hnew, Htable.
Qed.

Lemma C8_getSongById_hit_iff_not_expired_witness :
  prisma_faults expiredWorld = []
  /\ exists w',
       @getSongById (demo_song_json boundarySong) "s1" "spotify" expiredWorld
       = (Ok (demoSong 1001), w')
       /\ spotify_calls w' <> spotify_calls expiredWorld
       /\ songCache w'
          = <[("spotify", "s1") := @row_of (demo_song_json boundarySong) (demoSong 1001)]>
              (delete ("spotify", "s1") (songCache expiredWorld)).
Proof.
  split; [reflexivity |].
  destruct (@C8_getSongById_hit_iff_not_expired (demo_song_json boundarySong)
              "s1" "spotify" expiredWorld eq_refl) as (_ & _ & Hexpired).
  apply (Hexpired (demoRow boundarySong)
           {| track_id := "s1"; track_name := "Test Song" |} (demoSong 1001)).
  - vm_compute. reflexivity.
  - reflexivity.
  - reflexivity.
  - reflexivity.
Defined.

End SongCacheExpiry.

(** * Further properties of the code *)

(** ** Scoring primitives *)

Section MorePrimitives.
Import Js MatchingService.

Lemma ratio_one_inv n m : (0 < m)%nat -> ratio n m == 1 -> n = m.
Proof.
  intros Hm E. unfold ratio in E.
  assert (Hq : ~ inject_Z (Z.of_nat m) == 0).
  { change 0 with (inject_Z 0). rewrite inject_Z_injective. lia. }
  pose proof (Qmult_div_r (inject_Z (Z.of_nat n)) _ Hq) as Hn.
  rewrite E, Qmult_1_r in Hn. apply (proj1 (inject_Z_injective _ _)) in Hn. lia.
Qed.

Lemma ratio_zero_iff n m : (0 < m)%nat -> ratio n m == 0 <-> n = 0%nat.
Proof.
  intros Hm.
  assert (Hq : ~ inject_Z (Z.of_nat m) == 0).
  { change 0 with (inject_Z 0). rewrite inject_Z_injective. lia. }
  split.
  - intros E. unfold ratio in E.
    pose proof (Qmult_div_r (inject_Z (Z.of_nat n)) _ Hq) as Hn.
    rewrite E, Qmult_0_r in Hn. change 0 with (inject_Z 0) in Hn.
    apply (proj1 (inject_Z_injective _ _)) in Hn. lia.
  - intros ->. unfold ratio. cbn. now field.
Qed.

Lemma genreSimilarity_ratio genres1 genres2 :
  genres1 <> [] -> genres2 <> [] ->
  genreSimilarity genres1 genres2
  = ratio (size (genre_set genres1 ∩ genre_set genres2))
          (size (genre_set genres1 ∪ genre_set genres2))
  /\ (0 < size (genre_set genres1 ∪ genre_set genres2))%nat.
Proof.
  intros H1 H2. rewrite genreSimilarity_unfold.
  assert (E1 : (length genres1 =? 0)%nat = false) by (destruct genres1; [contradiction | reflexivity]).
  assert (E2 : (length genres2 =? 0)%nat = false) by (destruct genres2; [contradiction | reflexivity]).
  rewrite E1, E2. split; [reflexivity |].
  pose proof (genre_set_size genres1 E1) as Hpos. fold (genre_set genres1) in Hpos.
  assert (size (genre_set genres1) <= size (genre_set genres1 ∪ genre_set genres2))%nat
    by (apply subseteq_size, union_subseteq_l).
  lia.
Qed.

(** X1: with both lists non-empty the genre similarity is decided by the
    two sets of lower-cased names alone: it is 1 exactly when the sets are
    equal and 0 exactly when they share no name, whatever the order, the
    repetitions and the letter case of the lists. *)
Theorem X1_genreSimilarity_by_lowercase_sets (genres1 genres2 : list string)
    (H1 : genres1 <> []) (H2 : genres2 <> []) :
  (genreSimilarity genres1 genres2 == 1 <-> genre_set genres1 = genre_set genres2)
  /\ (genreSimilarity genres1 genres2 == 0 <-> genre_set genres1 ## genre_set genres2).
Proof.
  destruct (genreSimilarity_ratio genres1 genres2 H1 H2) as (-> & Hpos).
  set (s1 := genre_set genres1) in *. set (s2 := genre_set genres2) in *.
  split; split.
  - intros E. apply ratio_one_inv in E; [| exact Hpos].
    assert (Hsub : s1 ∩ s2 ⊆ s1 ∪ s2)
      by (etrans; [apply intersection_subseteq_l | apply union_subseteq_l]).
    assert (Heq : s1 ∩ s2 ≡ s1 ∪ s2) by (apply set_subseteq_size_equiv; [exact Hsub | lia]).
    apply set_eq. intros x.
    pose proof (Heq x) as Hx. rewrite elem_of_intersection, elem_of_union in Hx. tauto.
  - intros ->. rewrite (idemp_L (∩) s2), (idemp_L (∪) s2). apply ratio_diag. 
    rewrite (idemp_L (∪) s2) in Hpos. lia.
  - intros E. apply ratio_zero_iff in E; [| exact Hpos].
    apply size_empty_iff in E. apply disjoint_intersection. exact E.
  - intros D. apply ratio_zero_iff; [exact Hpos |].
    apply size_empty_iff. apply disjoint_intersection. exact D.
Qed.

Lemma X1_genreSimilarity_by_lowercase_sets_witness :
  genreSimilarity ["Pop"; "rock"] ["ROCK"; "pop"; "Rock"] == 1
  /\ genreSimilarity ["Pop"; "rock"] ["jazz"] == 0.
Proof.
  assert (N1 : ["Pop"; "rock"] <> ([] : list string)) by discriminate.
  assert (N2 : ["ROCK"; "pop"; "Rock"] <> ([] : list string)) by discriminate.
  assert (N3 : ["jazz"] <> ([] : list string)) by discriminate.
  split.
  - apply (X1_genreSimilarity_by_lowercase_sets _ _ N1 N2). vm_compute. reflexivity.
  - apply (X1_genreSimilarity_by_lowercase_sets _ _ N1 N3).
    apply disjoint_intersection_L. vm_compute. reflexivity.
Defined.

(** X2: the duration similarity is not monotone in the difference: from
    30 s to under 60 s it is exactly 0.6, from 60 s to under 120 s it is
    above 0.6 (at most 0.8), and from 300 s on it is 0. *)
Theorem X2_durationSimilarity_steps (ms1 ms2 : Z) :
  ((30000 <= Z.abs (ms1 - ms2) < 60000)%Z -> durationSimilarity ms1 ms2 = 0.6)
  /\ ((60000 <= Z.abs (ms1 - ms2) < 120000)%Z ->
      0.6 < durationSimilarity ms1 ms2 <= 0.8)
  /\ ((300000 <= Z.abs (ms1 - ms2))%Z -> durationSimilarity ms1 ms2 == 0).
Proof.
  unfold durationSimilarity.
  set (d := Z.abs (ms1 - ms2)).
  assert (Hcmp : forall c : Z, ltb (inject_Z d / 1000) (inject_Z c) = (d <? c * 1000)%Z).
  { intros c. destruct (Z.ltb_spec d (c * 1000)) as [L | L].
    - apply ltb_true. apply Qlt_shift_div_r; [reflexivity |].
      change 1000 with (inject_Z 1000).
      rewrite <- inject_Z_mult, <- Zlt_Qlt. exact L.
    - apply ltb_false. apply Qle_shift_div_l; [reflexivity |].
      change 1000 with (inject_Z 1000).
      rewrite <- inject_Z_mult, <- Zle_Qle. exact L. }
  change 10 with (inject_Z 10). change 30 with (inject_Z 30). change 60 with (inject_Z 60).
  rewrite !Hcmp.
  split; [| split]; intros Hd.
  - destruct (Z.ltb_spec d (10 * 1000)); [lia |].
    destruct (Z.ltb_spec d (30 * 1000)); [lia |].
    destruct (Z.ltb_spec d (60 * 1000)); [reflexivity | lia].
  - destruct (Z.ltb_spec d (10 * 1000)); [lia |].
    destruct (Z.ltb_spec d (30 * 1000)); [lia |].
    destruct (Z.ltb_spec d (60 * 1000)); [lia |].
    assert (60000 <= inject_Z d < 120000) as Hq.
    { split; [change 60000 with (inject_Z 60000); rewrite <- Zle_Qle
             | change 120000 with (inject_Z 120000); rewrite <- Zlt_Qlt]; lia. }
    destruct (Q.max_spec 0 (1 - inject_Z d / 1000 / 300)) as [[_ ->] | [Hle ->]];
      qconst; lra.
  - destruct (Z.ltb_spec d (10 * 1000)); [lia |].
    destruct (Z.ltb_spec d (30 * 1000)); [lia |].
    destruct (Z.ltb_spec d (60 * 1000)); [lia |].
    assert (300000 <= inject_Z d) as Hq.
    { change 300000 with (inject_Z 300000). rewrite <- Zle_Qle. lia. }
    apply Q.max_l. qconst. lra.
Qed.

(** X3: for two known years the era similarity depends on the decades
    alone and is max(0, 1 - n/5), n being the number of decades between
    them: 1 within a decade, 0.8 for neighbouring decades, 0 from five
    decades on. *)
Theorem X3_eraSimilarity_by_decade (year1 year2 : Z)
    (H1 : year1 <> 0%Z) (H2 : year2 <> 0%Z) :
  eraSimilarity (Some year1) (Some year2)
  == Qmax 0 (1 - inject_Z (Z.abs (year1 / 10 - year2 / 10)) / 5).
Proof.
  unfold eraSimilarity, truthy_number, or_zero, default. cbn [from_option id].
  apply Z.eqb_neq in H1, H2. rewrite H1, H2. cbn [negb orb].
  destruct (Z.eqb_spec (year1 / 10 * 10) (year2 / 10 * 10)) as [E | E].
  - assert (year1 / 10 = year2 / 10)%Z as -> by lia.
    rewrite Z.sub_diag. reflexivity.
  - assert (Z.abs (year1 / 10 * 10 - year2 / 10 * 10)
            = Z.abs (year1 / 10 - year2 / 10) * 10)%Z as -> by lia.
    rewrite inject_Z_mult.
    assert (inject_Z (Z.abs (year1 / 10 - year2 / 10)) * inject_Z 10 / 10
            == inject_Z (Z.abs (year1 / 10 - year2 / 10))) as -> by (now field).
    reflexivity.
Qed.

Lemma X3_eraSimilarity_by_decade_witness :
  eraSimilarity (Some 1999%Z) (Some 2001%Z)
  == Qmax 0 (1 - inject_Z (Z.abs (1999 / 10 - 2001 / 10)) / 5).
Proof.
  apply (X3_eraSimilarity_by_decade 1999 2001); discriminate.
Defined.

End MorePrimitives.

(** ** The overall score outside the claims' hypotheses *)

Section MoreScoring.
Import Js MatchingService.

Lemma keySimilarity_defined key1 mode1 key2 mode2 :
  is_Some (keySimilarity key1 mode1 key2 mode2)
  <-> key1 = key2 \/ (valid_key key1 /\ valid_key key2).
Proof.
  split.
  - intros [s Hs]. destruct (decide (valid_key key1 /\ valid_key key2)) as [V | V];
      [now right | left].
    rewrite keySimilarity_unfold, (matrix_lookup_invalid key1 key2 V) in Hs.
    destruct (Z.eqb_spec key1 key2) as [E | E]; [exact E |].
    cbn in Hs. discriminate.
  - intros [-> | [V1 V2]].
    + unfold keySimilarity. rewrite Z.eqb_refl. cbn.
      destruct (mode1 =? mode2)%Z; eexists; reflexivity.
    + destruct (keySimilarity_bounds key1 mode1 key2 mode2 V1 V2) as (s & -> & _).
      now exists s.
Qed.

Lemma keySimilarity_range key1 mode1 key2 mode2 s :
  keySimilarity key1 mode1 key2 mode2 = Some s -> 0 <= s <= 1.
Proof.
  intros Hs.
  destruct (proj1 (keySimilarity_defined key1 mode1 key2 mode2)) as [E | [V1 V2]].
  - now exists s.
  - subst key2. unfold keySimilarity in Hs. rewrite Z.eqb_refl in Hs. cbn in Hs.
    destruct (mode1 =? mode2)%Z; injection Hs as <-; split; discriminate.
  - destruct (keySimilarity_bounds key1 mode1 key2 mode2 V1 V2) as (s' & Hs' & B).
    congruence.
Qed.

Lemma calculateLayer2_defined f1 f2 :
  is_Some (calculateLayer2 f1 f2)
  <-> is_Some (keySimilarity (key f1) (mode f1) (key f2) (mode f2)).
Proof.
  split.
  - intros [l2 Hl2].
    destruct (keySimilarity (key f1) (mode f1) (key f2) (mode f2)) as [s |] eqn:Hs;
      [now exists s |].
    rewrite (layer2_None f1 f2 Hs) in Hl2. discriminate.
  - intros [s Hs]. destruct (layer2_score f1 f2 s Hs) as (l2 & -> & _). now exists l2.
Qed.

(** X4: [calculateMatch] has a result exactly when the two keys are equal
    or both lie in 0..11; a key outside that range (such as the -1 of a
    track without detected key) against a different key leaves the match
    without result. *)
Theorem X4_calculateMatch_defined_iff (startTime endTime : Q) (f1 f2 : AudioFeatures) :
  is_Some (calculateMatch startTime endTime f1 f2)
  <-> key f1 = key f2 \/ (valid_key (key f1) /\ valid_key (key f2)).
Proof.
  rewrite <- keySimilarity_defined, <- calculateLayer2_defined.
  split.
  - intros [r Hr].
    destruct (calculateLayer2 f1 f2) as [l2 |] eqn:Hl2; [now exists l2 |].
    rewrite (calculateMatch_None _ _ _ _ Hl2) in Hr. discriminate.
  - intros [l2 Hl2].
    destruct (calculateMatch_Some startTime endTime f1 f2 l2 Hl2) as (r & -> & _).
    now exists r.
Qed.

Lemma continuousSimilarity_le_1 v1 v2 : continuousSimilarity v1 v2 <= 1.
Proof. unfold continuousSimilarity. pose proof (Qabs_nonneg (v1 - v2)). lra. Qed.

Lemma loudnessSimilarity_le_1 db1 db2 : loudnessSimilarity db1 db2 <= 1.
Proof.
  unfold loudnessSimilarity.
  pose proof (Qabs_nonneg ((db1 + 60) / 60 - (db2 + 60) / 60)). lra.
Qed.

Lemma calculateMatch_inv startTime endTime f1 f2 r :
  calculateMatch startTime endTime f1 f2 = Some r ->
  exists s l2,
    keySimilarity (key f1) (mode f1) (key f2) (mode f2) = Some s
    /\ calculateLayer2 f1 f2 = Some l2
    /\ score l2
       == (s * 0.1
           + timeSignatureSimilarity (timeSignature f1) (timeSignature f2) * 0.05
           + loudnessSimilarity (loudness f1) (loudness f2) * 0.05
           + durationSimilarity (durationMs f1) (durationMs f2) * 0.05) / 0.25
    /\ overallScore r
       = Math_round ((score (calculateLayer1 f1 f2) * 0.6 + score l2 * 0.25
                      + score (calculateLayer3 f1 f2) * 0.15) * 100)
    /\ confidence r = calculateConfidence f1 f2.
Proof.
  intros Hr.
  destruct (keySimilarity (key f1) (mode f1) (key f2) (mode f2)) as [s |] eqn:Hs.
  - destruct (layer2_score f1 f2 s Hs) as (l2 & Hl2 & _ & Hscore).
    destruct (calculateMatch_Some startTime endTime f1 f2 l2 Hl2)
      as (r' & Hr' & Ho & Hc & _).
    assert (r' = r) as -> by congruence.
    exists s, l2. repeat split; assumption.
  - rewrite (calculateMatch_None _ _ _ _ (layer2_None f1 f2 Hs)) in Hr. discriminate.
Qed.

(** X5: whatever the two vectors, in range or not, a result of
    [calculateMatch] never has an overall score above 100. *)
Theorem X5_overallScore_never_above_100 (startTime endTime : Q)
    (f1 f2 : AudioFeatures) (r : MatchResult)
    (Hr : calculateMatch startTime endTime f1 f2 = Some r) :
  (overallScore r <= 100)%Z.
Proof.
  destruct (calculateMatch_inv _ _ _ _ _ Hr) as (s & l2 & Hs & _ & Hs2 & -> & _).
  apply keySimilarity_range in Hs.
  unfold Math_round.
  assert (Qfloor ((score (calculateLayer1 f1 f2) * 0.6 + score l2 * 0.25
                   + score (calculateLayer3 f1 f2) * 0.15) * 100 + (1 # 2))
          <= Qfloor (inject_Z 100 + (1 # 2)))%Z as Hle; [| exact Hle].
  apply Qfloor_resp_le.
  rewrite layer1_score, layer3_score, Hs2.
  pose proof (continuousSimilarity_le_1 (valence f1) (valence f2)).
  pose proof (continuousSimilarity_le_1 (energy f1) (energy f2)).
  pose proof (continuousSimilarity_le_1 (danceability f1) (danceability f2)).
  pose proof (continuousSimilarity_le_1 (acousticness f1) (acousticness f2)).
  pose proof (tempoSimilarity_bounds (tempo f1) (tempo f2)).
  pose proof (timeSignatureSimilarity_bounds (timeSignature f1) (timeSignature f2)).
  pose proof (loudnessSimilarity_le_1 (loudness f1) (loudness f2)).
  pose proof (durationSimilarity_bounds (durationMs f1) (durationMs f2)).
  pose proof (genreSimilarity_bounds (or_empty (genres f1)) (or_empty (genres f2))).
  pose proof (artistSimilarity_bounds (artist f1) (artist f2)).
  pose proof (eraSimilarity_bounds (releaseYear f1) (releaseYear f2)).
  change (inject_Z 100) with 100. qconst. lra.
Qed.

Lemma X5_overallScore_never_above_100_witness :
  exists r, calculateMatch 0 1 wildSong identicalSong = None
    /\ calculateMatch 0 1 wildSong wildSong = Some r
    /\ (overallScore r <= 100)%Z.
Proof.
  destruct (calculateMatch 0 1 wildSong wildSong) as [r |] eqn:Hr;
    [| vm_compute in Hr; discriminate].
  exists r. split; [vm_compute; reflexivity |]. split; [reflexivity |].
  exact (X5_overallScore_never_above_100 0 1 wildSong wildSong r Hr).
Defined.

Lemma genre_neutral f1 f2 :
  ~ (has_genres f1 /\ has_genres f2) ->
  genreSimilarity (or_empty (genres f1)) (or_empty (genres f2)) = 0.5.
Proof.
  intros Hno. unfold genreSimilarity.
  destruct (genres f1) as [[| g1 gs1] |] eqn:E1; cbn; try reflexivity.
  destruct (genres f2) as [[| g2 gs2] |] eqn:E2; cbn; try reflexivity.
  exfalso. apply Hno. split; eexists; (split; [eassumption | discriminate]).
Qed.

Lemma artist_neutral f1 f2 :
  ~ (has_artist f1 /\ has_artist f2) ->
  artistSimilarity (artist f1) (artist f2) = 0.5.
Proof.
  intros Hno. unfold artistSimilarity.
  destruct (truthy_string (artist f1)) eqn:E1; [| reflexivity].
  destruct (truthy_string (artist f2)) eqn:E2; [| reflexivity].
  exfalso. apply Hno. split; now apply truthy_string_true.
Qed.

Lemma era_neutral f1 f2 :
  ~ (has_releaseYear f1 /\ has_releaseYear f2) ->
  eraSimilarity (releaseYear f1) (releaseYear f2) = 0.5.
Proof.
  intros Hno. unfold eraSimilarity.
  destruct (truthy_number (releaseYear f1)) eqn:E1; [| reflexivity].
  destruct (truthy_number (releaseYear f2)) eqn:E2; [| reflexivity].
  exfalso. apply Hno. split; now apply truthy_number_true.
Qed.

(** X6: when no kind of optional metadata is present on both sides, the
    third layer is the neutral 0.5, so two valid vectors score between 8
    and 93 however alike or unlike they are, with confidence 9/12. *)
Theorem X6_score_range_without_metadata (startTime endTime : Q)
    (f1 f2 : AudioFeatures)
    (H1 : valid_features f1) (H2 : valid_features f2)
    (Hno : no_shared_metadata f1 f2) :
  exists r, calculateMatch startTime endTime f1 f2 = Some r
    /\ score (layer3 (breakdown r)) == 0.5
    /\ (8 <= overallScore r <= 93)%Z
    /\ confidence r == 9 / 12.
Proof.
  destruct Hno as (Hg & Ha & Hy).
  destruct H1 as [V1 E1 D1 A1 T1 K1 M1 L1 U1], H2 as [V2 E2 D2 A2 T2 K2 M2 L2 U2].
  destruct (keySimilarity_bounds (key f1) (mode f1) (key f2) (mode f2) K1 K2)
    as (s & Hs & Bs).
  destruct (layer2_score f1 f2 s Hs) as (l2 & Hl2 & _ & Hs2).
  destruct (calculateMatch_Some startTime endTime f1 f2 l2 Hl2)
    as (r & Hr & Hscore & Hconf & Hb & _).
  assert (H3 : score (calculateLayer3 f1 f2) == 0.5).
  { rewrite layer3_score, (genre_neutral f1 f2 Hg), (artist_neutral f1 f2 Ha),
      (era_neutral f1 f2 Hy). reflexivity. }
  exists r. split; [exact Hr |]. split; [| split].
  - rewrite Hb. exact H3.
  - rewrite Hscore. unfold Math_round.
    pose proof (continuousSimilarity_bounds _ _ V1 V2).
    pose proof (continuousSimilarity_bounds _ _ E1 E2).
    pose proof (continuousSimilarity_bounds _ _ D1 D2).
    pose proof (continuousSimilarity_bounds _ _ A1 A2).
    pose proof (tempoSimilarity_bounds (tempo f1) (tempo f2)).
    pose proof (timeSignatureSimilarity_bounds (timeSignature f1) (timeSignature f2)).
    pose proof (loudnessSimilarity_bounds _ _ L1 L2).
    pose proof (durationSimilarity_bounds (durationMs f1) (durationMs f2)).
    split.
    + change 8%Z with (Qfloor (inject_Z 8)). apply Qfloor_resp_le.
      rewrite layer1_score, H3, Hs2. change (inject_Z 8) with 8. qconst. lra.
    + change 93%Z with (Qfloor (inject_Z 93)). apply Qfloor_resp_le.
      rewrite layer1_score, H3, Hs2. change (inject_Z 93) with 93. qconst. lra.
  - rewrite Hconf. unfold calculateConfidence.
    assert (nonempty (genres f1) && nonempty (genres f2) = false) as ->.
    { apply not_true_is_false. intros E. apply Hg.
      apply (both_true _ _ _ _ (nonempty_true f1) (nonempty_true f2)). exact E. }
    assert (truthy_string (artist f1) && truthy_string (artist f2) = false) as ->.
    { apply not_true_is_false. intros E. apply Ha.
      apply (both_true _ _ _ _ (truthy_string_true f1) (truthy_string_true f2)). exact E. }
    assert (truthy_number (releaseYear f1) && truthy_number (releaseYear f2) = false) as ->.
    { apply not_true_is_false. intros E. apply Hy.
      apply (both_true _ _ _ _ (truthy_number_true f1) (truthy_number_true f2)). exact E. }
    reflexivity.
Qed.

Lemma minimalSong_valid : valid_features minimalSong.
Proof.
  constructor; cbn; try (split; discriminate); try reflexivity.
  now right.
Qed.

Lemma X6_score_range_without_metadata_witness :
  valid_features minimalSong /\ valid_features oppositeSong
  /\ no_shared_metadata minimalSong oppositeSong
  /\ exists r, calculateMatch 0 1 minimalSong oppositeSong = Some r
       /\ score (layer3 (breakdown r)) == 0.5
       /\ (8 <= overallScore r <= 93)%Z
       /\ confidence r == 9 / 12.
Proof.
  assert (Hno : no_shared_metadata minimalSong oppositeSong).
  { repeat split; intros [(x & Hx & _) _]; discriminate. }
  split; [apply minimalSong_valid | split; [apply oppositeSong_valid | split; [exact Hno |]]].
  apply (X6_score_range_without_metadata 0 1 minimalSong oppositeSong
           minimalSong_valid oppositeSong_valid Hno).
Defined.

End MoreScoring.

(** ** A song against itself *)

Section SelfMatch.
Import Js MatchingService.

Lemma genre_self gs :
  genreSimilarity gs gs = 0.5 /\ gs = [] \/ genreSimilarity gs gs == 1 /\ gs <> [].
Proof.
  destruct gs as [| g gs].
  - left. split; reflexivity.
  - right. split; [apply genreSimilarity_refl |]; discriminate.
Qed.

Lemma artist_self a : artistSimilarity a a = 0.5 \/ artistSimilarity a a = 1.0.
Proof.
  destruct (truthy_string a) eqn:E.
  - right. now apply artistSimilarity_refl.
  - left. unfold artistSimilarity. now rewrite E.
Qed.

Lemma era_self y : eraSimilarity y y = 0.5 \/ eraSimilarity y y = 1.0.
Proof.
  destruct (truthy_number y) eqn:E.
  - right. now apply eraSimilarity_refl.
  - left. unfold eraSimilarity. now rewrite E.
Qed.

Lemma ltb_of_one x c : x == 1 -> c < 1 -> ltb c x = true.
Proof. intros Hx Hc. apply ltb_true. lra. Qed.

(** X7: any vector, in range or not, matched with itself has a result
    with an overall score from 93 to 100, the summary of a very similar
    pair, no weakness, and as strengths the four sentences on mood, energy,
    tempo and harmony, followed by the one on genres exactly when its genre
    list is not empty. *)
Theorem X7_self_match_explanation (startTime endTime : Q) (v : AudioFeatures) :
  exists r, calculateMatch startTime endTime v v = Some r
    /\ (93 <= overallScore r <= 100)%Z
    /\ summary (explanation r)
       = "These songs are very similar and would pair well together!"
    /\ weaknesses (explanation r) = []
    /\ strengths (explanation r)
       = core_strengths
         ++ (if nonempty (genres v) then ["Shared musical genres"] else []).
Proof.
  destruct (layer2_score v v _ (keySimilarity_refl (key v) (mode v)))
    as (l2 & Hl2 & Hkey & Hs2).
  set (overall :=
    Math_round ((score (calculateLayer1 v v) * 0.6 + score l2 * 0.25
                 + score (calculateLayer3 v v) * 0.15) * 100)).
  assert (Hrange : (93 <= overall <= 100)%Z).
  { unfold overall, Math_round.
    assert (B3 : 0.5 <= score (calculateLayer3 v v) <= 1).
    { rewrite layer3_score.
      destruct (genre_self (or_empty (genres v))) as [[-> _] | [-> _]];
        destruct (artist_self (artist v)) as [-> | ->];
        destruct (era_self (releaseYear v)) as [-> | ->];
        split; vm_compute; discriminate. }
    assert (E1 : score (calculateLayer1 v v) == 1).
    { rewrite layer1_score, !continuousSimilarity_refl, tempoSimilarity_refl.
      reflexivity. }
    assert (E2 : score l2 == 1).
    { rewrite Hs2, timeSignatureSimilarity_refl, loudnessSimilarity_refl,
        durationSimilarity_refl. reflexivity. }
    split.
    - change 93%Z with (Qfloor (inject_Z 93)). apply Qfloor_resp_le.
      rewrite E1, E2. change (inject_Z 93) with 93. clear - B3. lra.
    - assert (Qfloor ((score (calculateLayer1 v v) * 0.6 + score l2 * 0.25
                       + score (calculateLayer3 v v) * 0.15) * 100 + (1 # 2))
              <= Qfloor (100 + (1 # 2)))%Z as Hle; [| exact Hle].
      apply Qfloor_resp_le. rewrite E1, E2. clear - B3. lra. }
  eexists. split; [unfold calculateMatch; rewrite Hl2; reflexivity |].
  cbn [overallScore explanation]. fold overall.
  split; [exact Hrange |].
  unfold generateExplanation. cbv zeta.
  cbn [summary weaknesses strengths layer1 layer2 layer3].
  rewrite Hkey.
  unfold calculateLayer1, calculateLayer3.
  cbn [components l1_valence l1_energy l1_tempo l3_genre similarity].
  rewrite (ltb_of_one _ 0.8 (continuousSimilarity_refl (valence v))); [| reflexivity].
  rewrite (ltb_of_one _ 0.8 (continuousSimilarity_refl (energy v))); [| reflexivity].
  rewrite (ltb_of_one _ 0.7 (tempoSimilarity_refl (tempo v))); [| reflexivity].
  change (ltb 0.8 1.0) with true. cbn [andb fst snd app].
  split.
  { destruct (Z.leb_spec 80 overall); [reflexivity | lia]. }
  unfold core_strengths.
  destruct (genres v) as [[| g gs] |]; unfold or_empty, default;
    cbn [from_option id nonempty length Nat.ltb Nat.leb].
  - change (bool_decide (is_Some (Some (@nil string)))) with true.
    change (genreSimilarity [] []) with 0.5.
    change (ltb 0.5 0.5) with false. change (ltb 0.5 0.2) with false.
    cbn. split; reflexivity.
  - assert (bool_decide (is_Some (Some (g :: gs))) = true) as ->
      by (apply bool_decide_eq_true; eexists; reflexivity).
    rewrite (ltb_of_one _ 0.5 (genreSimilarity_refl (g :: gs) ltac:(discriminate)));
      [| reflexivity].
    cbn. split; reflexivity.
  - assert (bool_decide (is_Some (@None (list string))) = false) as ->
      by (apply bool_decide_eq_false; intros [x Hx]; discriminate).
    cbn. split; reflexivity.
Qed.

End SelfMatch.

(** ** The result cache when Redis answers *)

Section MatchCacheRuns.
Import Js Effects MatchCacheService.

Lemma with_redis_same w : with_redis (redis w) w = w.
Proof. now destruct w. Qed.

Lemma redis_command_run {A} (run : _ -> A * _) w :
  redis_faults w = [] ->
  redis_command run w = (Ok (run (redis w)).1, with_redis (run (redis w)).2 w).
Proof. intros Hf. unfold redis_command. rewrite Hf. now destruct (run (redis w)). Qed.

Lemma assoc_get_set_eq k e r : assoc_get k (assoc_set k e r) = Some e.
Proof.
  induction r as [| [k' e'] r IH]; cbn.
  - now rewrite String.eqb_refl.
  - destruct (String.eqb_spec k k') as [-> | Hk]; cbn.
    + now rewrite String.eqb_refl.
    + destruct (String.eqb_spec k k'); [contradiction | exact IH].
Qed.

Lemma assoc_get_set_ne k k' e r : k <> k' -> assoc_get k' (assoc_set k e r) = assoc_get k' r.
Proof.
  intros Hne. induction r as [| [k0 e0] r IH]; cbn.
  - destruct (String.eqb_spec k' k); [congruence | reflexivity].
  - destruct (String.eqb_spec k k0) as [-> | Hk]; cbn.
    + destruct (String.eqb_spec k' k0); [congruence | reflexivity].
    + destruct (String.eqb_spec k' k0); [reflexivity | exact IH].
Qed.

Lemma getCachedMatch_run `{JSON MatchResult} a b w :
  redis_faults w = [] ->
  exists w', getCachedMatch a b w = (Ok (stored_match (redis w) a b), w')
    /\ redis w' = redis w /\ redis_faults w' = [] /\ same_env w w'.
Proof.
  intros Hf. unfold getCachedMatch, stored_match, try_catch, bind, redis_get.
  cbv zeta. rewrite (redis_command_run _ w Hf). cbn [fst snd].
  rewrite with_redis_same.
  destruct (assoc_get (getCacheKey a b) (redis w)) as [entry |]; cbn.
  - destruct (String.eqb (value entry) ""); cbn.
    + exists w. repeat split; assumption.
    + destruct (JSON_parse (value entry)); cbn.
      * exists w. repeat split; assumption.
      * eexists. split; [reflexivity |]. cbn. repeat split; assumption.
  - exists w. repeat split; assumption.
Qed.

Lemma cacheMatch_run `{JSON MatchResult} a b r w :
  redis_faults w = [] ->
  exists w', cacheMatch a b r w = (Ok tt, w')
    /\ redis w' = assoc_set (getCacheKey a b) (match_entry r) (redis w)
    /\ redis_faults w' = [] /\ same_env w w'.
Proof.
  intros Hf. unfold cacheMatch, try_catch, bind, redis_setex. cbv zeta.
  rewrite (redis_command_run _ w Hf). cbn.
  eexists. split; [reflexivity |]. cbn. repeat split; assumption.
Qed.

Lemma stored_after_write `{JSON MatchResult} a b r keyspace :
  json_roundtrip r ->
  stored_match (assoc_set (getCacheKey a b) (match_entry r) keyspace) a b = Some r.
Proof.
  intros [Hparse Hne]. unfold stored_match. rewrite assoc_get_set_eq.
  cbn [value match_entry].
  destruct (String.eqb_spec (JSON_stringify r) ""); [contradiction | exact Hparse].
Qed.

Lemma stored_match_sym `{JSON MatchResult} keyspace a b :
  stored_match keyspace a b = stored_match keyspace b a.
Proof. unfold stored_match. now rewrite (getCacheKey_sym a b). Qed.

(** X8: when Redis answers and the JSON text of a result reads back as
    that result, a result written by [cacheMatch] is what [getCachedMatch]
    returns next, with the two ids in either order. *)
Theorem X8_match_cache_round_trip `{JSON MatchResult}
    (song1Id song2Id : string) (result : MatchResult) (w : World)
    (Hstore : redis_faults w = [])
    (Hjson : json_roundtrip result) :
  exists w1 w2 w3,
    cacheMatch song1Id song2Id result w = (Ok tt, w1)
    /\ getCachedMatch song1Id song2Id w1 = (Ok (Some result), w2)
    /\ getCachedMatch song2Id song1Id w1 = (Ok (Some result), w3).
Proof.
  destruct (cacheMatch_run song1Id song2Id result w Hstore) as (w1 & Hw1 & Hr1 & Hf1 & _).
  destruct (getCachedMatch_run song1Id song2Id w1 Hf1) as (w2 & Hw2 & _).
  destruct (getCachedMatch_run song2Id song1Id w1 Hf1) as (w3 & Hw3 & _).
  rewrite (stored_match_sym _ song2Id song1Id) in Hw3.
  rewrite Hr1, (stored_after_write _ _ _ _ Hjson) in Hw2, Hw3.
  now exists w1, w2, w3.
Qed.

Lemma demo_json_roundtrip reference : @json_roundtrip _ (demo_match_json reference) reference.
Proof.
  split; cbn.
  - now rewrite String.eqb_refl.
  - discriminate.
Qed.

Lemma X8_match_cache_round_trip_witness :
  exists reference w1 w2,
    MatchingService.calculateMatch 0 1 identicalSong oppositeSong = Some reference
    /\ @cacheMatch (demo_match_json reference) "s1" "s2" reference
         (demoWorld 0 mixedKeyspace [] ∅ []) = (Ok tt, w1)
    /\ @getCachedMatch (demo_match_json reference) "s2" "s1" w1 = (Ok (Some reference), w2).
Proof.
  destruct (MatchingService.calculateMatch 0 1 identicalSong oppositeSong)
    as [reference |] eqn:Hcalc; [| vm_compute in Hcalc; discriminate].
  destruct (@X8_match_cache_round_trip (demo_match_json reference) "s1" "s2" reference
              (demoWorld 0 mixedKeyspace [] ∅ []) eq_refl (demo_json_roundtrip reference))
    as (w1 & w2 & w3 & H1 & H2 & H3).
  exists reference, w1, w3. split; [reflexivity |]. split; assumption.
Defined.

Lemma getMatch_miss_run `{JSON MatchResult} f1 f2 a b bypass w r :
  redis_faults w = [] ->
  MatchingService.calculateMatch (perf w).1 (perf w).2 f1 f2 = Some r ->
  (bypass = true \/ stored_match (redis w) a b = None) ->
  exists w', getMatch f1 f2 a b bypass w = (Ok r, w')
    /\ redis w' = assoc_set (getCacheKey a b) (match_entry r) (redis w)
    /\ redis_faults w' = [] /\ same_env w w'.
Proof.
  intros Hf Hcalc Hmiss.
  assert (Hlookup : exists w1,
    (if negb bypass then getCachedMatch a b else ret None) w = (Ok None, w1)
    /\ redis w1 = redis w /\ redis_faults w1 = [] /\ same_env w w1).
  { destruct bypass; cbn.
    - exists w. repeat split; assumption.
    - destruct Hmiss as [? | Hmiss]; [discriminate |].
      destruct (getCachedMatch_run a b w Hf) as (w1 & Hw1 & Hrest).
      rewrite Hmiss in Hw1. now exists w1. }
  destruct Hlookup as (w1 & Hlookup & Hr1 & Hf1 & Henv1).
  unfold getMatch. rewrite (bind_run _ _ _ _ _ Hlookup).
  unfold bind at 1. cbn [logger].
  unfold bind at 1, matchingService_calculateMatch. cbn [perf with_log].
  destruct Henv1 as (Hnow & Hperf & Hget & Hconv). rewrite Hperf, Hcalc.
  match goal with
  | |- context [bind (fire_and_forget (cacheMatch a b r) ?h) ?k ?w2] =>
      destruct (cacheMatch_run a b r w2) as (w3 & Hw3 & Hr3 & Hf3 & Henv3);
      [exact Hf1 |];
      assert (Hbg : fire_and_forget (cacheMatch a b r) h w2 = (Ok tt, w3))
        by (unfold fire_and_forget, try_catch; now rewrite Hw3);
      rewrite (bind_run _ k w2 tt w3 Hbg)
  end.
  eexists. split; [reflexivity |].
  cbn in Hr3, Henv3. rewrite Hr3, Hr1.
  split; [reflexivity |]. split; [exact Hf3 |].
  destruct Henv3 as (A & B & C & D). cbn in A, B, C, D.
  repeat split; congruence.
Qed.




(** X10: with [bypassCache] set and Redis answering, [getMatch] returns
    the computed result whatever is stored for the pair, and leaves under
    the pair's key the text of that result with a time to live of 604800
    seconds. *)
Theorem X10_getMatch_bypass_overwrites `{JSON MatchResult}
    (f1 f2 : AudioFeatures) (song1Id song2Id : string) (w : World)
    (result : MatchResult)
    (Hstore : redis_faults w = [])
    (Hcalc : MatchingService.calculateMatch (perf w).1 (perf w).2 f1 f2 = Some result) :
  exists w',
    getMatch f1 f2 song1Id song2Id true w = (Ok result, w')
    /\ assoc_get (getCacheKey song1Id song2Id) (redis w')
       = Some {| value := JSON_stringify result; ttl := 604800 |}.
Proof.
  destruct (getMatch_miss_run f1 f2 song1Id song2Id true w result Hstore Hcalc
              (or_introl eq_refl)) as (w' & Hw' & Hr' & _).
  exists w'. split; [exact Hw' |]. rewrite Hr'. apply assoc_get_set_eq.
Qed.

Lemma X10_getMatch_bypass_overwrites_witness :
  exists result w',
    MatchingService.calculateMatch 0 1 identicalSong oppositeSong = Some result
    /\ @getMatch (demo_match_json result) identicalSong oppositeSong "s1" "s2" true
         (demoWorld 0 mixedKeyspace [] ∅ []) = (Ok result, w')
    /\ assoc_get "match:s1:s2" (redis w')
       = Some {| value := "match-result-39"; ttl := 604800 |}.
Proof.
  destruct (MatchingService.calculateMatch 0 1 identicalSong oppositeSong)
    as [result |] eqn:Hcalc; [| vm_compute in Hcalc; discriminate].
  destruct (@X10_getMatch_bypass_overwrites (demo_match_json result)
              identicalSong oppositeSong "s1" "s2" (demoWorld 0 mixedKeyspace [] ∅ [])
              result eq_refl Hcalc) as (w' & Hw' & Hentry).
  exists result, w'. split; [reflexivity |]. split; [exact Hw' |].
  change (getCacheKey "s1" "s2") with "match:s1:s2" in Hentry.
  rewrite Hentry. cbn [JSON_stringify demo_match_json].
  assert (overallScore result = 39%Z) as ->; [| reflexivity].
  assert (E : overallScore <$> MatchingService.calculateMatch 0 1 identicalSong oppositeSong
              = Some 39%Z) by (vm_compute; reflexivity).
  rewrite Hcalc in E. now injection E.
Defined.

End MatchCacheRuns.

(** ** Invalidation, clearing and statistics of the result cache *)

Section MatchCacheAdmin.
Import Js Effects MatchCacheService.

Lemma is_member_true k ks : is_member k ks = true <-> k ∈ ks.
Proof.
  unfold is_member. rewrite existsb_exists. split.
  - intros (x & Hx & E). apply String.eqb_eq in E. subst. now apply list_elem_of_In.
  - intros Hk. exists k. split; [now apply list_elem_of_In | apply String.eqb_refl].
Qed.

Lemma assoc_get_removed ks k r :
  assoc_get k (filter (fun kv : string * RedisEntry => is_member kv.1 ks = false) r)
  = if is_member k ks then None else assoc_get k r.
Proof.
  induction r as [| [k' e] r IH]; [cbn; now destruct (is_member k ks) |].
  rewrite filter_cons. cbn [fst].
  destruct (decide (is_member k' ks = false)) as [E | E]; cbn [assoc_get].
  - destruct (String.eqb_spec k k') as [-> | Hk]; [now rewrite E | exact IH].
  - destruct (String.eqb_spec k k') as [-> | Hk]; [| exact IH].
    apply not_false_is_true in E. rewrite E in IH |- *. exact IH.
Qed.

Lemma invalidateMatch_run a b w :
  redis_faults w = [] ->
  exists w', invalidateMatch a b w = (Ok tt, w')
    /\ redis w'
       = filter (fun kv => is_member kv.1 [getCacheKey a b] = false) (redis w).
Proof.
  intros Hf. unfold invalidateMatch, try_catch, bind, redis_del. cbv zeta.
  rewrite (redis_command_run _ w Hf). cbn.
  eexists. split; reflexivity.
Qed.

(** X11: when Redis answers, [invalidateMatch] leaves no entry under the
    key of the pair, in either order of the ids, and touches no other key;
    when Redis rejects the command the error is thrown to the caller,
    unlike a failed read or write of [getMatch], and the keyspace is as
    before. *)
Theorem X11_invalidateMatch_behaviour (song1Id song2Id : string) (w : World) :
  (redis_faults w = [] ->
   exists w', invalidateMatch song1Id song2Id w = (Ok tt, w')
     /\ assoc_get (getCacheKey song1Id song2Id) (redis w') = None
     /\ assoc_get (getCacheKey song2Id song1Id) (redis w') = None
     /\ forall k, k <> getCacheKey song1Id song2Id ->
          assoc_get k (redis w') = assoc_get k (redis w))
  /\ (next_fails (redis_faults w) ->
      exists w', invalidateMatch song1Id song2Id w = (Throw RedisError, w')
        /\ redis w' = redis w).
Proof.
  split.
  - intros Hf. destruct (invalidateMatch_run song1Id song2Id w Hf) as (w' & Hw' & Hr').
    exists w'. split; [exact Hw' |].
    assert (Hgone : assoc_get (getCacheKey song1Id song2Id) (redis w') = None).
    { rewrite Hr', assoc_get_removed. cbn. now rewrite String.eqb_refl. }
    split; [exact Hgone |]. split; [now rewrite (getCacheKey_sym song2Id song1Id) |].
    intros k Hk. rewrite Hr', assoc_get_removed. cbn.
    destruct (String.eqb_spec k (getCacheKey song1Id song2Id)); [contradiction | reflexivity].
  - intros Hf. apply next_fails_inv in Hf as (fs & Hf).
    unfold invalidateMatch, try_catch, bind, redis_del, redis_command. cbv zeta.
    rewrite Hf. cbn. eexists. split; reflexivity.
Qed.

Lemma X11_invalidateMatch_behaviour_witness :
  (exists w', invalidateMatch "s2" "s1" (demoWorld 0 mixedKeyspace [] ∅ []) = (Ok tt, w')
     /\ assoc_get "match:s1:s2" (redis w') = None
     /\ assoc_get "session:42" (redis w') = Some {| value := "token"; ttl := 3600 |})
  /\ (exists w', invalidateMatch "s2" "s1" (demoWorld 0 mixedKeyspace [true] ∅ [])
                 = (Throw RedisError, w')).
Proof.
  split.
  - destruct (proj1 (X11_invalidateMatch_behaviour "s2" "s1"
                       (demoWorld 0 mixedKeyspace [] ∅ [])) eq_refl)
      as (w' & Hw' & Hgone & _ & Hother).
    exists w'. split; [exact Hw' |]. split; [exact Hgone |].
    rewrite (Hother "session:42"); [reflexivity | discriminate].
  - destruct (proj2 (X11_invalidateMatch_behaviour "s2" "s1"
                       (demoWorld 0 mixedKeyspace [true] ∅ [])) eq_refl)
      as (w' & Hw' & _).
    now exists w'.
Defined.

(** *** clearAllMatches *)

Lemma match_keys_member r k :
  k ∈ match_keys r <-> String.prefix CACHE_PREFIX k = true /\ k ∈ r.*1.
Proof. unfold match_keys. apply (list_elem_of_filter (fun k => String.prefix CACHE_PREFIX k = true)). Qed.

Lemma filter_on_members {A} (P Q : A -> Prop) `{forall x, Decision (P x)}
    `{forall x, Decision (Q x)} (l : list A) :
  (forall x, x ∈ l -> (P x <-> Q x)) -> filter P l = filter Q l.
Proof.
  induction l as [| x l IH]; intros Hl; [reflexivity |].
  rewrite !filter_cons.
  assert (Hx : P x <-> Q x) by (apply Hl; left).
  assert (Hrest : filter P l = filter Q l) by (apply IH; intros y Hy; apply Hl; now right).
  destruct (decide (P x)) as [p | p], (decide (Q x)) as [q | q]; try tauto;
    now rewrite Hrest.
Qed.

Lemma del_match_keys (r : list (string * RedisEntry)) :
  filter (fun kv => is_member kv.1 (match_keys r) = false) r
  = filter (fun kv => String.prefix CACHE_PREFIX kv.1 = false) r
  /\ filter (fun kv => is_member kv.1 (match_keys r) = true) r
     = filter (fun kv => String.prefix CACHE_PREFIX kv.1 = true) r.
Proof.
  assert (Hmem : forall kv, kv ∈ r ->
    is_member kv.1 (match_keys r) = String.prefix CACHE_PREFIX kv.1).
  { intros kv Hkv.
    destruct (String.prefix CACHE_PREFIX kv.1) eqn:E.
    - apply is_member_true, match_keys_member. split; [exact E |].
      apply list_elem_of_fmap. now exists kv.
    - apply not_true_is_false. intros M. apply is_member_true, match_keys_member in M.
      destruct M as [M _]. congruence. }
  split; apply filter_on_members; intros kv Hkv; now rewrite (Hmem kv Hkv).
Qed.

Lemma match_keys_length (r : list (string * RedisEntry)) :
  length (match_keys r)
  = length (filter (fun kv => String.prefix CACHE_PREFIX kv.1 = true) r).
Proof.
  unfold match_keys. induction r as [| [k e] r IH]; [reflexivity |].
  cbn [fmap list_fmap fst]. rewrite !filter_cons. cbn [fst].
  destruct (decide (String.prefix CACHE_PREFIX k = true)); cbn; now rewrite IH.
Qed.

(** X12: when Redis answers, [clearAllMatches] removes exactly the entries
    whose key starts with the prefix of the result cache, keeps every other
    entry in place, and returns how many it removed. *)
Theorem X12_clearAllMatches_removes_prefix (w : World)
    (Hstore : redis_faults w = []) :
  exists w',
    clearAllMatches w
    = (Ok (Z.of_nat (length (filter (fun kv => String.prefix "match:" kv.1 = true)
                               (redis w)))), w')
    /\ redis w' = filter (fun kv => String.prefix "match:" kv.1 = false) (redis w).
Proof.
  change "match:" with CACHE_PREFIX.
  destruct (del_match_keys (redis w)) as (Hkeep & Hdel).
  unfold clearAllMatches, try_catch, bind, redis_keys.
  rewrite (redis_command_run _ w Hstore). cbn [fst snd]. rewrite with_redis_same.
  fold (match_keys (redis w)).
  destruct (Nat.eqb_spec (length (match_keys (redis w))) 0) as [E | E].
  - cbn. exists w. rewrite <- match_keys_length, E. split; [reflexivity |].
    apply length_zero_iff_nil in E. rewrite E in Hkeep. rewrite <- Hkeep.
    clear. induction (redis w) as [| kv r IH]; [reflexivity |].
    rewrite filter_cons. cbn [is_member existsb].
    destruct (decide (false = false)); [f_equal; exact IH | congruence].
  - unfold redis_del. rewrite (redis_command_run _ w Hstore). cbn [fst snd].
    rewrite Hdel, Hkeep. cbn. eexists. split; reflexivity.
Qed.

Lemma X12_clearAllMatches_removes_prefix_witness :
  exists w',
    clearAllMatches (demoWorld 0 mixedKeyspace [] ∅ []) = (Ok 1%Z, w')
    /\ redis w' = [("session:42", {| value := "token"; ttl := 3600 |})].
Proof.
  exact (X12_clearAllMatches_removes_prefix (demoWorld 0 mixedKeyspace [] ∅ []) eq_refl).
Defined.

End MatchCacheAdmin.

(** ** What the statistics of the result cache report *)

Section MatchCacheStatistics.
Import Js Effects MatchCacheService.

Lemma size_loop_run keys : forall acc w,
  redis_faults w = [] ->
  foldM size_step keys acc w = (Ok (acc + total_value_length (redis w) keys)%Z, w).
Proof.
  induction keys as [| k keys IH]; intros acc w Hf.
  - cbn. now rewrite Z.add_0_r.
  - cbn [foldM]. unfold bind at 1. unfold size_step, bind at 1, redis_get.
    rewrite (redis_command_run _ w Hf). cbn [fst snd]. rewrite with_redis_same.
    unfold total_value_length. cbn [fmap list_fmap foldr].
    fold (total_value_length (redis w) keys).
    unfold value_length at 1.
    destruct (assoc_get k (redis w)) as [e |]; cbn [fmap option_fmap option_map default].
    + destruct (String.eqb_spec (value e) "") as [E | E]; cbn [ret].
      * rewrite IH by exact Hf. rewrite E. cbn. reflexivity.
      * rewrite IH by exact Hf. now rewrite Z.add_assoc.
    + cbn [ret]. rewrite IH by exact Hf. now rewrite Z.add_0_l.
Qed.

Lemma oldest_loop_pure keys : forall acc w,
  redis_faults w = [] ->
  foldM oldest_step keys acc w = (Ok (scan_oldest (redis w) keys acc), w).
Proof.
  induction keys as [| k keys IH]; intros acc w Hf; [reflexivity |].
  cbn [foldM scan_oldest fold_left]. unfold bind at 1.
  unfold oldest_step. destruct acc as [k0 m]. unfold bind at 1, redis_ttl.
  rewrite (redis_command_run _ w Hf). cbn [fst snd]. rewrite with_redis_same.
  fold (ttl_of (redis w) k).
  destruct (m <? ttl_of (redis w) k)%Z; cbn [ret]; now rewrite IH by exact Hf.
Qed.

Lemma scan_oldest_invariant keyspace keys : forall seen acc,
  oldest_so_far keyspace seen acc ->
  oldest_so_far keyspace (seen ++ keys) (scan_oldest keyspace keys acc).
Proof.
  induction keys as [| k keys IH]; intros seen acc Hacc.
  - now rewrite app_nil_r.
  - cbn [scan_oldest fold_left].
    fold (scan_oldest keyspace keys
            (if (acc.2 <? ttl_of keyspace k)%Z then (Some k, ttl_of keyspace k) else acc)).
    replace (seen ++ k :: keys) with ((seen ++ [k]) ++ keys) by now rewrite <- app_assoc.
    apply IH. destruct Hacc as (Hmax & Hkey).
    assert (Hpos : (0 <= acc.2)%Z) by (destruct acc.1 as [k0 |]; lia).
    destruct (Z.ltb_spec acc.2 (ttl_of keyspace k)) as [Hlt | Hge]; split; cbn [fst snd].
    + intros k' Hk'. apply elem_of_app in Hk' as [Hk' | Hk'].
      * specialize (Hmax k' Hk'). lia.
      * apply list_elem_of_singleton in Hk' as ->. lia.
    + split; [apply elem_of_app; right; now apply list_elem_of_singleton |].
      split; [reflexivity | lia].
    + intros k' Hk'. apply elem_of_app in Hk' as [Hk' | Hk'].
      * now apply Hmax.
      * apply list_elem_of_singleton in Hk' as ->. exact Hge.
    + destruct acc.1 as [k0 |]; [| exact Hkey].
      destruct Hkey as (Hin & Hk0). split; [apply elem_of_app; now left | exact Hk0].
Qed.

Lemma getCacheStats_run w :
  redis_faults w = [] ->
  let keys := match_keys (redis w) in
  getCacheStats w
  = (Ok {| totalKeys := Z.of_nat (length keys);
           estimatedSize :=
             if (0 <? length keys)%nat then
               Math_round
                 (inject_Z (total_value_length (redis w) (take (Nat.min 10 (length keys)) keys))
                  / inject_Z (Z.of_nat (length (take (Nat.min 10 (length keys)) keys)))
                  * inject_Z (Z.of_nat (length keys)))
             else 0%Z;
           oldestKey := (scan_oldest (redis w) (take 100 keys) (None, 0%Z)).1 |}, w).
Proof.
  intros Hf keys. unfold getCacheStats, try_catch.
  unfold bind at 1. unfold redis_keys. rewrite (redis_command_run _ w Hf).
  cbn [fst snd]. rewrite with_redis_same. fold (match_keys (redis w)). fold keys.
  unfold bind at 1.
  destruct (0 <? length keys)%nat.
  - unfold bind at 1. rewrite (size_loop_run _ 0%Z w Hf). cbn [ret].
    unfold bind at 1. rewrite (oldest_loop_pure _ _ w Hf). reflexivity.
  - cbn [ret]. unfold bind at 1. rewrite (oldest_loop_pure _ _ w Hf). reflexivity.
Qed.

(** X13: when Redis answers, [getCacheStats] changes nothing, counts the
    keys of the result cache, and reports as oldest a key, among the first
    hundred, whose remaining TTL is positive and the greatest of them; it
    reports none exactly when none of the hundred has a positive TTL. *)
Theorem X13_getCacheStats_oldestKey_has_greatest_ttl (w : World)
    (Hstore : redis_faults w = []) :
  exists stats,
    getCacheStats w = (Ok stats, w)
    /\ totalKeys stats = Z.of_nat (length (match_keys (redis w)))
    /\ match oldestKey stats with
       | Some k =>
           k ∈ take 100 (match_keys (redis w))
           /\ (0 < ttl_of (redis w) k)%Z
           /\ forall k', k' ∈ take 100 (match_keys (redis w)) ->
                (ttl_of (redis w) k' <= ttl_of (redis w) k)%Z
       | None =>
           forall k', k' ∈ take 100 (match_keys (redis w)) ->
             (ttl_of (redis w) k' <= 0)%Z
       end.
Proof.
  eexists. split; [exact (getCacheStats_run w Hstore) |]. split; [reflexivity |].
  cbn [oldestKey].
  destruct (scan_oldest_invariant (redis w) (take 100 (match_keys (redis w))) []
              (None, 0%Z)) as (Hmax & Hkey).
  { split; [intros k Hk; inversion Hk | reflexivity]. }
  rewrite app_nil_l in Hmax, Hkey.
  destruct (scan_oldest (redis w) (take 100 (match_keys (redis w))) (None, 0%Z)) as [[k |] m];
    cbn [fst snd] in *.
  - destruct Hkey as (Hin & Httl & Hpos). split; [exact Hin |]. split; [lia |].
    intros k' Hk'. specialize (Hmax k' Hk'). lia.
  - intros k' Hk'. specialize (Hmax k' Hk'). lia.
Qed.

Lemma X13_getCacheStats_oldestKey_has_greatest_ttl_witness :
  exists stats,
    getCacheStats statsWorld = (Ok stats, statsWorld)
    /\ totalKeys stats = 2%Z
    /\ oldestKey stats = Some "match:c:d".
Proof.
  destruct (X13_getCacheStats_oldestKey_has_greatest_ttl statsWorld eq_refl)
    as (stats & Hrun & Htotal & _).
  exists stats. split; [exact Hrun |]. split; [exact Htotal |].
  assert (E : getCacheStats statsWorld
              = (Ok {| totalKeys := 2; estimatedSize := 30;
                       oldestKey := Some "match:c:d" |}, statsWorld))
    by (vm_compute; reflexivity).
  rewrite E in Hrun. now inversion Hrun.
Defined.

Lemma round_of_mean (s : Z) (n : nat) :
  (0 < n)%nat ->
  Math_round (inject_Z s / inject_Z (Z.of_nat n) * inject_Z (Z.of_nat n)) = s.
Proof.
  intros Hn. unfold Math_round.
  assert (E : inject_Z s / inject_Z (Z.of_nat n) * inject_Z (Z.of_nat n) + (1 # 2)
              == inject_Z s + (1 # 2)).
  { apply Qplus_comp; [| reflexivity].
    rewrite Qmult_comm. apply Qmult_div_r.
    intros E0. change 0 with (inject_Z 0) in E0.
    apply (proj1 (inject_Z_injective _ _)) in E0. lia. }
  rewrite (Qfloor_comp _ _ E).
  assert (Hlo : (s <= Qfloor (inject_Z s + (1 # 2)))%Z).
  { rewrite <- (Qfloor_Z s) at 1. apply Qfloor_resp_le. lra. }
  assert (Hhi : (Qfloor (inject_Z s + (1 # 2)) < s + 1)%Z).
  { pose proof (Qfloor_le (inject_Z s + (1 # 2))) as Hf.
    apply Z.lt_nge. intros Hc. rewrite Zle_Qle in Hc.
    rewrite inject_Z_plus in Hc. change (inject_Z 1) with 1 in Hc. lra. }
  lia.
Qed.

(** X14: with at most ten cached results, and Redis answering, the
    estimated size that [getCacheStats] reports is exactly the total
    length of the stored values. *)
Theorem X14_getCacheStats_size_exact_up_to_ten (w : World)
    (Hstore : redis_faults w = [])
    (Hfew : (length (match_keys (redis w)) <= 10)%nat) :
  exists stats,
    getCacheStats w = (Ok stats, w)
    /\ estimatedSize stats = total_value_length (redis w) (match_keys (redis w)).
Proof.
  eexists. split; [exact (getCacheStats_run w Hstore) |]. cbn [estimatedSize].
  rewrite Nat.min_r by exact Hfew. rewrite firstn_all.
  destruct (match_keys (redis w)) as [| k keys] eqn:E.
  - reflexivity.
  - change (0 <? length (k :: keys))%nat with true. cbv iota.
    apply round_of_mean. cbn. lia.
Qed.

Lemma X14_getCacheStats_size_exact_up_to_ten_witness :
  exists stats,
    getCacheStats statsWorld = (Ok stats, statsWorld)
    /\ estimatedSize stats = 30%Z.
Proof.
  refine (X14_getCacheStats_size_exact_up_to_ten statsWorld eq_refl _).
  vm_compute. lia.
Defined.

End MatchCacheStatistics.

(** ** Which pairs share a key of the result cache *)

Section CacheKeyCollisions.
Import Js Effects MatchCacheService.

Lemma split_at_colon x : forall x' y y',
  colon_free x -> colon_free x' ->
  x +:+ ":" +:+ y = x' +:+ ":" +:+ y' -> x = x' /\ y = y'.
Proof.
  induction x as [| c x IH]; intros [| c' x'] y y' Hx Hx' E; cbn in *.
  - now inversion E.
  - inversion E; subst. now destruct Hx' as [Hc _].
  - inversion E; subst. now destruct Hx as [Hc _].
  - inversion E; subst. destruct Hx as [_ Hx], Hx' as [_ Hx'].
    destruct (IH x' y y' Hx Hx' H1) as [-> ->]. now split.
Qed.

(** With ids that hold a colon two different pairs can share a key. *)
Lemma getCacheKey_collision_with_colons :
  getCacheKey "a:b" "c" = getCacheKey "a" "b:c".
Proof. reflexivity. Qed.

(** X15: for ids without a colon, as Spotify's are, two pairs of songs
    have the same key of the result cache exactly when they are the same
    pair, in either order: no two different pairs share a cached result. *)
Theorem X15_getCacheKey_identifies_the_pair (a b c d : string)
    (Ha : colon_free a) (Hb : colon_free b) (Hc : colon_free c) (Hd : colon_free d) :
  getCacheKey a b = getCacheKey c d <-> (a = c /\ b = d) \/ (a = d /\ b = c).
Proof.
  split.
  - unfold getCacheKey, sort2, CACHE_PREFIX. intros E.
    destruct (String.ltb b a), (String.ltb d c); cbn in E;
      injection E as E; apply split_at_colon in E; try assumption;
      destruct E as [-> ->]; tauto.
  - intros [[-> ->] | [-> ->]]; [reflexivity | apply getCacheKey_sym].
Qed.

Lemma X15_getCacheKey_identifies_the_pair_witness :
  getCacheKey "4uLU6hMCjMI75M1A2tKUQC" "0VjIjW4GlUZAMYd2vXMi3b"
  = getCacheKey "0VjIjW4GlUZAMYd2vXMi3b" "4uLU6hMCjMI75M1A2tKUQC".
Proof.
  apply (X15_getCacheKey_identifies_the_pair
           "4uLU6hMCjMI75M1A2tKUQC" "0VjIjW4GlUZAMYd2vXMi3b"
           "0VjIjW4GlUZAMYd2vXMi3b" "4uLU6hMCjMI75M1A2tKUQC").
  - cbn. repeat split; discriminate.
  - cbn. repeat split; discriminate.
  - cbn. repeat split; discriminate.
  - cbn. repeat split; discriminate.
  - right. split; reflexivity.
Defined.

End CacheKeyCollisions.

(** ** Runs of the song cache *)

Section SongCacheRuns.
Import Js Effects SongCacheService.

Lemma with_songCache_same w : with_songCache (songCache w) w = w.
Proof. now destruct w. Qed.

Lemma prisma_query_run {A} (run : _ -> Res A * _) w :
  prisma_faults w = [] ->
  prisma_query run w = ((run (songCache w)).1, with_songCache (run (songCache w)).2 w).
Proof. intros Hf. unfold prisma_query. rewrite Hf. now destruct (run (songCache w)). Qed.

Lemma prisma_query_fails {A} (run : _ -> Res A * _) w fs :
  prisma_faults w = true :: fs ->
  prisma_query run w = (Throw PrismaError, with_prisma_faults fs w).
Proof. intros Hf. unfold prisma_query. now rewrite Hf. Qed.

(** No row: a miss that leaves the world as it is. *)
Lemma getCachedSong_absent `{JSON CachedSong} songId platform w :
  prisma_faults w = [] ->
  songCache w !! (platform, songId) = None ->
  getCachedSong songId platform w = (Ok None, w).
Proof.
  intros Hf Hrow. unfold getCachedSong, try_catch. unfold bind at 1.
  unfold songCache_findUnique. rewrite (prisma_query_run _ w Hf). cbn [fst snd].
  now rewrite with_songCache_same, Hrow.
Qed.

(** A row that is still good and reads back: a hit that leaves the world
    as it is. *)
Lemma getCachedSong_present `{JSON CachedSong} songId platform w row song :
  prisma_faults w = [] ->
  songCache w !! (platform, songId) = Some row ->
  (now w <= row_expiresAt row)%Z ->
  JSON_parse (row_data row) = Some song ->
  getCachedSong songId platform w = (Ok (Some song), w).
Proof.
  intros Hf Hrow Hfresh Hparse. unfold getCachedSong, try_catch. unfold bind at 1.
  unfold songCache_findUnique. rewrite (prisma_query_run _ w Hf). cbn [fst snd].
  rewrite with_songCache_same, Hrow. unfold bind at 1, Date_now.
  assert ((row_expiresAt row <? now w)%Z = false) as -> by (apply Z.ltb_ge; lia).
  now rewrite Hparse.
Qed.

Lemma cacheSong_stores `{JSON CachedSong} song w :
  prisma_faults w = [] -> cacheSong song w = (Ok tt, after_cacheSong song w).
Proof.
  intros Hf. unfold cacheSong, try_catch. cbv zeta. unfold bind at 1.
  unfold songCache_upsert. rewrite (prisma_query_run _ w Hf). reflexivity.
Qed.

(** The world after a miss of [getSongById] answered by Spotify. *)
Lemma getSongById_fetch_run `{JSON CachedSong} songId platform w track song :
  prisma_faults w = [] ->
  songCache w !! (platform, songId) = None ->
  spotify_getTrack w songId = Ok track ->
  spotify_convertToCachedSong w track (now w) = Ok song ->
  exists w1,
    getSongById songId platform w = (Ok song, w1)
    /\ prisma_faults w1 = []
    /\ now w1 = now w
    /\ songCache w1 = <[(song_platform song, song_id song) := row_of song]> (songCache w)
    /\ spotify_calls w1
       = spotify_calls w ++ ["getTrack " +:+ songId;
                             "convertToCachedSong " +:+ track_id track].
Proof.
  intros Hf Hrow Htrack Hsong. unfold getSongById.
  rewrite (bind_run _ _ _ _ _ (getCachedSong_absent songId platform w Hf Hrow)).
  unfold bind at 1. cbn [logger].
  unfold bind at 1, spotifyService_getTrack. cbn [spotify_getTrack with_log].
  rewrite Htrack.
  unfold bind at 1, spotifyService_convertToCachedSong.
  cbn [spotify_convertToCachedSong now with_log with_spotify_calls]. rewrite Hsong.
  unfold bind at 1. rewrite cacheSong_stores by exact Hf.
  eexists. split; [reflexivity |]. cbn. rewrite <- app_assoc. now repeat split.
Qed.

(** X16: a song that is not in the cache is fetched from Spotify once:
    the first [getSongById] asks Spotify and stores the song, and a second
    one right after returns the same song from the database without a
    further call to Spotify, provided the song carries the requested id
    and platform, has not expired and reads back from its text. *)
Theorem X16_getSongById_fetches_once `{JSON CachedSong}
    (songId platform : string) (w : World) (track : SpotifyTrack) (song : CachedSong)
    (Hstore : prisma_faults w = [])
    (Hmiss : songCache w !! (platform, songId) = None)
    (Htrack : spotify_getTrack w songId = Ok track)
    (Hsong : spotify_convertToCachedSong w track (now w) = Ok song)
    (Hid : song_id song = songId)
    (Hplatform : song_platform song = platform)
    (Hfresh : (now w <= song_expiresAt song)%Z)
    (Hjson : JSON_parse (JSON_stringify song) = Some song) :
  exists w1 w2,
    getSongById songId platform w = (Ok song, w1)
    /\ spotify_calls w1
       = spotify_calls w ++ ["getTrack " +:+ songId;
                             "convertToCachedSong " +:+ track_id track]
    /\ getSongById songId platform w1 = (Ok song, w2)
    /\ spotify_calls w2 = spotify_calls w1
    /\ songCache w2 = songCache w1.
Proof.
  destruct (getSongById_fetch_run songId platform w track song Hstore Hmiss Htrack Hsong)
    as (w1 & Hrun & Hf1 & Hnow1 & Htable1 & Hcalls1).
  assert (Hlookup : getCachedSong songId platform w1 = (Ok (Some song), w1)).
  { apply (getCachedSong_present songId platform w1 (row_of song) song Hf1).
    - rewrite Htable1, Hid, Hplatform. apply lookup_insert_eq.
    - rewrite Hnow1. exact Hfresh.
    - exact Hjson. }
  destruct (getSongById_hit songId platform w1 w1 song Hlookup) as (w2 & Hrun2 & Ht & Hc).
  exists w1, w2. repeat split; assumption.
Qed.

Lemma X16_getSongById_fetches_once_witness :
  exists w1 w2,
    @getSongById (demo_song_json (demoSong 1000)) "s1" "spotify"
      (demoWorld 1000 [] [] ∅ []) = (Ok (demoSong 1000), w1)
    /\ spotify_calls w1 = ["getTrack s1"; "convertToCachedSong s1"]
    /\ @getSongById (demo_song_json (demoSong 1000)) "s1" "spotify" w1
       = (Ok (demoSong 1000), w2)
    /\ spotify_calls w2 = spotify_calls w1
    /\ songCache w2 = songCache w1.
Proof.
  apply (@X16_getSongById_fetches_once (demo_song_json (demoSong 1000))
           "s1" "spotify" (demoWorld 1000 [] [] ∅ [])
           {| track_id := "s1"; track_name := "Test Song" |} (demoSong 1000));
    try reflexivity.
  vm_compute. intros E. discriminate E.
Defined.

(** X17: an error of Spotify on a miss reaches the caller of
    [getSongById] and of [getAudioFeatures] as it is, whatever the
    database does, and nothing is stored. *)
Theorem X17_spotify_error_reaches_caller `{JSON CachedSong}
    (songId platform : string) (w : World) (e : Error)
    (Hmiss : songCache w !! (platform, songId) = None)
    (Htrack : spotify_getTrack w songId = Throw e) :
  (exists w', getSongById songId platform w = (Throw e, w')
     /\ songCache w' = songCache w)
  /\ (exists w', getAudioFeatures songId platform w = (Throw e, w')).
Proof.
  assert (Hrun : exists w', getSongById songId platform w = (Throw e, w')
                   /\ songCache w' = songCache w).
  { unfold getSongById, getCachedSong, try_catch, bind, songCache_findUnique,
      prisma_query, spotifyService_getTrack.
    destruct (prisma_faults w) as [| [] fs]; cbn; rewrite ?Hmiss; cbn; rewrite Htrack;
      eexists; split; reflexivity. }
  split; [exact Hrun |].
  destruct Hrun as (w' & Hrun & _). exists w'.
  unfold getAudioFeatures, bind. now rewrite Hrun.
Qed.

Lemma X17_spotify_error_reaches_caller_witness :
  exists w',
    @getAudioFeatures (demo_song_json (demoSong 1000)) "unknown" "spotify"
      (demoWorld 1000 [] [] ∅ [true]) = (Throw (AppError 404 "NOT_FOUND"), w').
Proof.
  apply (@X17_spotify_error_reaches_caller (demo_song_json (demoSong 1000))
           "unknown" "spotify" (demoWorld 1000 [] [] ∅ [true]) (AppError 404 "NOT_FOUND"));
    reflexivity.
Defined.

End SongCacheRuns.

(** ** Maintenance of the song cache *)

Section SongCacheMaintenance.
Import Js Effects SongCacheService.

Lemma cleanExpiredCache_run w :
  prisma_faults w = [] ->
  exists w',
    cleanExpiredCache w
    = (Ok (Z.of_nat (size (filter (fun kv => (row_expiresAt kv.2 < now w)%Z) (songCache w)))),
       w')
    /\ songCache w' = filter (fun kv => ¬ (row_expiresAt kv.2 < now w)%Z) (songCache w)
    /\ prisma_faults w' = []
    /\ now w' = now w.
Proof.
  intros Hf. unfold cleanExpiredCache, try_catch. unfold bind at 1, Date_now.
  unfold bind at 1, songCache_deleteMany_expiresAt_lt.
  rewrite (prisma_query_run _ w Hf). cbn [fst snd].
  eexists. split; [reflexivity |]. cbn. now rewrite Hf.
Qed.

(** X18: [cleanExpiredCache] never throws.  When the database answers it
    returns the number of rows whose [expiresAt] is earlier than the
    current time and leaves exactly the other rows, unchanged: the rows
    that a lookup would still accept.  When the database rejects the
    query it returns 0 and the table is as before. *)
Theorem X18_cleanExpiredCache_sweeps_expired (w : World) :
  (prisma_faults w = [] ->
   exists w',
     cleanExpiredCache w
     = (Ok (Z.of_nat (size (filter (fun kv => (row_expiresAt kv.2 < now w)%Z)
                              (songCache w)))), w')
     /\ forall k row,
          songCache w' !! k = Some row
          <-> songCache w !! k = Some row /\ (now w <= row_expiresAt row)%Z)
  /\ (next_fails (prisma_faults w) ->
      exists w', cleanExpiredCache w = (Ok 0%Z, w') /\ songCache w' = songCache w)
  /\ never_throws cleanExpiredCache.
Proof.
  split; [| split].
  - intros Hf. destruct (cleanExpiredCache_run w Hf) as (w' & Hrun & Htable & _).
    exists w'. split; [exact Hrun |]. intros k row. rewrite Htable.
    rewrite map_lookup_filter_Some. cbn [snd]. intuition lia.
  - intros Hf. apply next_fails_inv in Hf as (fs & Hf).
    unfold cleanExpiredCache, try_catch, bind, Date_now, songCache_deleteMany_expiresAt_lt.
    rewrite (prisma_query_fails _ w fs Hf). cbn. eexists. split; reflexivity.
  - unfold cleanExpiredCache. safe.
Qed.

Lemma X18_cleanExpiredCache_sweeps_expired_witness :
  exists w',
    cleanExpiredCache expiredWorld = (Ok 1%Z, w')
    /\ songCache w' !! ("spotify", "s1") = None.
Proof.
  destruct (proj1 (X18_cleanExpiredCache_sweeps_expired expiredWorld) eq_refl)
    as (w' & Hrun & Hrows).
  exists w'. split; [exact Hrun |].
  destruct (songCache w' !! ("spotify", "s1")) as [row |] eqn:E; [| reflexivity].
  apply Hrows in E as [E Hfresh]. vm_compute in E. injection E as <-.
  vm_compute in Hfresh. now contradiction Hfresh.
Defined.

(** *** getCacheStats *)

Lemma song_getCacheStats_run w :
  prisma_faults w = [] ->
  getCacheStats w
  = (Ok {| totalCached := Z.of_nat (size (songCache w));
           expired :=
             Z.of_nat (size (filter (fun kv => (row_expiresAt kv.2 < now w)%Z)
                               (songCache w)));
           byPlatform :=
             [("spotify",
               Z.of_nat (size (filter (fun kv : (string * string) * SongCacheRow =>
                                         kv.1.1 = "spotify") (songCache w))))] |}, w).
Proof.
  intros Hf. destruct w. cbn in Hf. subst.
  unfold getCacheStats, try_catch, bind, Date_now, Promise_all3, bind, settle,
    songCache_count, songCache_count_expiresAt_lt, songCache_count_platform, prisma_query.
  reflexivity.
Qed.

(** X19: the statistics of the song cache never throw.  When the database
    answers they change nothing, and the number of expired rows and the
    number of Spotify rows are each at most the total; when the database
    rejects one of the three counts every figure is 0 and no platform is
    listed. *)
Theorem X19_song_getCacheStats_counts (w : World) :
  (prisma_faults w = [] ->
   exists stats n,
     getCacheStats w = (Ok stats, w)
     /\ totalCached stats = Z.of_nat (size (songCache w))
     /\ (0 <= expired stats <= totalCached stats)%Z
     /\ byPlatform stats = [("spotify", n)]
     /\ (0 <= n <= totalCached stats)%Z)
  /\ (true ∈ take 3 (prisma_faults w) ->
      exists w',
        getCacheStats w
        = (Ok {| totalCached := 0; expired := 0; byPlatform := [] |}, w'))
  /\ never_throws getCacheStats.
Proof.
  split; [| split].
  - intros Hf. eexists. eexists. split; [exact (song_getCacheStats_run w Hf) |].
    cbn [totalCached expired byPlatform]. split; [reflexivity |].
    split; [| split; [reflexivity |]].
    + pose proof (map_size_filter (fun kv : (string * string) * SongCacheRow =>
                                     (row_expiresAt kv.2 < now w)%Z) (songCache w)). lia.
    + pose proof (map_size_filter (fun kv : (string * string) * SongCacheRow =>
                                     kv.1.1 = "spotify") (songCache w)). lia.
  - intros Hf.
    unfold getCacheStats, try_catch, bind, Date_now, Promise_all3, bind, settle,
      songCache_count, songCache_count_expiresAt_lt, songCache_count_platform, prisma_query.
    destruct (prisma_faults w) as [| [] [| [] [| [] fs]]] eqn:E; cbn;
      try (eexists; reflexivity);
      exfalso; cbn in Hf; repeat (apply elem_of_cons in Hf as [Hf | Hf]; [discriminate |]);
      inversion Hf.
  - unfold getCacheStats. safe.
Qed.

Lemma X19_song_getCacheStats_counts_witness :
  (exists stats,
     getCacheStats expiredWorld = (Ok stats, expiredWorld)
     /\ totalCached stats = 1%Z /\ expired stats = 1%Z)
  /\ (exists w',
        getCacheStats
          (demoWorld 1001 [] [] {[ ("spotify", "s1") := demoRow boundarySong ]}
             [false; true])
        = (Ok {| totalCached := 0; expired := 0; byPlatform := [] |}, w')).
Proof.
  split.
  - destruct (proj1 (X19_song_getCacheStats_counts expiredWorld) eq_refl)
      as (stats & n & Hrun & Htotal & _).
    exists stats. split; [exact Hrun |]. split; [exact Htotal |].
    rewrite (song_getCacheStats_run expiredWorld eq_refl) in Hrun.
    injection Hrun as <-. reflexivity.
  - apply (proj1 (proj2 (X19_song_getCacheStats_counts
             (demoWorld 1001 [] [] {[ ("spotify", "s1") := demoRow boundarySong ]}
                [false; true])))).
    cbn. right. left.
Defined.

Lemma size_after_sweep (P : (string * string) * SongCacheRow -> Prop)
    `{!forall kv, Decision (P kv)} (t : gmap (string * string) SongCacheRow) :
  size (filter (fun kv => ¬ P kv) t) = (size t - size (filter P t))%nat.
Proof.
  pose proof (map_size_disj_union _ _ (map_disjoint_filter_complement P t)) as E.
  rewrite map_filter_union_complement in E. lia.
Qed.

(** X20: a sweep followed by the statistics, with the database answering
    and the clock where it was: no row is reported as expired any more,
    and the total has dropped by exactly the number the sweep returned. *)
Theorem X20_sweep_then_stats (w : World) (Hstore : prisma_faults w = []) :
  exists before swept w1 after,
    getCacheStats w = (Ok before, w)
    /\ cleanExpiredCache w = (Ok swept, w1)
    /\ getCacheStats w1 = (Ok after, w1)
    /\ swept = expired before
    /\ expired after = 0%Z
    /\ totalCached after = (totalCached before - swept)%Z.
Proof.
  destruct (cleanExpiredCache_run w Hstore) as (w1 & Hsweep & Htable & Hf1 & Hnow1).
  eexists. eexists. exists w1. eexists.
  split; [exact (song_getCacheStats_run w Hstore) |].
  split; [exact Hsweep |].
  split; [exact (song_getCacheStats_run w1 Hf1) |].
  cbn [totalCached expired]. split; [reflexivity |].
  rewrite Htable, Hnow1. split.
  - assert (E : filter (fun kv : (string * string) * SongCacheRow =>
                          (row_expiresAt kv.2 < now w)%Z)
                  (filter (fun kv : (string * string) * SongCacheRow =>
                             ¬ (row_expiresAt kv.2 < now w)%Z) (songCache w)) = ∅).
    { apply map_empty. intros k. apply map_lookup_filter_None.
      destruct (filter _ (songCache w) !! k) as [row |] eqn:Hrow; [right | now left].
      intros x [= <-]. apply map_lookup_filter_Some in Hrow as [_ Hrow]. exact Hrow. }
    rewrite E. reflexivity.
  - rewrite (size_after_sweep (fun kv => (row_expiresAt kv.2 < now w)%Z)).
    pose proof (map_size_filter (fun kv : (string * string) * SongCacheRow =>
                                   (row_expiresAt kv.2 < now w)%Z) (songCache w)). lia.
Qed.

Lemma X20_sweep_then_stats_witness :
  exists before w1 after,
    getCacheStats expiredWorld = (Ok before, expiredWorld)
    /\ cleanExpiredCache expiredWorld = (Ok 1%Z, w1)
    /\ getCacheStats w1 = (Ok after, w1)
    /\ expired after = 0%Z
    /\ totalCached after = 0%Z.
Proof.
  destruct (X20_sweep_then_stats expiredWorld eq_refl)
    as (before & swept & w1 & after & Hbefore & Hsweep & Hafter & Hswept & Hexp & Htotal).
  assert (E : getCacheStats expiredWorld
              = (Ok {| totalCached := 1; expired := 1; byPlatform := [("spotify", 1%Z)] |},
                 expiredWorld)) by (vm_compute; reflexivity).
  rewrite E in Hbefore. injection Hbefore as <-. cbn in Hswept, Htotal. subst swept.
  exists {| totalCached := 1; expired := 1; byPlatform := [("spotify", 1%Z)] |}, w1, after.
  repeat split; assumption.
Defined.

(** *** invalidateSong and clearAllCache *)

(** X21: [invalidateSong] never throws and always ends by logging that the
    song was invalidated, also when there was no such row or the database
    rejected the delete; in these two cases the table is as before and an
    error is in the log.  When the database answers, the row of the song
    is gone and no other row is touched. *)
Theorem X21_invalidateSong_always_reports (songId platform : string) (w : World) :
  exists w',
    invalidateSong songId platform w = (Ok tt, w')
    /\ last (log w')
       = Some {| level := LInfo;
                 message := "Invalidated cache for song: " +:+ songId;
                 cause := None |}
    /\ (prisma_faults w = [] ->
        songCache w' = delete (platform, songId) (songCache w))
    /\ (next_fails (prisma_faults w) \/ songCache w !! (platform, songId) = None ->
        songCache w' = songCache w
        /\ exists entry, entry ∈ log w' /\ level entry = LError).
Proof.
  unfold invalidateSong, deleteCachedSong, try_catch, bind, songCache_delete,
    prisma_query, logger, next_fails.
  destruct (prisma_faults w) as [| [] fs] eqn:Hf;
    destruct (songCache w !! (platform, songId)) as [row |] eqn:Hrow; cbn;
    (eexists; split; [reflexivity |]); cbn; (split; [apply last_snoc |]);
    (split; [intros Hnil; try discriminate Hnil; try reflexivity;
             symmetry; now apply delete_id |]);
    intros [Hc | Hc]; try discriminate Hc;
    (split; [reflexivity |]);
    (eexists; split;
     [apply elem_of_app; left; apply elem_of_app; right; left | reflexivity]).
Qed.

Lemma X21_invalidateSong_always_reports_witness :
  exists w',
    invalidateSong "unknown" "spotify" expiredWorld = (Ok tt, w')
    /\ songCache w' = songCache expiredWorld
    /\ exists entry, entry ∈ log w' /\ level entry = LError.
Proof.
  destruct (X21_invalidateSong_always_reports "unknown" "spotify" expiredWorld)
    as (w' & Hrun & _ & _ & Hkept).
  exists w'. split; [exact Hrun |]. apply Hkept. right. reflexivity.
Defined.

(** X22: [clearAllCache] never throws.  When the database answers it
    returns the number of rows there were and leaves none, so that every
    lookup that follows is a miss; when the database rejects the query it
    returns 0 and the table is as before. *)
Theorem X22_clearAllCache_leaves_nothing `{JSON CachedSong} (w : World) :
  (prisma_faults w = [] ->
   exists w',
     clearAllCache w = (Ok (Z.of_nat (size (songCache w))), w')
     /\ songCache w' = ∅
     /\ forall songId platform, getCachedSong songId platform w' = (Ok None, w'))
  /\ (next_fails (prisma_faults w) ->
      exists w', clearAllCache w = (Ok 0%Z, w') /\ songCache w' = songCache w)
  /\ never_throws clearAllCache.
Proof.
  split; [| split].
  - intros Hf. unfold clearAllCache, try_catch. unfold bind at 1.
    unfold songCache_deleteMany_all. rewrite (prisma_query_run _ w Hf). cbn [fst snd].
    eexists. split; [reflexivity |]. split; [reflexivity |].
    intros songId platform. apply getCachedSong_absent; [exact Hf | apply lookup_empty].
  - intros Hf. apply next_fails_inv in Hf as (fs & Hf).
    unfold clearAllCache, try_catch, bind, songCache_deleteMany_all.
    rewrite (prisma_query_fails _ w fs Hf). cbn. eexists. split; reflexivity.
  - unfold clearAllCache. safe.
Qed.

Lemma X22_clearAllCache_leaves_nothing_witness :
  exists w',
    clearAllCache boundaryWorld = (Ok 1%Z, w')
    /\ @getCachedSong (demo_song_json boundarySong) "s1" "spotify" w' = (Ok None, w').
Proof.
  destruct (proj1 (@X22_clearAllCache_leaves_nothing (demo_song_json boundarySong)
                     boundaryWorld) eq_refl) as (w' & Hrun & _ & Hmiss).
  exists w'. split; [exact Hrun | apply Hmiss].
Defined.

End SongCacheMaintenance.

(** ** Search *)

Section Search.
Import Js Effects SongCacheService.

Lemma cacheSong_stable `{JSON CachedSong} song : env_stable (cacheSong song).
Proof. unfold cacheSong, songCache_upsert. cbv zeta. stable. Qed.

Lemma converted_song_env w w' track :
  same_env w w' -> converted_song w' track = converted_song w track.
Proof.
  intros (Hnow & _ & _ & Hconv). unfold converted_song. now rewrite Hconv, Hnow.
Qed.

Lemma converted_env w w' items :
  same_env w w' -> converted w' items = converted w items.
Proof.
  intros Henv. unfold converted. induction items as [| track items IH]; [reflexivity |].
  cbn. now rewrite (converted_song_env w w' track Henv), IH.
Qed.

(** One track adds at most one song, and exactly one when Spotify converts
    the track, whatever the database does. *)
Lemma search_step_run `{JSON CachedSong} songs track w :
  exists added w',
    search_step songs track w = (Ok (songs ++ added), w')
    /\ same_env w w'
    /\ (length added <= 1)%nat
    /\ (is_Some (converted_song w track) -> length added = 1%nat).
Proof.
  unfold search_step, try_catch. unfold bind at 1.
  destruct (getCachedSong_safe (track_id track) "spotify" w) as (cached & w1 & Hlookup).
  pose proof (getCachedSong_stable (track_id track) "spotify" w) as Henv1.
  rewrite Hlookup in *. cbn [snd] in Henv1.
  destruct cached as [c |].
  - exists [c], w1. cbn. repeat split; try apply Henv1; lia.
  - unfold bind at 1. unfold bind at 1.
    unfold spotifyService_convertToCachedSong at 1.
    pose proof (converted_song_env w w1 track Henv1) as Hconv.
    unfold converted_song at 1 in Hconv.
    destruct (spotify_convertToCachedSong w1 track (now w1)) as [c | e].
    + unfold bind at 1.
      match goal with
      | |- context [cacheSong c ?w2] =>
          destruct (cacheSong_safe c w2) as ([] & w3 & Hwrite);
          pose proof (cacheSong_stable c w2) as Henv3;
          rewrite Hwrite in *; cbn [snd] in Henv3
      end.
      exists [c], w3. cbn. split; [reflexivity |]. split.
      * eapply same_env_trans; [exact Henv1 |].
        eapply same_env_trans; [| exact Henv3]. repeat split.
      * split; [lia | reflexivity].
    + eexists [], _. rewrite app_nil_r. cbn. split; [reflexivity |]. split.
      * eapply same_env_trans; [exact Henv1 |]. repeat split.
      * split; [lia |]. rewrite <- Hconv. intros [x Hx]. discriminate.
Qed.

Lemma search_loop_run `{JSON CachedSong} items : forall songs w,
  exists added w',
    foldM search_step items songs w = (Ok (songs ++ added), w')
    /\ same_env w w'
    /\ (length (converted w items) <= length added <= length items)%nat.
Proof.
  induction items as [| track items IH]; intros songs w.
  - exists [], w. rewrite app_nil_r. split; [reflexivity |].
    split; [apply same_env_refl | cbn; lia].
  - cbn [foldM].
    destruct (search_step_run songs track w) as (added & w1 & Hstep & Henv & Hlen & Hone).
    rewrite (bind_run _ _ _ _ _ Hstep).
    destruct (IH (songs ++ added) w1) as (added' & w' & Hrun & Henv' & Hlen').
    exists (added ++ added'), w'. rewrite app_assoc. split; [exact Hrun |].
    split; [eapply same_env_trans; eassumption |].
    rewrite length_app. rewrite (converted_env w w1 items Henv) in Hlen'.
    assert (Hhead : length (converted w (track :: items))
                    = (length (option_list (converted_song w track))
                       + length (converted w items))%nat).
    { unfold converted. cbn. now destruct (converted_song w track). }
    rewrite Hhead. cbn [length].
    destruct (converted_song w track) as [c |].
    + change (length (option_list (Some c))) with 1%nat.
      rewrite (Hone ltac:(eexists; reflexivity)). lia.
    + change (length (@option_list CachedSong None)) with 0%nat. lia.
Qed.

(** A track without row, when the database answers: the song Spotify
    makes of it is stored and added, or nothing happens to the table. *)
Lemma search_step_cold `{JSON CachedSong} songs track w :
  prisma_faults w = [] ->
  songCache w !! ("spotify", track_id track) = None ->
  exists w',
    search_step songs track w
    = (Ok (songs ++ option_list (converted_song w track)), w')
    /\ prisma_faults w' = []
    /\ same_env w w'
    /\ songCache w'
       = match converted_song w track with
         | Some c => <[(song_platform c, song_id c) := row_of c]> (songCache w)
         | None => songCache w
         end.
Proof.
  intros Hf Hrow. unfold search_step, try_catch. unfold bind at 1.
  rewrite (getCachedSong_absent (track_id track) "spotify" w Hf Hrow).
  unfold bind at 1. unfold bind at 1.
  unfold spotifyService_convertToCachedSong at 1, converted_song.
  destruct (spotify_convertToCachedSong w track (now w)) as [c | e].
  - unfold bind at 1. rewrite cacheSong_stores by exact Hf.
    eexists. split; [reflexivity |]. cbn. rewrite Hf. repeat split.
  - eexists. rewrite app_nil_r. split; [reflexivity |]. cbn. rewrite Hf. repeat split.
Qed.

Lemma search_loop_cold `{JSON CachedSong} items : forall songs w,
  prisma_faults w = [] ->
  cold_search w items ->
  exists w',
    foldM search_step items songs w = (Ok (songs ++ converted w items), w')
    /\ (forall id, id ∉ track_id <$> items ->
          songCache w' !! ("spotify", id) = songCache w !! ("spotify", id))
    /\ (forall track song, track ∈ items -> converted_song w track = Some song ->
          songCache w' !! ("spotify", track_id track) = Some (row_of song)).
Proof.
  induction items as [| track items IH]; intros songs w Hf (Hcold & Hdup & Hids).
  - exists w. cbn. rewrite app_nil_r. split; [reflexivity |].
    split; [reflexivity |]. intros track song Hin. inversion Hin.
  - cbn [foldM].
    destruct (search_step_cold songs track w Hf (Hcold track ltac:(left)))
      as (w1 & Hstep & Hf1 & Henv & Htable).
    rewrite (bind_run _ _ _ _ _ Hstep).
    cbn [fmap list_fmap] in Hdup. apply NoDup_cons in Hdup as [Hfresh Hdup].
    assert (Hkey : forall c, converted_song w track = Some c ->
              (song_platform c, song_id c) = ("spotify", track_id track)).
    { intros c Hc. destruct (Hids track c ltac:(left) Hc) as [-> ->]. reflexivity. }
    assert (Hother : forall id, id <> track_id track ->
              songCache w1 !! ("spotify", id) = songCache w !! ("spotify", id)).
    { intros id Hid. rewrite Htable.
      destruct (converted_song w track) as [c |] eqn:Hc; [| reflexivity].
      rewrite (Hkey c eq_refl). apply lookup_insert_ne. congruence. }
    assert (Hcold1 : cold_search w1 items).
    { split; [| split; [exact Hdup |]].
      - intros t Ht. rewrite Hother; [apply Hcold; now right |].
        intros E. apply Hfresh. rewrite <- E. apply list_elem_of_fmap. now exists t.
      - intros t c Ht Hc. rewrite (converted_song_env w w1 t Henv) in Hc.
        apply (Hids t c); [now right | exact Hc]. }
    destruct (IH (songs ++ option_list (converted_song w track)) w1 Hf1 Hcold1)
      as (w' & Hrun & Hframe & Hstored).
    exists w'. split.
    { rewrite Hrun, (converted_env w w1 items Henv), <- app_assoc. unfold converted.
      cbn. now destruct (converted_song w track). }
    split.
    + intros id Hid. cbn [fmap list_fmap] in Hid. apply not_elem_of_cons in Hid as [Hne Hid].
      rewrite (Hframe id Hid). now apply Hother.
    + intros t c Ht Hc. apply elem_of_cons in Ht as [-> | Ht].
      * rewrite (Hframe (track_id track) Hfresh), Htable, Hc, (Hkey c Hc).
        apply lookup_insert_eq.
      * apply (Hstored t c Ht). now rewrite (converted_song_env w w1 t Henv).
Qed.

(** X23: [searchSongs] fails only when the search itself fails, and then
    with the error of the search and no access to the database.  Given a
    search response it always answers, with the total, limit and offset
    of the response and [hasMore] telling whether the response names a
    next page.  A failing lookup or write loses no track: whatever the
    database does, there are at least as many songs as tracks that
    Spotify can convert, and at most as many as tracks.  When the
    database answers and no track found is in the cache yet, the songs
    are exactly the conversions of the convertible tracks, in the order
    of the response, and each of them is stored under its track's id. *)
Theorem X23_searchSongs_skips_unconvertible_tracks `{JSON CachedSong}
    (searchTracks : SongSearchFilters -> Res SpotifySearchResponse)
    (filters : SongSearchFilters) (w : World) :
  (forall e, searchTracks filters = Throw e ->
     exists w', searchSongs searchTracks filters w = (Throw e, w')
       /\ songCache w' = songCache w /\ prisma_faults w' = prisma_faults w)
  /\ (forall response, searchTracks filters = Ok response ->
        exists result w',
          searchSongs searchTracks filters w = (Ok result, w')
          /\ result_total result = tracks_total response
          /\ result_limit result = tracks_limit response
          /\ result_offset result = tracks_offset response
          /\ (result_hasMore result = true <-> tracks_next response <> None)
          /\ (length (converted w (tracks_items response))
              <= length (result_songs result)
              <= length (tracks_items response))%nat
          /\ (prisma_faults w = [] -> cold_search w (tracks_items response) ->
              result_songs result = converted w (tracks_items response)
              /\ forall track song,
                   track ∈ tracks_items response ->
                   converted_song w track = Some song ->
                   songCache w' !! ("spotify", track_id track) = Some (row_of song))).
Proof.
  split.
  - intros e He. unfold searchSongs, bind, spotifyService_searchTracks. rewrite He.
    eexists. repeat split.
  - intros response Hresponse. unfold searchSongs. unfold bind at 1.
    unfold spotifyService_searchTracks. rewrite Hresponse.
    set (w1 := with_spotify_calls
                 (spotify_calls w ++ ["searchTracks " +:+ filter_query filters]) w).
    assert (Henv : same_env w w1) by repeat split.
    destruct (search_loop_run (tracks_items response) [] w1)
      as (songs & w' & Hloop & _ & Hlen).
    rewrite (converted_env w w1 _ Henv) in Hlen.
    rewrite (bind_run _ _ w1 _ w' Hloop).
    eexists. eexists. split; [reflexivity |]. cbn.
    split; [reflexivity |]. split; [reflexivity |]. split; [reflexivity |].
    split; [| split; [exact Hlen |]].
    + split; [intros Hmore; now apply bool_decide_eq_true in Hmore
             | intros Hnext; now apply bool_decide_eq_true].
    + intros Hf (Hcold & Hdup & Hids).
      assert (Hcold1 : cold_search w1 (tracks_items response)).
      { split; [exact Hcold | split; [exact Hdup |]].
        intros t c Ht Hc. rewrite (converted_song_env w w1 t Henv) in Hc.
        now apply (Hids t c). }
      destruct (search_loop_cold (tracks_items response) [] w1 Hf Hcold1)
        as (w2 & Hrun & _ & Hstored).
      rewrite Hloop in Hrun. injection Hrun as Hsongs <-.
      cbn in Hsongs. rewrite (converted_env w w1 _ Henv) in Hsongs.
      split; [exact Hsongs |].
      intros t c Ht Hc. apply (Hstored t c Ht).
      now rewrite (converted_song_env w w1 t Henv).
Qed.

Lemma X23_searchSongs_skips_unconvertible_tracks_witness :
  (exists w',
     @searchSongs (demo_song_json (demoSong 1000)) demoSearchTracks (demoFilters "other")
       (demoWorld 1000 [] [] ∅ []) = (Throw (AppError 400 "BAD_REQUEST"), w'))
  /\ (exists result w',
        @searchSongs (demo_song_json (demoSong 1000)) demoSearchTracks (demoFilters "test")
          (demoWorld 1000 [] [] ∅ []) = (Ok result, w')
        /\ result_songs result = [demoSong 1000]
        /\ result_total result = 2%Z
        /\ songCache w' !! ("spotify", "s1")
           = Some (@row_of (demo_song_json (demoSong 1000)) (demoSong 1000)))
  /\ (exists result w',
        @searchSongs (demo_song_json (demoSong 1000)) demoSearchTracks (demoFilters "test")
          outageWorld = (Ok result, w')
        /\ length (result_songs result) = 1%nat).
Proof.
  split; [| split].
  - destruct (proj1 (@X23_searchSongs_skips_unconvertible_tracks
                       (demo_song_json (demoSong 1000))
                       demoSearchTracks (demoFilters "other") (demoWorld 1000 [] [] ∅ []))
                (AppError 400 "BAD_REQUEST") eq_refl) as (w' & Hrun & _).
    now exists w'.
  - destruct (proj2 (@X23_searchSongs_skips_unconvertible_tracks
                       (demo_song_json (demoSong 1000))
                       demoSearchTracks (demoFilters "test") (demoWorld 1000 [] [] ∅ []))
                demoSearchResponse eq_refl)
      as (result & w' & Hrun & Htotal & _ & _ & _ & _ & Hcold).
    assert (Hc : cold_search (demoWorld 1000 [] [] ∅ []) (tracks_items demoSearchResponse)).
    { split; [| split].
      - intros track _. apply lookup_empty.
      - cbn. repeat constructor; intros Hin;
          repeat (apply elem_of_cons in Hin as [Hin | Hin]; [discriminate |]);
          inversion Hin.
      - intros track song Ht Hs. cbn in Ht.
        apply elem_of_cons in Ht as [-> | Ht];
          [| apply elem_of_cons in Ht as [-> | Ht]; [| inversion Ht]];
          vm_compute in Hs; [injection Hs as <-; split; reflexivity | discriminate]. }
    destruct (Hcold eq_refl Hc) as (Hsongs & Hstored).
    exists result, w'. split; [exact Hrun |]. split; [exact Hsongs |].
    split; [exact Htotal |].
    apply (Hstored {| track_id := "s1"; track_name := "Test Song" |} (demoSong 1000));
      [left | reflexivity].
  - destruct (proj2 (@X23_searchSongs_skips_unconvertible_tracks
                       (demo_song_json (demoSong 1000))
                       demoSearchTracks (demoFilters "test") outageWorld)
                demoSearchResponse eq_refl)
      as (result & w' & Hrun & _ & _ & _ & _ & Hlen & _).
    exists result, w'. split; [exact Hrun |].
    assert (E : (@searchSongs (demo_song_json (demoSong 1000)) demoSearchTracks
                   (demoFilters "test") outageWorld).1
                = Ok {| result_songs := [demoSong 1000]; result_total := 2;
                        result_limit := 20; result_offset := 0;
                        result_hasMore := false |})
      by (vm_compute; reflexivity).
    rewrite Hrun in E. cbn in E. injection E as ->. reflexivity.
Defined.

End Search.

(** ** Error responses *)

Section ErrorResponses.
Import Js Effects ErrorHandler.

(** X24: [errorHandler] always answers, with [success: false].  An
    operational [AppError] is answered with its own status, code and
    message in every environment.  For any other error the status is 400
    or 500; outside development the response carries neither a stack
    trace nor the details of a database error, and in production the
    message of the error is replaced by a fixed text. *)
Theorem X24_errorHandler_hides_internals (NODE_ENV : NodeEnv) (method path : string)
    (err : ThrownError) (w : World) :
  exists response w',
    errorHandler NODE_ENV method path err w = (Ok response, w')
    /\ body_success (response_body response) = false
    /\ (forall statusCode code message stack,
          err = AppErr statusCode code message true stack ->
          response_status response = statusCode
          /\ body_code (response_body response) = code
          /\ body_message (response_body response) = message
          /\ body_stack (response_body response) = None)
    /\ (operational err = false ->
        (response_status response = 400%Z \/ response_status response = 500%Z)
        /\ (NODE_ENV <> Development ->
            body_stack (response_body response) = None
            /\ body_details (response_body response) = None)
        /\ (NODE_ENV = Production ->
            body_message (response_body response) = "Database operation failed"
            \/ body_message (response_body response) = "Internal server error")).
Proof.
  unfold errorHandler, bind, logger.
  destruct err as [statusCode code message [] stack | name message stack]; cbn.
  - eexists. eexists. split; [reflexivity |]. cbn. split; [reflexivity |].
    split; [| discriminate]. now intros ? ? ? ? [= <- <- <-].
  - eexists. eexists. split; [reflexivity |]. cbn. split; [reflexivity |].
    split; [discriminate |]. intros _. split; [now right |].
    split; [now destruct NODE_ENV | intros ->; now right].
  - destruct (String.eqb name "PrismaClientKnownRequestError");
      (eexists; eexists; split; [reflexivity |]); cbn; (split; [reflexivity |]);
      (split; [discriminate |]); intros _.
    + split; [now left |]. split; [now destruct NODE_ENV | intros ->; now left].
    + split; [now right |]. split; [now destruct NODE_ENV | intros ->; now right].
Qed.

Lemma X24_errorHandler_hides_internals_witness :
  exists response w',
    errorHandler Production "GET" "/api/songs/s1"
      (OtherErr "TypeError" "cannot read properties of undefined"
         (Some "TypeError at /srv/app/dist/music.js:41")) (demoWorld 0 [] [] ∅ [])
    = (Ok response, w')
    /\ response_status response = 500%Z
    /\ body_message (response_body response) = "Internal server error"
    /\ body_stack (response_body response) = None.
Proof.
  destruct (X24_errorHandler_hides_internals Production "GET" "/api/songs/s1"
              (OtherErr "TypeError" "cannot read properties of undefined"
                 (Some "TypeError at /srv/app/dist/music.js:41")) (demoWorld 0 [] [] ∅ []))
    as (response & w' & Hrun & _ & _ & Hother).
  exists response, w'. split; [exact Hrun |].
  destruct (Hother eq_refl) as (_ & Hquiet & _).
  destruct (Hquiet ltac:(discriminate)) as (Hstack & _).
  injection Hrun as <- _. repeat split.
Defined.

End ErrorResponses.

(** ** SpotifyService: errors and the token *)

Section SpotifyErrors.
Import Js Effects SpotifyService.

Lemma or_string_nonempty a b : b <> "" -> or_string a b <> "".
Proof.
  intros Hb. unfold or_string, truthy_string.
  destruct a as [s |]; cbn; [| exact Hb].
  destruct (String.eqb_spec s ""); cbn; [exact Hb | assumption].
Qed.

(** X25: what [handleApiError] throws.  With a response the status of the
    [AppError] is the status of the response; without one it is 504 for a
    timeout code and 500 otherwise.  The stored token is dropped exactly
    on a 401, and the message of the error is never empty. *)
Theorem X25_handleApiError_status_and_token (error : AxiosError) (auth : SpotifyAuth)
    (w : World) :
  exists thrown auth' w',
    handleApiError error auth w = (Ok (thrown, auth'), w')
    /\ match axios_response error with
       | Some response =>
           app_statusCode thrown = resp_status response
           /\ auth' = (if (resp_status response =? 401)%Z then no_token else auth)
       | None =>
           app_statusCode thrown
           = (if bool_decide (axios_code error = Some "ECONNABORTED"
                              \/ axios_code error = Some "ETIMEDOUT")
              then 504%Z else 500%Z)
           /\ auth' = auth
       end
    /\ app_message thrown <> "".
Proof.
  unfold handleApiError.
  destruct (axios_response error) as [response |].
  - cbv zeta.
    destruct (Z.eqb_spec (resp_status response) 429) as [E | N1].
    + eexists. eexists. eexists. split; [reflexivity |]. rewrite E. cbn.
      repeat split. discriminate.
    + destruct (Z.eqb_spec (resp_status response) 404) as [E | N2].
      * eexists. eexists. eexists. split; [reflexivity |]. rewrite E. cbn.
        repeat split. discriminate.
      * destruct (Z.eqb_spec (resp_status response) 401) as [E | N3].
        -- eexists. eexists. eexists. split; [reflexivity |]. rewrite E. cbn.
           repeat split. discriminate.
        -- eexists. eexists. eexists. split; [reflexivity |]. cbn.
           repeat split. now apply or_string_nonempty.
  - destruct (bool_decide (axios_code error = Some "ECONNABORTED")) eqn:E1;
      [| destruct (bool_decide (axios_code error = Some "ETIMEDOUT")) eqn:E2]; cbn.
    + eexists. eexists. eexists. split; [reflexivity |]. cbn.
      apply bool_decide_eq_true in E1.
      rewrite bool_decide_eq_true_2 by now left. repeat split. discriminate.
    + eexists. eexists. eexists. split; [reflexivity |]. cbn.
      apply bool_decide_eq_true in E2.
      rewrite bool_decide_eq_true_2 by now right. repeat split. discriminate.
    + eexists. eexists. eexists. split; [reflexivity |]. cbn.
      apply bool_decide_eq_false in E1, E2.
      rewrite bool_decide_eq_false_2 by tauto. repeat split. discriminate.
Qed.

Lemma X25_handleApiError_status_and_token_witness :
  exists thrown w',
    handleApiError
      {| axios_response := Some {| resp_status := 401; resp_error_message := None;
                                   resp_retry_after := None |};
         axios_code := None; axios_message := "Request failed with status code 401" |}
      {| accessToken := Some "BQD-token"; tokenExpiresAt := 3600000 |}
      (demoWorld 0 [] [] ∅ [])
    = (Ok (thrown, no_token), w')
    /\ app_statusCode thrown = 401%Z.
Proof.
  destruct (X25_handleApiError_status_and_token
              {| axios_response := Some {| resp_status := 401; resp_error_message := None;
                                           resp_retry_after := None |};
                 axios_code := None;
                 axios_message := "Request failed with status code 401" |}
              {| accessToken := Some "BQD-token"; tokenExpiresAt := 3600000 |}
              (demoWorld 0 [] [] ∅ []))
    as (thrown & auth' & w' & Hrun & (Hstatus & Hauth) & _).
  cbn in Hauth. subst auth'. exists thrown, w'. split; [exact Hrun | exact Hstatus].
Defined.

(** X26: the token is fetched only when needed.  A token with more than
    five minutes left is kept and the token endpoint is not asked,
    whatever it would answer.  Otherwise the endpoint is asked: its
    failure surfaces as the [AppError] 500 SPOTIFY_AUTH_ERROR whatever the
    cause, and its answer is stored with the lifetime it states, so that a
    non-empty token with more than five minutes of life is not fetched
    again by the next call. *)
Theorem X26_ensureValidToken_refreshes_when_needed
    (post_token : Res SpotifyTokenResponse) (auth : SpotifyAuth) (w : World) :
  (truthy_string (accessToken auth) = true ->
   (now w + 300000 < tokenExpiresAt auth)%Z ->
   ensureValidToken post_token auth w = (Ok auth, w))
  /\ (truthy_string (accessToken auth) = false
        \/ (tokenExpiresAt auth <= now w + 300000)%Z ->
      (forall e, post_token = Throw e ->
         exists w', ensureValidToken post_token auth w
                    = (Throw (AppError 500 "SPOTIFY_AUTH_ERROR"), w'))
      /\ (forall response, post_token = Ok response ->
            exists w',
              ensureValidToken post_token auth w
              = (Ok {| accessToken := Some (access_token response);
                       tokenExpiresAt := (now w + expires_in response * 1000)%Z |}, w')
              /\ (access_token response <> "" -> (300 < expires_in response)%Z ->
                  forall post_token',
                    ensureValidToken post_token'
                      {| accessToken := Some (access_token response);
                         tokenExpiresAt := (now w + expires_in response * 1000)%Z |} w'
                    = (Ok {| accessToken := Some (access_token response);
                             tokenExpiresAt := (now w + expires_in response * 1000)%Z |},
                       w')))).
Proof.
  assert (Hkeep : forall post a w0,
    truthy_string (accessToken a) = true ->
    (now w0 + 300000 < tokenExpiresAt a)%Z ->
    ensureValidToken post a w0 = (Ok a, w0)).
  { intros post a w0 Htoken Hlife. unfold ensureValidToken, bind, Date_now.
    rewrite Htoken.
    assert ((now w0 + 5 * 60 * 1000 <? tokenExpiresAt a)%Z = true) as ->
      by (apply Z.ltb_lt; lia).
    reflexivity. }
  split; [apply Hkeep |].
  intros Hstale.
  assert (Hcheck : truthy_string (accessToken auth)
                   && (now w + 5 * 60 * 1000 <? tokenExpiresAt auth)%Z = false).
  { destruct Hstale as [-> | Hlife]; [reflexivity |].
    apply andb_false_iff. right. apply Z.ltb_ge. lia. }
  split.
  - intros e ->. unfold ensureValidToken, bind, Date_now. rewrite Hcheck. cbn.
    eexists. reflexivity.
  - intros response ->.
    assert (Hrun : exists w',
      ensureValidToken (Ok response) auth w
      = (Ok {| accessToken := Some (access_token response);
               tokenExpiresAt := (now w + expires_in response * 1000)%Z |}, w')
      /\ now w' = now w).
    { unfold ensureValidToken, bind, Date_now. rewrite Hcheck. cbn.
      eexists. split; reflexivity. }
    destruct Hrun as (w' & Hrun & Hnow). exists w'. split; [exact Hrun |].
    intros Htoken Hlife post_token'. apply Hkeep; cbn.
    + now destruct (String.eqb_spec (access_token response) "").
    + lia.
Qed.

Lemma X26_ensureValidToken_refreshes_when_needed_witness :
  exists w',
    ensureValidToken (Ok {| access_token := "BQD-token"; expires_in := 3600 |})
      no_token (demoWorld 1000 [] [] ∅ [])
    = (Ok {| accessToken := Some "BQD-token"; tokenExpiresAt := 3601000 |}, w')
    /\ ensureValidToken (Throw RedisError)
         {| accessToken := Some "BQD-token"; tokenExpiresAt := 3601000 |} w'
       = (Ok {| accessToken := Some "BQD-token"; tokenExpiresAt := 3601000 |}, w').
Proof.
  destruct (proj2 (X26_ensureValidToken_refreshes_when_needed
                     (Ok {| access_token := "BQD-token"; expires_in := 3600 |})
                     no_token (demoWorld 1000 [] [] ∅ []))
              (or_introl eq_refl))
    as (_ & Hfetch).
  destruct (Hfetch _ eq_refl) as (w' & Hrun & Hnext).
  exists w'. split; [exact Hrun |].
  apply (Hnext ltac:(discriminate) ltac:(reflexivity)).
Defined.

End SpotifyErrors.
